(** * MuSig key aggregation (src/modules/musig/keyagg_impl.h)

    A shallow embedding of the key-aggregation part of the MuSig module:
    the point codec ([secp256k1_point_save], [secp256k1_point_load]), the
    165-byte key-aggregation cache, the two tagged SHA-256 midstates, the
    key-aggregation coefficient, and the three API functions
    [secp256k1_musig_pubkey_agg], [secp256k1_musig_pubkey_get] and
    [secp256k1_musig_pubkey_tweak_add].

    Conventions.
    - Bytes are [Byte.byte]; a C array is a [list byte].
    - A field element is the integer held by the limbs (a raw value below
      2^256, reduced modulo the field prime only by normalisation); a scalar
      is an integer modulo the group order.
    - A pointer argument that may be NULL is an [option]; the objects that
      the API writes through pointers live in an explicit memory [mem].
    - [VERIFY_CHECK] is an assertion: a violated one ends the run with
      [Violated], which is different from the function returning 0.
    - The curve constants and the platform fact
      [sizeof(secp256k1_ge_storage) == 64] are the fields of [config]. *)

From Bignums Require Import BigZ.
From Stdlib Require Import Strings.Byte Strings.String Strings.Ascii.
From Stdlib Require Import ZArith Zcong List Lia Bool.
Import ListNotations.
Local Open Scope Z_scope.

(** ** Bytes and fixed-width integers *)

Definition bytes := list byte.

Definition byte_to_Z (b : byte) : Z := Z.of_N (Byte.to_N b).

Definition byte_of_Z (z : Z) : byte :=
  match Byte.of_N (Z.to_N (z mod 256)) with
  | Some b => b
  | None => x00
  end.

(** Little-endian and big-endian readings of a byte string. *)
Fixpoint le_decode (bs : bytes) : Z :=
  match bs with
  | [] => 0
  | b :: r => byte_to_Z b + 256 * le_decode r
  end.

Fixpoint le_encode (k : nat) (z : Z) : bytes :=
  match k with
  | O => []
  | S k' => byte_of_Z z :: le_encode k' (z / 256)
  end.

Definition be_decode (bs : bytes) : Z := le_decode (rev bs).
Definition be_encode (k : nat) (z : Z) : bytes := rev (le_encode k z).

Definition zero_bytes (k : nat) : bytes := repeat x00 k.

(** [memcmp(a, b, n) == 0] on two arrays of the same declared size. *)
Fixpoint bytes_eqb (a b : bytes) : bool :=
  match a, b with
  | [], [] => true
  | x :: a', y :: b' => Byte.eqb x y && bytes_eqb a' b'
  | _, _ => false
  end.

(** The sub-array [data + off], [len] bytes long. *)
Definition sub (off len : nat) (data : bytes) : bytes :=
  firstn len (skipn off data).

(** [memcpy(dst + off, src, length src)]. *)
Definition memcpy_at (dst : bytes) (off : nat) (src : bytes) : bytes :=
  firstn off dst ++ src ++ skipn (off + length src) dst.

Definition bytes_of_string (str : string) : bytes :=
  map byte_of_ascii (list_ascii_of_string str).

(** ** SHA-256 *)

Module SHA256.

Definition u32 (x : Z) : Z := x mod 2 ^ 32.

Definition rotr (x n : Z) : Z :=
  Z.lor (Z.shiftr x n) (u32 (Z.shiftl x (32 - n))).

Definition Ch (x y z : Z) : Z := Z.lxor z (Z.land x (Z.lxor y z)).
Definition Maj (x y z : Z) : Z := Z.lor (Z.land x y) (Z.land z (Z.lor x y)).
Definition Sigma0 (x : Z) : Z := Z.lxor (Z.lxor (rotr x 2) (rotr x 13)) (rotr x 22).
Definition Sigma1 (x : Z) : Z := Z.lxor (Z.lxor (rotr x 6) (rotr x 11)) (rotr x 25).
Definition sigma0 (x : Z) : Z := Z.lxor (Z.lxor (rotr x 7) (rotr x 18)) (Z.shiftr x 3).
Definition sigma1 (x : Z) : Z := Z.lxor (Z.lxor (rotr x 17) (rotr x 19)) (Z.shiftr x 10).

(** The first 64 primes, by trial division. *)
Definition is_prime (k : Z) : bool :=
  (1 <? k) &&
  forallb (fun d => negb (k mod Z.of_nat d =? 0)) (seq 2 (Z.to_nat k - 2)).

Definition primes64 : list Z :=
  Eval vm_compute in filter is_prime (map Z.of_nat (seq 0 312)).

(** The integer cube root of [k], one bit at a time from bit [b - 1] down. *)
Fixpoint icbrt_bits (b : nat) (k r : Z) : Z :=
  match b with
  | O => r
  | S b' =>
      let r' := r + 2 ^ Z.of_nat b' in
      if r' * r' * r' <=? k then icbrt_bits b' k r' else icbrt_bits b' k r
  end.

Definition icbrt (k : Z) : Z := icbrt_bits 40 k 0.

(** FIPS 180-4, 4.2.2: the round constants are the first 32 bits of the
    fractional parts of the cube roots of the first 64 primes. *)
Definition K256 : list Z :=
  Eval vm_compute in map (fun q => u32 (icbrt (q * 2 ^ 96))) primes64.

(** FIPS 180-4, 5.3.3: the initial hash value is the first 32 bits of the
    fractional parts of the square roots of the first 8 primes. *)
Definition IV : list Z :=
  Eval vm_compute in map (fun q => u32 (Z.sqrt (q * 2 ^ 64))) (firstn 8 primes64).

(** The first [k] big-endian 32-bit words of a block. *)
Fixpoint words_of (k : nat) (bs : bytes) : list Z :=
  match k with
  | O => []
  | S k' => be_decode (firstn 4 bs) :: words_of k' (skipn 4 bs)
  end.

(** Message schedule: [w] holds the sixteen most recent words, oldest first. *)
Definition next_w (w : list Z) : Z :=
  u32 (sigma1 (nth 14 w 0) + nth 9 w 0 + sigma0 (nth 1 w 0) + nth 0 w 0).

Fixpoint schedule (k : nat) (w : list Z) : list Z :=
  match k with
  | O => []
  | S k' => let x := next_w w in x :: schedule k' (tl w ++ [x])
  end.

Definition round (st : list Z) (kw : Z * Z) : list Z :=
  match st with
  | [a; b; c; d; e; f; g; h] =>
      let t1 := u32 (h + Sigma1 e + Ch e f g + fst kw + snd kw) in
      let t2 := u32 (Sigma0 a + Maj a b c) in
      [u32 (t1 + t2); a; b; c; u32 (d + t1); e; f; g]
  | _ => st
  end.

(** The state of a hash computation: [struct secp256k1_sha256]. *)
Record secp256k1_sha256 : Type := mk_sha256 {
  s : list Z;        (* uint32_t s[8] *)
  buf : bytes;       (* the 64-byte block buffer *)
  bytes_written : Z  (* size_t bytes *)
}.

(** Modelled from the spec: the hash primitive of hash_impl.h, which is not
    among the sources. The compression function is the one of FIPS 180-4. *)
Definition secp256k1_sha256_transform (st : list Z) (block : bytes) : list Z :=
  let w16 := words_of 16 block in
  let w := w16 ++ schedule 48 w16 in
  let r := fold_left round (combine K256 w) st in
  map (fun ab => u32 (fst ab + snd ab)) (combine st r).

(** Modelled from the spec: [secp256k1_sha256_initialize] of hash_impl.h sets
    the eight state words and the byte counter, and leaves the buffer as it
    finds it. *)
Definition secp256k1_sha256_initialize (hash : secp256k1_sha256) : secp256k1_sha256 :=
  {| s := IV; buf := buf hash; bytes_written := 0 |}.

(** Modelled from the spec: the loop of [secp256k1_sha256_write] of
    hash_impl.h. While the data fills the buffer: copy, compress and start
    the buffer anew; what is left stays in the buffer. Each round consumes at
    least one byte, which bounds the fuel. *)
Fixpoint write_loop (fuel : nat) (st : list Z) (bf : bytes) (bufsize : nat)
    (data : bytes) : list Z * bytes :=
  match fuel with
  | O => (st, bf)
  | S fuel' =>
      if (64 - bufsize <=? length data)%nat then
        let chunk_len := (64 - bufsize)%nat in
        let bf' := memcpy_at bf bufsize (firstn chunk_len data) in
        write_loop fuel' (secp256k1_sha256_transform st bf') bf' 0
                   (skipn chunk_len data)
      else
        (st, match data with
             | [] => bf
             | _ => memcpy_at bf bufsize data
             end)
  end.

(** Modelled from the spec: [secp256k1_sha256_write] of hash_impl.h. The byte
    counter is a 64-bit [size_t]. *)
Definition secp256k1_sha256_write (hash : secp256k1_sha256) (data : bytes)
    : secp256k1_sha256 :=
  let bufsize := Z.to_nat (Z.land (bytes_written hash) 0x3F) in
  let '(st, bf) :=
    write_loop (S (length data)) (s hash) (buf hash) bufsize data in
  {| s := st; buf := bf;
     bytes_written := (bytes_written hash + Z.of_nat (length data)) mod 2 ^ 64 |}.

(** Modelled from the spec: [secp256k1_sha256_finalize] of hash_impl.h: pad,
    append the bit length, emit the state big-endian, and clear it. *)
Definition secp256k1_sha256_finalize (hash : secp256k1_sha256)
    : secp256k1_sha256 * bytes :=
  let n := bytes_written hash in
  let sizedesc := be_encode 4 (Z.shiftr n 29) ++ be_encode 4 (u32 (Z.shiftl n 3)) in
  let padlen := Z.to_nat (1 + (119 - n mod 64) mod 64) in
  let pad := firstn padlen (x80 :: zero_bytes 63) in
  let h1 := secp256k1_sha256_write hash pad in
  let h2 := secp256k1_sha256_write h1 sizedesc in
  ({| s := repeat 0 8; buf := buf h2; bytes_written := bytes_written h2 |},
   concat (map (be_encode 4) (s h2))).

(** A [secp256k1_sha256] local variable before it is initialised. *)
Definition sha256_uninit : secp256k1_sha256 :=
  {| s := repeat 0 8; buf := zero_bytes 64; bytes_written := 0 |}.

(** SHA-256 of a message, through the streaming interface. *)
Definition sha256 (msg : bytes) : bytes :=
  snd (secp256k1_sha256_finalize
         (secp256k1_sha256_write (secp256k1_sha256_initialize sha256_uninit) msg)).

(** The tagged hash as the specification words it:
    SHA256(SHA256(tag) || SHA256(tag) || message). *)
Definition tagged_hash_spec (tag : string) (msg : bytes) : bytes :=
  let th := sha256 (bytes_of_string tag) in
  sha256 (th ++ th ++ msg).

End SHA256.
Import SHA256.

(** ** The two midstates of keyagg_impl.h *)

(** [secp256k1_musig_keyagglist_sha256], lines 95-107. *)
Definition secp256k1_musig_keyagglist_sha256 (sha : secp256k1_sha256)
    : secp256k1_sha256 :=
  let sha := secp256k1_sha256_initialize sha in
  {| s := [0xb399d5e0; 0xc8fff302; 0x6badac71; 0x07c5b7f1;
           0x9701e2ef; 0x2a72ecf8; 0x201a4c7b; 0xab148a38];
     buf := buf sha;
     bytes_written := 64 |}.

(** [secp256k1_musig_keyaggcoef_sha256], lines 128-140. *)
Definition secp256k1_musig_keyaggcoef_sha256 (sha : secp256k1_sha256)
    : secp256k1_sha256 :=
  let sha := secp256k1_sha256_initialize sha in
  {| s := [0x6ef02c5a; 0x06a480de; 0x1f298665; 0x1d1134f2;
           0x56a0b063; 0x52da4147; 0xf280d9d4; 0x4484be15];
     buf := buf sha;
     bytes_written := 64 |}.

(** ** Assertions *)

(** The [VERIFY_CHECK]s that a run can violate, by the place of the check. *)
Inductive check : Type :=
  | VC_ge_to_storage     (* group_impl.h: ge_to_storage of an infinite point *)
  | VC_pubkey_save       (* secp256k1.c: pubkey_save of an infinite point *)
  | VC_even_y            (* extrakeys: ge_even_y of an infinite point *)
  | VC_point_save        (* keyagg_impl.h:26 *)
  | VC_callback_load     (* keyagg_impl.h:183 *)
  | VC_agg_infinity      (* keyagg_impl.h:231 *)
  | VC_tweak_infinity.   (* keyagg_impl.h:289 *)

Inductive res (A : Type) : Type :=
  | Ok (a : A)
  | Violated (c : check).
Arguments Ok {A} a.
Arguments Violated {A} c.

Definition rbind {A B : Type} (r : res A) (k : A -> res B) : res B :=
  match r with
  | Ok a => k a
  | Violated c => Violated c
  end.

Definition VERIFY_CHECK (c : check) (cond : bool) : res unit :=
  if cond then Ok tt else Violated c.

Declare Scope res_scope.
Delimit Scope res_scope with res.
Notation "x <- c1 ;; c2" := (rbind c1 (fun x => c2))
  (at level 61, c1 at next level, right associativity) : res_scope.
Notation "' pat <- c1 ;; c2" :=
  (rbind c1 (fun x => match x with pat => c2 end))
  (at level 61, pat pattern, c1 at next level, right associativity) : res_scope.
Notation "c1 ;; c2" := (rbind c1 (fun _ => c2))
  (at level 61, right associativity) : res_scope.
Local Open Scope res_scope.

(** ** Curve constants, field elements, scalars and group elements *)

(** [secp256k1_ge]: an affine point or the point at infinity. *)
Record secp256k1_ge : Type := mk_ge {
  x : Z;
  y : Z;
  infinity : bool
}.

(** The constants of the library that the module relies on: the field prime,
    the curve constant of y^2 = x^3 + b, the group order, the generator, and
    whether [sizeof(secp256k1_ge_storage) == 64] on the platform. *)
Record config : Type := mk_config {
  field_p : Z;
  curve_b : Z;
  order_n : Z;
  generator : secp256k1_ge;
  ge_storage_64 : bool
}.

Definition secp256k1 : config :=
  {| field_p := 0xFFFFFFFFFFFFFFFFFFFFFFFFFFFFFFFFFFFFFFFFFFFFFFFFFFFFFFFEFFFFFC2F;
     curve_b := 7;
     order_n := 0xFFFFFFFFFFFFFFFFFFFFFFFFFFFFFFFEBAAEDCE6AF48A03BBFD25E8CD0364141;
     generator :=
       {| x := 0x79BE667EF9DCBBAC55A06295CE870B07029BFCDB2DCE28D959F2815B16F81798;
          y := 0x483ADA7726A3C4655DA4FBFC0E1108A8FD17B448A68554199C47D08FFB10D4B8;
          infinity := false |};
     ge_storage_64 := true |}.

(** The same library built with a [secp256k1_ge_storage] that is not 64 bytes
    long, which selects the big-endian branch of the point codec. *)
Definition secp256k1_be : config :=
  {| field_p := field_p secp256k1;
     curve_b := curve_b secp256k1;
     order_n := order_n secp256k1;
     generator := generator secp256k1;
     ge_storage_64 := false |}.

Section Engine.

Variable cfg : config.

Let p := field_p cfg.
Let n := order_n cfg.

(** *** Field elements (field.h) *)

(** Modelled from the spec: the field operations of field_impl.h, which are
    not among the sources, on the integer value of a field element. *)
Definition secp256k1_fe_normalize_var (a : Z) : Z := a mod p.
Definition secp256k1_fe_set_int (a : Z) : Z := a.
Definition secp256k1_fe_set_b32 (b32 : bytes) : Z := be_decode (firstn 32 b32).
Definition secp256k1_fe_get_b32 (a : Z) : bytes := be_encode 32 a.
Definition secp256k1_fe_is_zero (a : Z) : bool := a =? 0.
Definition secp256k1_fe_is_odd (a : Z) : bool := Z.odd a.
Definition secp256k1_fe_negate (a : Z) : Z := (- a) mod p.
Definition secp256k1_fe_cmp_var (a b : Z) : Z :=
  match a ?= b with
  | Lt => -1
  | Eq => 0
  | Gt => 1
  end.
Definition secp256k1_fe_inv (a : Z) : Z := Z.invmod a p.

(** Modelled from the spec: [secp256k1_fe_storage] is the four 64-bit (or
    eight 32-bit) limbs of the value, least significant first; copied with
    [memcpy] on a little-endian host this is the 32-byte little-endian
    encoding. *)
Definition secp256k1_fe_to_storage (a : Z) : bytes := le_encode 32 a.
Definition secp256k1_fe_from_storage (b : bytes) : Z := le_decode (firstn 32 b).

(** *** Scalars (scalar.h) *)

(** Modelled from the spec: the scalar operations of scalar_impl.h, which are
    not among the sources. [secp256k1_scalar_set_b32] reads a big-endian
    number, reports whether it is at least the group order, and reduces it. *)
Definition secp256k1_scalar_set_b32 (b32 : bytes) : Z * bool :=
  let v := be_decode (firstn 32 b32) in (v mod n, n <=? v).
Definition secp256k1_scalar_get_b32 (a : Z) : bytes := be_encode 32 a.
Definition secp256k1_scalar_set_int (v : Z) : Z := v.
Definition secp256k1_scalar_negate (a : Z) : Z := (n - a) mod n.
Definition secp256k1_scalar_add (a b : Z) : Z := (a + b) mod n.

(** *** Group elements (group.h, ecmult.h) *)

Definition secp256k1_ge_is_infinity (a : secp256k1_ge) : bool := infinity a.
Definition secp256k1_ge_set_xy (ax ay : Z) : secp256k1_ge :=
  {| x := ax; y := ay; infinity := false |}.
Definition secp256k1_ge_set_infinity : secp256k1_ge :=
  {| x := 0; y := 0; infinity := true |}.

(** Modelled from the spec: [secp256k1_ge_to_storage] of group_impl.h asserts
    that the point is finite, normalises both coordinates and stores them. *)
Definition secp256k1_ge_to_storage (a : secp256k1_ge) : res bytes :=
  VERIFY_CHECK VC_ge_to_storage (negb (infinity a)) ;;
  Ok (secp256k1_fe_to_storage (secp256k1_fe_normalize_var (x a)) ++
      secp256k1_fe_to_storage (secp256k1_fe_normalize_var (y a))).

Definition secp256k1_ge_from_storage (st : bytes) : secp256k1_ge :=
  {| x := secp256k1_fe_from_storage (sub 0 32 st);
     y := secp256k1_fe_from_storage (sub 32 32 st);
     infinity := false |}.

(** Modelled from the spec: point arithmetic of the group engine (negate,
    add, scalar multiplication), on affine values. A Jacobian
    [secp256k1_gej] is represented by the affine point it stands for. *)
Definition secp256k1_ge_neg (a : secp256k1_ge) : secp256k1_ge :=
  {| x := x a; y := secp256k1_fe_negate (y a); infinity := infinity a |}.

Definition secp256k1_ge_add (a b : secp256k1_ge) : secp256k1_ge :=
  if infinity a then b
  else if infinity b then a
  else if x a mod p =? x b mod p then
    if (y a + y b) mod p =? 0 then secp256k1_ge_set_infinity
    else
      let l := (3 * x a * x a * secp256k1_fe_inv (2 * y a)) mod p in
      let rx := (l * l - 2 * x a) mod p in
      {| x := rx; y := (l * (x a - rx) - y a) mod p; infinity := false |}
  else
    let l := ((y b - y a) * secp256k1_fe_inv (x b - x a)) mod p in
    let rx := (l * l - x a - x b) mod p in
    {| x := rx; y := (l * (x a - rx) - y a) mod p; infinity := false |}.

Fixpoint ge_mul_pos (k : positive) (a : secp256k1_ge) : secp256k1_ge :=
  match k with
  | xH => a
  | xO k' => let r := ge_mul_pos k' a in secp256k1_ge_add r r
  | xI k' => let r := ge_mul_pos k' a in
             secp256k1_ge_add (secp256k1_ge_add r r) a
  end.

Definition ge_mul (k : Z) (a : secp256k1_ge) : secp256k1_ge :=
  match k with
  | Zpos k' => ge_mul_pos k' a
  | _ => secp256k1_ge_set_infinity
  end.

(** Modelled from the spec: [secp256k1_ecmult(r, a, na, ng)] computes
    na*a + ng*G. *)
Definition secp256k1_ecmult (a : secp256k1_ge) (na ng : Z) : secp256k1_ge :=
  secp256k1_ge_add (ge_mul na a) (ge_mul ng (generator cfg)).

Definition secp256k1_gej_add_var (a b : secp256k1_ge) : secp256k1_ge :=
  secp256k1_ge_add a b.
Definition secp256k1_gej_set_ge (a : secp256k1_ge) : secp256k1_ge := a.
Definition secp256k1_ge_set_gej (a : secp256k1_ge) : secp256k1_ge := a.

(** Modelled from the spec: [secp256k1_ecmult_multi_var] of ecmult_impl.h
    called without scratch space and without a generator scalar: starting
    from infinity, add scalar*point for the [count] indices from [idx] on,
    as the callback returns them; a callback that returns 0 ends the
    computation with 0. *)
Fixpoint ecmult_multi_loop (cb : nat -> res (Z * Z * secp256k1_ge))
    (count idx : nat) (r : secp256k1_ge) : res (Z * secp256k1_ge) :=
  match count with
  | O => Ok (1, r)
  | S count' =>
      '(ret, sc, pt) <- cb idx ;;
      if ret =? 0 then Ok (0, r)
      else
        let tmpj := secp256k1_ecmult (secp256k1_gej_set_ge pt) sc 0 in
        ecmult_multi_loop cb count' (S idx) (secp256k1_gej_add_var r tmpj)
  end.

Definition secp256k1_ecmult_multi_var (cb : nat -> res (Z * Z * secp256k1_ge))
    (n_points : nat) : res (Z * secp256k1_ge) :=
  ecmult_multi_loop cb n_points 0 secp256k1_ge_set_infinity.

(** Modelled from the spec: [secp256k1_eckey_pubkey_tweak_add] of
    eckey_impl.h: key + tweak*G, failing (with the key unchanged) when the
    sum is the point at infinity. *)
Definition secp256k1_eckey_pubkey_tweak_add (key : secp256k1_ge) (tweak : Z)
    : Z * secp256k1_ge :=
  let pt := secp256k1_ecmult (secp256k1_gej_set_ge key)
              (secp256k1_scalar_set_int 1) tweak in
  if secp256k1_ge_is_infinity pt then (0, key)
  else (1, secp256k1_ge_set_gej pt).

(** Modelled from the spec: [secp256k1_extrakeys_ge_even_y] of the extrakeys
    module: negate a point whose y is odd, and report whether it did. *)
Definition secp256k1_extrakeys_ge_even_y (r : secp256k1_ge)
    : res (secp256k1_ge * Z) :=
  VERIFY_CHECK VC_even_y (negb (secp256k1_ge_is_infinity r)) ;;
  if secp256k1_fe_is_odd (y r)
  then Ok ({| x := x r; y := secp256k1_fe_negate (y r);
              infinity := infinity r |}, 1)
  else Ok (r, 0).

(** *** Public-key objects (secp256k1.c, extrakeys) *)

(** Modelled from the spec: [secp256k1_pubkey_load] of secp256k1.c reads the
    64-byte object and rejects (ARG_CHECK) an x-coordinate of zero. *)
Definition secp256k1_pubkey_load (pubkey : bytes) : option secp256k1_ge :=
  let ge :=
    if ge_storage_64 cfg then secp256k1_ge_from_storage (sub 0 64 pubkey)
    else secp256k1_ge_set_xy (secp256k1_fe_set_b32 (sub 0 32 pubkey))
                             (secp256k1_fe_set_b32 (sub 32 32 pubkey)) in
  if secp256k1_fe_is_zero (x ge) then None else Some ge.

(** Modelled from the spec: [secp256k1_pubkey_save] of secp256k1.c. *)
Definition secp256k1_pubkey_save (ge : secp256k1_ge) : res bytes :=
  if ge_storage_64 cfg then secp256k1_ge_to_storage ge
  else
    VERIFY_CHECK VC_pubkey_save (negb (secp256k1_ge_is_infinity ge)) ;;
    Ok (secp256k1_fe_get_b32 (secp256k1_fe_normalize_var (x ge)) ++
        secp256k1_fe_get_b32 (secp256k1_fe_normalize_var (y ge))).

Definition secp256k1_xonly_pubkey_load (pubkey : bytes) : option secp256k1_ge :=
  secp256k1_pubkey_load pubkey.
Definition secp256k1_xonly_pubkey_save (ge : secp256k1_ge) : res bytes :=
  secp256k1_pubkey_save ge.

(** Modelled from the spec: [secp256k1_xonly_pubkey_serialize] of the
    extrakeys module: the 32-byte x-coordinate of a key that loads. *)
Definition secp256k1_xonly_pubkey_serialize (pubkey : bytes) : option bytes :=
  match secp256k1_xonly_pubkey_load pubkey with
  | None => None
  | Some pk => Some (secp256k1_fe_get_b32 (x pk))
  end.

(** ** keyagg_impl.h *)

(** [secp256k1_point_save], lines 20-32. The second component is the point
    as the call leaves it: the big-endian branch normalises it in place. *)
Definition secp256k1_point_save (ge : secp256k1_ge)
    : res (bytes * secp256k1_ge) :=
  if ge_storage_64 cfg then
    st <- secp256k1_ge_to_storage ge ;;
    Ok (st, ge)
  else
    VERIFY_CHECK VC_point_save (negb (secp256k1_ge_is_infinity ge)) ;;
    let ge := {| x := secp256k1_fe_normalize_var (x ge); y := y ge;
                 infinity := infinity ge |} in
    let ge := {| x := x ge; y := secp256k1_fe_normalize_var (y ge);
                 infinity := infinity ge |} in
    Ok (secp256k1_fe_get_b32 (x ge) ++ secp256k1_fe_get_b32 (y ge), ge).

(** [secp256k1_point_load], lines 34-48. *)
Definition secp256k1_point_load (data : bytes) : secp256k1_ge :=
  if ge_storage_64 cfg then
    secp256k1_ge_from_storage (sub 0 64 data)
  else
    let fx := secp256k1_fe_set_b32 (sub 0 32 data) in
    let fy := secp256k1_fe_set_b32 (sub 32 32 data) in
    secp256k1_ge_set_xy fx fy.

(** Line 50. *)
Definition secp256k1_musig_keyagg_cache_magic : bytes := [xf4; xad; xbb; xdf].

(** [secp256k1_keyagg_cache_internal] (keyagg.h). *)
Record secp256k1_keyagg_cache_internal : Type := mk_cache_i {
  pk : secp256k1_ge;
  second_pk_x : Z;
  pk_hash : bytes;
  internal_key_parity : Z;
  tweak : Z
}.

Definition set_pk (c : secp256k1_keyagg_cache_internal) (v : secp256k1_ge) :=
  {| pk := v; second_pk_x := second_pk_x c; pk_hash := pk_hash c;
     internal_key_parity := internal_key_parity c; tweak := tweak c |}.
Definition set_internal_key_parity (c : secp256k1_keyagg_cache_internal) (v : Z) :=
  {| pk := pk c; second_pk_x := second_pk_x c; pk_hash := pk_hash c;
     internal_key_parity := v; tweak := tweak c |}.
Definition set_tweak (c : secp256k1_keyagg_cache_internal) (v : Z) :=
  {| pk := pk c; second_pk_x := second_pk_x c; pk_hash := pk_hash c;
     internal_key_parity := internal_key_parity c; tweak := v |}.

(** [secp256k1_keyagg_cache_save], lines 62-75: the 165 bytes written to
    [cache->data], and [cache_i] as the call leaves it. *)
Definition secp256k1_keyagg_cache_save (cache_i : secp256k1_keyagg_cache_internal)
    : res (bytes * secp256k1_keyagg_cache_internal) :=
  '(pt, ge) <- secp256k1_point_save (pk cache_i) ;;
  let cache_i := set_pk cache_i ge in
  Ok (secp256k1_musig_keyagg_cache_magic ++
      pt ++
      secp256k1_fe_get_b32 (second_pk_x cache_i) ++
      firstn 32 (pk_hash cache_i) ++
      [byte_of_Z (internal_key_parity cache_i)] ++
      secp256k1_scalar_get_b32 (tweak cache_i),
      cache_i).

(** [secp256k1_keyagg_cache_load], lines 77-91; [None] is the failed
    ARG_CHECK on the magic bytes, on which the function returns 0. *)
Definition secp256k1_keyagg_cache_load (cache : bytes)
    : option secp256k1_keyagg_cache_internal :=
  if negb (bytes_eqb (sub 0 4 cache) secp256k1_musig_keyagg_cache_magic)
  then None
  else
    Some {| pk := secp256k1_point_load (sub 4 64 cache);
            second_pk_x := secp256k1_fe_set_b32 (sub 68 32 cache);
            pk_hash := sub 100 32 cache;
            internal_key_parity := Z.land (byte_to_Z (nth 132 cache x00)) 1;
            tweak := fst (secp256k1_scalar_set_b32 (sub 133 32 cache)) |}.

(** [secp256k1_musig_compute_pk_hash], lines 110-124. *)
Definition secp256k1_musig_compute_pk_hash (pks : list bytes) : option bytes :=
  let sha := secp256k1_musig_keyagglist_sha256 sha256_uninit in
  let fix loop (sha : secp256k1_sha256) (l : list bytes) : option secp256k1_sha256 :=
    match l with
    | [] => Some sha
    | pki :: l' =>
        match secp256k1_xonly_pubkey_serialize pki with
        | None => None
        | Some ser => loop (secp256k1_sha256_write sha (firstn 32 ser)) l'
        end
    end in
  match loop sha pks with
  | None => None
  | Some sha => Some (snd (secp256k1_sha256_finalize sha))
  end.

(** [secp256k1_musig_keyaggcoef_internal], lines 146-161. *)
Definition secp256k1_musig_keyaggcoef_internal (pk_hash : bytes)
    (fx second_pk_x : Z) : Z :=
  if secp256k1_fe_cmp_var fx second_pk_x =? 0 then
    secp256k1_scalar_set_int 1
  else
    let sha := secp256k1_musig_keyaggcoef_sha256 sha256_uninit in
    let sha := secp256k1_sha256_write sha (firstn 32 pk_hash) in
    let buf := secp256k1_fe_get_b32 fx in
    let sha := secp256k1_sha256_write sha (firstn 32 buf) in
    let buf := snd (secp256k1_sha256_finalize sha) in
    fst (secp256k1_scalar_set_b32 buf).

(** [secp256k1_musig_keyaggcoef], lines 164-166. *)
Definition secp256k1_musig_keyaggcoef
    (cache_i : secp256k1_keyagg_cache_internal) (fx : Z) : Z :=
  secp256k1_musig_keyaggcoef_internal (pk_hash cache_i) fx (second_pk_x cache_i).

(** [secp256k1_musig_pubkey_agg_ecmult_data], lines 168-174. *)
Record secp256k1_musig_pubkey_agg_ecmult_data : Type := mk_ecmult_data {
  ed_pk_hash : bytes;
  ed_pks : list bytes;
  ed_second_pk_x : Z
}.

(** [secp256k1_musig_pubkey_agg_callback], lines 177-186. *)
Definition secp256k1_musig_pubkey_agg_callback
    (ctx : secp256k1_musig_pubkey_agg_ecmult_data) (idx : nat)
    : res (Z * Z * secp256k1_ge) :=
  match secp256k1_xonly_pubkey_load (nth idx (ed_pks ctx) []) with
  | None => Violated VC_callback_load
  | Some pt =>
      let sc := secp256k1_musig_keyaggcoef_internal
                  (ed_pk_hash ctx) (x pt) (ed_second_pk_x ctx) in
      Ok (1, sc, pt)
  end.

(** The loop of lines 206-215 over [pubkeys[1..]]: the x-coordinate of the
    first key whose 64 bytes differ from those of [pubkeys[0]]; zero when
    there is none; [None] when that key does not load (the function then
    returns 0). *)
Fixpoint find_second_pk_x (pk0 : bytes) (rest : list bytes) : option Z :=
  match rest with
  | [] => Some (secp256k1_fe_set_int 0)
  | pki :: rest' =>
      if negb (bytes_eqb (firstn 64 pk0) (firstn 64 pki)) then
        match secp256k1_xonly_pubkey_load pki with
        | None => None
        | Some pt => Some (x pt)
        end
      else find_second_pk_x pk0 rest'
  end.

(** *** The objects behind the pointer arguments *)

(** [m_pubkey] is the public-key object of the out-parameter ([agg_pk] or
    [output_pubkey]) and [m_cache] the [secp256k1_musig_keyagg_cache];
    [None] is a NULL pointer. *)
Record mem : Type := mk_mem {
  m_pubkey : option bytes;
  m_cache : option bytes
}.

Definition M (A : Type) : Type := mem -> mem * res A.

Definition ret {A : Type} (a : A) : M A := fun m => (m, Ok a).

Definition bind {A B : Type} (c : M A) (k : A -> M B) : M B :=
  fun m =>
    match c m with
    | (m', Ok a) => k a m'
    | (m', Violated ck) => (m', Violated ck)
    end.

Definition lift {A : Type} (r : res A) : M A := fun m => (m, r).

Definition get_pubkey : M (option bytes) := fun m => (m, Ok (m_pubkey m)).
Definition get_cache : M (option bytes) := fun m => (m, Ok (m_cache m)).

(** A store through a pointer; nothing is stored through NULL. *)
Definition put_pubkey (data : bytes) : M unit :=
  fun m =>
    match m_pubkey m with
    | None => (m, Ok tt)
    | Some _ => ({| m_pubkey := Some data; m_cache := m_cache m |}, Ok tt)
    end.

Definition put_cache (data : bytes) : M unit :=
  fun m =>
    match m_cache m with
    | None => (m, Ok tt)
    | Some _ => ({| m_pubkey := m_pubkey m; m_cache := Some data |}, Ok tt)
    end.

Declare Scope M_scope.
Delimit Scope M_scope with M.
Notation "x <- c1 ;; c2" := (bind c1 (fun x => c2))
  (at level 61, c1 at next level, right associativity) : M_scope.
Notation "' pat <- c1 ;; c2" :=
  (bind c1 (fun x => match x with pat => c2 end))
  (at level 61, pat pattern, c1 at next level, right associativity) : M_scope.
Notation "c1 ;; c2" := (bind c1 (fun _ => c2))
  (at level 61, right associativity) : M_scope.
Local Open Scope M_scope.

(** [if (p != NULL) memset(p, 0, sizeof( *p))] on the 64-byte public key. *)
Definition memset_pubkey_if_not_null : M unit :=
  out <- get_pubkey ;;
  match out with
  | None => ret tt
  | Some _ => put_pubkey (zero_bytes 64)
  end.

(** [secp256k1_musig_pubkey_agg], lines 188-245. [pubkeys] is the array of
    [n_pubkeys] keys, [None] when the pointer is NULL; [agg_pk] and
    [keyagg_cache] are [m_pubkey] and [m_cache]. *)
Definition secp256k1_musig_pubkey_agg (pubkeys : option (list bytes)) : M Z :=
  memset_pubkey_if_not_null ;;
  match pubkeys with
  | None => ret 0
  | Some pks =>
  match pks with
  | [] => ret 0
  | pk0 :: rest =>
  match find_second_pk_x pk0 rest with
  | None => ret 0
  | Some second =>
  match secp256k1_musig_compute_pk_hash pks with
  | None => ret 0
  | Some hash =>
      let ecmult_data :=
        {| ed_pk_hash := hash; ed_pks := pks; ed_second_pk_x := second |} in
      '(ok, pkj) <- lift (secp256k1_ecmult_multi_var
                            (secp256k1_musig_pubkey_agg_callback ecmult_data)
                            (length pks)) ;;
      if ok =? 0 then ret 0
      else
        let pkp := secp256k1_ge_set_gej pkj in
        let pkp := {| x := x pkp; y := secp256k1_fe_normalize_var (y pkp);
                      infinity := infinity pkp |} in
        lift (VERIFY_CHECK VC_agg_infinity (negb (secp256k1_ge_is_infinity pkp))) ;;
        keyagg_cache <- get_cache ;;
        match keyagg_cache with
        | None => ret tt
        | Some _ =>
            let cache_i :=
              {| pk := pkp; second_pk_x := ed_second_pk_x ecmult_data;
                 pk_hash := ed_pk_hash ecmult_data;
                 internal_key_parity := 0; tweak := 0 |} in
            '(data, _) <- lift (secp256k1_keyagg_cache_save cache_i) ;;
            put_cache data
        end ;;
        '(pkp, _) <- lift (secp256k1_extrakeys_ge_even_y pkp) ;;
        agg_pk <- get_pubkey ;;
        match agg_pk with
        | None => ret tt
        | Some _ =>
            data <- lift (secp256k1_xonly_pubkey_save pkp) ;;
            put_pubkey data
        end ;;
        ret 1
  end end end end.

(** [secp256k1_musig_pubkey_get], lines 247-259. *)
Definition secp256k1_musig_pubkey_get : M Z :=
  agg_pk <- get_pubkey ;;
  match agg_pk with
  | None => ret 0
  | Some _ =>
      put_pubkey (zero_bytes 64) ;;
      keyagg_cache <- get_cache ;;
      match keyagg_cache with
      | None => ret 0
      | Some cache =>
          match secp256k1_keyagg_cache_load cache with
          | None => ret 0
          | Some cache_i =>
              data <- lift (secp256k1_pubkey_save (pk cache_i)) ;;
              put_pubkey data ;;
              ret 1
          end
      end
  end.

(** [secp256k1_musig_pubkey_tweak_add], lines 261-295. *)
Definition secp256k1_musig_pubkey_tweak_add (tweak32 : option bytes) : M Z :=
  memset_pubkey_if_not_null ;;
  keyagg_cache <- get_cache ;;
  match keyagg_cache with
  | None => ret 0
  | Some cache =>
  match tweak32 with
  | None => ret 0
  | Some tw =>
  match secp256k1_keyagg_cache_load cache with
  | None => ret 0
  | Some cache_i =>
      let '(t, overflow) := secp256k1_scalar_set_b32 tw in
      if overflow then ret 0
      else
        '(pk1, odd) <- lift (secp256k1_extrakeys_ge_even_y (pk cache_i)) ;;
        let cache_i := set_pk cache_i pk1 in
        let cache_i :=
          if odd =? 0 then cache_i
          else
            let cache_i :=
              set_internal_key_parity cache_i
                (Z.lxor (internal_key_parity cache_i) 1) in
            set_tweak cache_i (secp256k1_scalar_negate (tweak cache_i)) in
        let cache_i :=
          set_tweak cache_i (secp256k1_scalar_add (tweak cache_i) t) in
        let '(ok, pk2) := secp256k1_eckey_pubkey_tweak_add (pk cache_i) t in
        let cache_i := set_pk cache_i pk2 in
        if ok =? 0 then ret 0
        else
          lift (VERIFY_CHECK VC_tweak_infinity
                  (negb (secp256k1_ge_is_infinity (pk cache_i)))) ;;
          '(data, cache_i) <- lift (secp256k1_keyagg_cache_save cache_i) ;;
          put_cache data ;;
          output_pubkey <- get_pubkey ;;
          match output_pubkey with
          | None => ret tt
          | Some _ =>
              data <- lift (secp256k1_pubkey_save (pk cache_i)) ;;
              put_pubkey data
          end ;;
          ret 1
  end end end.

End Engine.

(** * Properties *)

Local Open Scope Z_scope.

(** ** Bytes *)

Lemma byte_to_Z_range (b : byte) : 0 <= byte_to_Z b < 256.
Proof.
  unfold byte_to_Z. pose proof (Byte.to_N_bounded b). lia.
Qed.

Lemma byte_of_to_Z (b : byte) : byte_of_Z (byte_to_Z b) = b.
Proof.
  unfold byte_of_Z. rewrite Z.mod_small by apply byte_to_Z_range.
  unfold byte_to_Z. rewrite N2Z.id, Byte.of_to_N. reflexivity.
Qed.

Lemma byte_to_of_Z (z : Z) : byte_to_Z (byte_of_Z z) = z mod 256.
Proof.
  unfold byte_of_Z, byte_to_Z.
  assert (Hr : 0 <= z mod 256 < 256) by (apply Z.mod_pos_bound; lia).
  destruct (Byte.of_N (Z.to_N (z mod 256))) as [b|] eqn:E.
  - apply Byte.to_of_N in E. rewrite E. lia.
  - apply Byte.of_N_None_iff in E. lia.
Qed.

Lemma length_le_encode (k : nat) (z : Z) : length (le_encode k z) = k.
Proof.
  revert z; induction k as [|k IH]; intros z; simpl; [reflexivity|].
  now rewrite IH.
Qed.

Lemma length_be_encode (k : nat) (z : Z) : length (be_encode k z) = k.
Proof.
  unfold be_encode. now rewrite length_rev, length_le_encode.
Qed.

Lemma le_decode_range (bs : bytes) :
  0 <= le_decode bs < 256 ^ Z.of_nat (length bs).
Proof.
  induction bs as [|b r IH].
  - simpl. lia.
  - cbn [le_decode length]. rewrite Nat2Z.inj_succ, Z.pow_succ_r by lia.
    pose proof (byte_to_Z_range b). lia.
Qed.

Lemma le_encode_decode (bs : bytes) : le_encode (length bs) (le_decode bs) = bs.
Proof.
  induction bs as [|b r IH]; [reflexivity|].
  cbn [le_decode length le_encode].
  pose proof (byte_to_Z_range b) as Hb.
  f_equal.
  - rewrite <- (byte_of_to_Z b) at 2. unfold byte_of_Z.
    replace ((byte_to_Z b + 256 * le_decode r) mod 256) with (byte_to_Z b mod 256);
      [reflexivity|].
    Z.div_mod_to_equations. lia.
  - replace ((byte_to_Z b + 256 * le_decode r) / 256) with (le_decode r); [exact IH|].
    Z.div_mod_to_equations. lia.
Qed.

Lemma le_decode_encode (k : nat) (z : Z) :
  le_decode (le_encode k z) = z mod 256 ^ Z.of_nat k.
Proof.
  revert z; induction k as [|k IH]; intros z.
  - simpl. now rewrite Z.mod_1_r.
  - cbn [le_encode le_decode]. rewrite IH, byte_to_of_Z.
    rewrite Nat2Z.inj_succ, Z.pow_succ_r by lia.
    rewrite Z.rem_mul_r by lia. reflexivity.
Qed.

Lemma be_encode_decode (bs : bytes) : be_encode (length bs) (be_decode bs) = bs.
Proof.
  unfold be_encode, be_decode.
  rewrite <- (length_rev bs), le_encode_decode. apply rev_involutive.
Qed.

Lemma be_decode_encode (k : nat) (z : Z) :
  be_decode (be_encode k z) = z mod 256 ^ Z.of_nat k.
Proof.
  unfold be_encode, be_decode. rewrite rev_involutive. apply le_decode_encode.
Qed.

Lemma be_decode_range (bs : bytes) :
  0 <= be_decode bs < 256 ^ Z.of_nat (length bs).
Proof.
  unfold be_decode. rewrite <- (length_rev bs). apply le_decode_range.
Qed.

Lemma bytes_eqb_eq (a b : bytes) : bytes_eqb a b = true <-> a = b.
Proof.
  revert b; induction a as [|c a IH]; intros [|d b]; simpl;
    try (split; [discriminate|discriminate]); try tauto.
  rewrite andb_true_iff, IH. split.
  - intros [H1 H2]. apply Byte.byte_dec_bl in H1. congruence.
  - intros H; inversion H; subst. split; [apply Byte.byte_dec_lb|]; reflexivity.
Qed.

Lemma bytes_eqb_refl (a : bytes) : bytes_eqb a a = true.
Proof. now apply bytes_eqb_eq. Qed.

Lemma length_sub (off len : nat) (data : bytes) :
  (off + len <= length data)%nat -> length (sub off len data) = len.
Proof.
  intros H. unfold sub. rewrite length_firstn, length_skipn. lia.
Qed.

(** ** SHA-256: the streaming interface hashes the concatenation *)

Module SHA256Facts.

(** Reference semantics of the block loop on the logical input stream (the
    pending bytes of the buffer followed by the new data): compress full
    blocks, keep the rest. *)
Fixpoint absorb (fuel : nat) (st : list Z) (l : bytes) : list Z * bytes :=
  match fuel with
  | O => (st, l)
  | S f =>
      if (64 <=? length l)%nat
      then absorb f (secp256k1_sha256_transform st (firstn 64 l)) (skipn 64 l)
      else (st, l)
  end.

(** The bytes of the buffer that belong to the current block. *)
Definition pending (h : secp256k1_sha256) : bytes :=
  firstn (Z.to_nat (bytes_written h mod 64)) (buf h).

(** Two states that the hash functions cannot tell apart. *)
Definition sha_equiv (h1 h2 : secp256k1_sha256) : Prop :=
  s h1 = s h2 /\ bytes_written h1 = bytes_written h2 /\ pending h1 = pending h2.

Lemma absorb_fuel (f1 f2 : nat) (st : list Z) (l : bytes) :
  (length l < 64 * f1)%nat -> (length l < 64 * f2)%nat ->
  absorb f1 st l = absorb f2 st l.
Proof.
  revert f2 st l; induction f1 as [|f1 IH]; intros f2 st l H1 H2; [lia|].
  destruct f2 as [|f2]; [lia|].
  cbn [absorb]. destruct (Nat.leb_spec 64 (length l)); [|reflexivity].
  apply IH; rewrite length_skipn; lia.
Qed.

Lemma absorb_rem_length (f : nat) (st : list Z) (l : bytes) :
  (length l < 64 * f)%nat ->
  length (snd (absorb f st l)) = (length l mod 64)%nat.
Proof.
  revert st l; induction f as [|f IH]; intros st l H; [lia|].
  cbn [absorb]. destruct (Nat.leb_spec 64 (length l)).
  - rewrite IH by (rewrite length_skipn; lia).
    rewrite length_skipn.
    rewrite <- (Nat.Div0.mod_add (length l - 64) 1 64). f_equal. lia.
  - cbn [snd]. now rewrite Nat.mod_small.
Qed.

Lemma absorb_app (f : nat) (st : list Z) (l1 l2 : bytes) :
  (length l1 + length l2 < 64 * f)%nat ->
  absorb f st (l1 ++ l2) =
  absorb f (fst (absorb f st l1)) (snd (absorb f st l1) ++ l2).
Proof.
  revert st l1; induction f as [|f IH]; intros st l1 H; [lia|].
  cbn [absorb]. destruct (Nat.leb_spec 64 (length l1)) as [Hl|Hl].
  - rewrite length_app.
    destruct (Nat.leb_spec 64 (length l1 + length l2)); [|lia].
    rewrite firstn_app, skipn_app.
    replace (64 - length l1)%nat with 0%nat by lia.
    rewrite firstn_0, skipn_0, app_nil_r.
    rewrite IH by (rewrite length_skipn; lia).
    set (a := absorb f _ (skipn 64 l1)).
    assert (Hr : length (snd a) = ((length l1 - 64) mod 64)%nat).
    { subst a. rewrite absorb_rem_length by (rewrite length_skipn; lia).
      now rewrite length_skipn. }
    pose proof (Nat.Div0.mod_le (length l1 - 64) 64).
    change (absorb f (fst a) (snd a ++ l2) = absorb (S f) (fst a) (snd a ++ l2)).
    apply absorb_fuel; rewrite length_app; lia.
  - cbn [fst snd]. cbn [absorb]. reflexivity.
Qed.

Lemma write_loop_absorb (fuel : nat) (st : list Z) (bf : bytes) (bufsize : nat)
    (data : bytes) :
  length bf = 64%nat -> (bufsize < 64)%nat -> (length data < fuel)%nat ->
  let r := write_loop fuel st bf bufsize data in
  let a := absorb fuel st (firstn bufsize bf ++ data) in
  fst r = fst a /\ length (snd r) = 64%nat /\
  firstn (length (snd a)) (snd r) = snd a.
Proof.
  revert st bf bufsize data; induction fuel as [|fuel IH];
    intros st bf bufsize data Hbf Hsz Hfuel; [lia|].
  cbn zeta. cbn [write_loop absorb].
  assert (Hpre : length (firstn bufsize bf) = bufsize)
    by (rewrite length_firstn; lia).
  rewrite length_app, Hpre.
  destruct (Nat.leb_spec (64 - bufsize) (length data)) as [Hc|Hc].
  - destruct (Nat.leb_spec 64 (bufsize + length data)); [|lia].
    assert (Hchunk : length (firstn (64 - bufsize) data) = (64 - bufsize)%nat)
      by (rewrite length_firstn; lia).
    assert (Hblock : memcpy_at bf bufsize (firstn (64 - bufsize) data) =
                     firstn 64 (firstn bufsize bf ++ data)).
    { unfold memcpy_at. rewrite Hchunk.
      rewrite (skipn_all2 bf) by lia. rewrite app_nil_r.
      rewrite firstn_app, Hpre.
      rewrite (firstn_all2 (firstn bufsize bf)) by lia. reflexivity. }
    rewrite Hblock.
    assert (Hrest : skipn 64 (firstn bufsize bf ++ data) =
                    skipn (64 - bufsize) data).
    { rewrite skipn_app, Hpre. rewrite (skipn_all2 (firstn bufsize bf)) by lia.
      reflexivity. }
    rewrite Hrest.
    set (blk := firstn 64 (firstn bufsize bf ++ data)).
    assert (Hblk : length blk = 64%nat).
    { subst blk. rewrite length_firstn, length_app, Hpre. lia. }
    specialize (IH (secp256k1_sha256_transform st blk) blk 0%nat
                   (skipn (64 - bufsize) data) Hblk ltac:(lia)).
    cbn zeta in IH. cbn [firstn app] in IH.
    apply IH. rewrite length_skipn. lia.
  - destruct (Nat.leb_spec 64 (bufsize + length data)); [lia|].
    cbn [fst snd]. split; [reflexivity|].
    rewrite length_app, Hpre.
    destruct data as [|d data'].
    + cbn [length]. rewrite app_nil_r, Nat.add_0_r. split; [exact Hbf|reflexivity].
    + set (dat := d :: data') in *.
      unfold memcpy_at. split.
      * rewrite !length_app, Hpre, length_skipn. lia.
      * rewrite app_assoc, firstn_app.
        rewrite length_app, Hpre.
        replace (bufsize + length dat - (bufsize + length dat))%nat with 0%nat by lia.
        cbn [firstn]. rewrite app_nil_r.
        apply firstn_all2. rewrite length_app, Hpre. lia.
Qed.

Lemma land_0x3F (z : Z) : Z.land z 0x3F = z mod 64.
Proof. change 0x3F with (Z.ones 6). now rewrite Z.land_ones by lia. Qed.

Lemma write_spec (h : secp256k1_sha256) (data : bytes) :
  length (buf h) = 64%nat ->
  let h' := secp256k1_sha256_write h data in
  length (buf h') = 64%nat /\
  bytes_written h' = (bytes_written h + Z.of_nat (length data)) mod 2 ^ 64 /\
  (s h', pending h') = absorb (S (length data)) (s h) (pending h ++ data).
Proof.
  intros Hbf. cbn zeta. unfold secp256k1_sha256_write.
  rewrite land_0x3F.
  assert (Hm : 0 <= bytes_written h mod 64 < 64) by (apply Z.mod_pos_bound; lia).
  pose proof (write_loop_absorb (S (length data)) (s h) (buf h)
                (Z.to_nat (bytes_written h mod 64)) data Hbf ltac:(lia) ltac:(lia))
    as Hw.
  cbn zeta in Hw.
  destruct (write_loop (S (length data)) (s h) (buf h)
              (Z.to_nat (bytes_written h mod 64)) data) as [st bf] eqn:Ew.
  cbn [fst snd] in Hw. destruct Hw as (Hs & Hl & Hp).
  cbn [buf bytes_written s]. split; [exact Hl|]. split; [reflexivity|].
  unfold pending at 1. cbn [buf bytes_written].
  fold (pending h) in *.
  set (a := absorb (S (length data)) (s h) (pending h ++ data)) in *.
  assert (Hlen : length (snd a) =
                 Z.to_nat (((bytes_written h + Z.of_nat (length data)) mod 2 ^ 64) mod 64)).
  { subst a. rewrite absorb_rem_length.
    2:{ rewrite length_app. unfold pending. rewrite length_firstn. lia. }
    rewrite length_app. unfold pending. rewrite length_firstn, Hbf.
    rewrite Nat.min_l by lia.
    rewrite Z.mod_mod_divide by (exists (2 ^ 58); reflexivity).
    apply Nat2Z.inj. rewrite Nat2Z.inj_mod, Nat2Z.inj_add, !Z2Nat.id; try lia.
    2:{ apply Z.mod_pos_bound. lia. }
    change (Z.of_nat 64) with 64.
    now rewrite Zplus_mod_idemp_l. }
  rewrite <- Hlen, Hp, Hs. now destruct a.
Qed.

Lemma write_equiv (h1 h2 : secp256k1_sha256) (data : bytes) :
  length (buf h1) = 64%nat -> length (buf h2) = 64%nat ->
  sha_equiv h1 h2 ->
  sha_equiv (secp256k1_sha256_write h1 data) (secp256k1_sha256_write h2 data).
Proof.
  intros W1 W2 (Hs & Hb & Hp).
  destruct (write_spec h1 data W1) as (_ & B1 & A1).
  destruct (write_spec h2 data W2) as (_ & B2 & A2).
  rewrite Hs, Hp in A1. rewrite <- A2 in A1. inversion A1.
  unfold sha_equiv. repeat split; congruence.
Qed.

Lemma write_app (h : secp256k1_sha256) (d1 d2 : bytes) :
  length (buf h) = 64%nat ->
  sha_equiv (secp256k1_sha256_write (secp256k1_sha256_write h d1) d2)
            (secp256k1_sha256_write h (d1 ++ d2)).
Proof.
  intros W.
  destruct (write_spec h d1 W) as (W1 & B1 & A1).
  destruct (write_spec _ d2 W1) as (_ & B2 & A2).
  destruct (write_spec h (d1 ++ d2) W) as (_ & B3 & A3).
  assert (Hpl : (length (pending h) < 64)%nat).
  { unfold pending. rewrite length_firstn.
    pose proof (Z.mod_pos_bound (bytes_written h) 64). lia. }
  assert (HA : absorb (S (length (d1 ++ d2))) (s h) (pending h ++ d1 ++ d2) =
               absorb (S (length d2)) (s (secp256k1_sha256_write h d1))
                      (pending (secp256k1_sha256_write h d1) ++ d2)).
  { rewrite app_assoc, absorb_app.
    2:{ rewrite !length_app. lia. }
    rewrite (absorb_fuel (S (length (d1 ++ d2))) (S (length d1)) (s h)
               (pending h ++ d1)).
    2,3: rewrite !length_app; lia.
    rewrite <- A1. cbn [fst snd].
    assert (Hrl : (length (pending (secp256k1_sha256_write h d1)) < 64)%nat).
    { unfold pending. rewrite length_firstn.
      pose proof (Z.mod_pos_bound (bytes_written (secp256k1_sha256_write h d1)) 64).
      lia. }
    apply absorb_fuel; rewrite !length_app; lia. }
  rewrite HA, <- A2 in A3. inversion A3.
  unfold sha_equiv. repeat split; try congruence.
  rewrite B2, B1, B3, length_app, Nat2Z.inj_add.
  rewrite Zplus_mod_idemp_l. f_equal. lia.
Qed.

Lemma finalize_equiv (h1 h2 : secp256k1_sha256) :
  length (buf h1) = 64%nat -> length (buf h2) = 64%nat ->
  sha_equiv h1 h2 ->
  snd (secp256k1_sha256_finalize h1) = snd (secp256k1_sha256_finalize h2).
Proof.
  intros W1 W2 E. pose proof E as (Hs & Hb & Hp).
  unfold secp256k1_sha256_finalize. cbn [snd]. rewrite Hb.
  set (pad := firstn _ _). set (sd := _ ++ _).
  pose proof (write_equiv h1 h2 pad W1 W2 E) as E1.
  destruct (write_spec h1 pad W1) as (W1' & _).
  destruct (write_spec h2 pad W2) as (W2' & _).
  pose proof (write_equiv _ _ sd W1' W2' E1) as (Hs2 & _).
  now rewrite Hs2.
Qed.

Lemma write_wf (h : secp256k1_sha256) (data : bytes) :
  length (buf h) = 64%nat -> length (buf (secp256k1_sha256_write h data)) = 64%nat.
Proof. intros W. apply (write_spec h data W). Qed.

(** Writing a list of chunks one after the other. *)
Definition write_all (h : secp256k1_sha256) (chunks : list bytes) : secp256k1_sha256 :=
  fold_left secp256k1_sha256_write chunks h.

Lemma write_all_wf (chunks : list bytes) (h : secp256k1_sha256) :
  length (buf h) = 64%nat -> length (buf (write_all h chunks)) = 64%nat.
Proof.
  revert h; induction chunks as [|c l IH]; intros h W; [exact W|].
  apply IH, write_wf, W.
Qed.

Lemma write_all_equiv (chunks : list bytes) (h1 h2 : secp256k1_sha256) :
  length (buf h1) = 64%nat -> length (buf h2) = 64%nat ->
  sha_equiv h1 h2 -> sha_equiv (write_all h1 chunks) (write_all h2 chunks).
Proof.
  revert h1 h2; induction chunks as [|c l IH]; intros h1 h2 W1 W2 E; [exact E|].
  cbn. apply IH; [now apply write_wf..|now apply write_equiv].
Qed.

Lemma sha_equiv_trans (h1 h2 h3 : secp256k1_sha256) :
  sha_equiv h1 h2 -> sha_equiv h2 h3 -> sha_equiv h1 h3.
Proof. unfold sha_equiv. intuition congruence. Qed.

Lemma sha_equiv_sym (h1 h2 : secp256k1_sha256) :
  sha_equiv h1 h2 -> sha_equiv h2 h1.
Proof. unfold sha_equiv. intuition congruence. Qed.

Lemma write_all_app (chunks : list bytes) (h : secp256k1_sha256) (c : bytes) :
  length (buf h) = 64%nat ->
  sha_equiv (write_all (secp256k1_sha256_write h c) chunks)
            (secp256k1_sha256_write h (c ++ concat chunks)).
Proof.
  revert h c; induction chunks as [|c' l IH]; intros h c W.
  - cbn. rewrite app_nil_r. unfold sha_equiv. auto.
  - cbn [write_all fold_left concat].
    apply sha_equiv_trans with (write_all (secp256k1_sha256_write h (c ++ c')) l).
    + apply write_all_equiv; [now apply write_wf, write_wf|now apply write_wf|].
      now apply write_app.
    + rewrite app_assoc. now apply IH.
Qed.

(** A state that stands for "the prefix [T] has been hashed" hashes any
    chunks written to it to the SHA-256 of [T] followed by the chunks. *)
Lemma midstate_hash (h0 : secp256k1_sha256) (T : bytes) (chunks : list bytes) :
  length (buf h0) = 64%nat ->
  sha_equiv h0 (secp256k1_sha256_write
                  (secp256k1_sha256_initialize sha256_uninit) T) ->
  snd (secp256k1_sha256_finalize (write_all h0 chunks)) =
  sha256 (T ++ concat chunks).
Proof.
  intros W E. unfold sha256.
  set (i := secp256k1_sha256_initialize sha256_uninit) in *.
  assert (Wi : length (buf i) = 64%nat) by reflexivity.
  apply finalize_equiv; [now apply write_all_wf|now apply write_wf|].
  apply sha_equiv_trans with (write_all (secp256k1_sha256_write i T) chunks).
  - apply write_all_equiv; [exact W|now apply write_wf|exact E].
  - now apply write_all_app.
Qed.

Lemma keyagglist_midstate (sha0 : secp256k1_sha256) :
  let th := sha256 (bytes_of_string "KeyAgg list"%string) in
  sha_equiv (secp256k1_musig_keyagglist_sha256 sha0)
            (secp256k1_sha256_write
               (secp256k1_sha256_initialize sha256_uninit) (th ++ th)).
Proof.
  cbn zeta. unfold sha_equiv. split; [|split].
  - vm_compute. reflexivity.
  - vm_compute. reflexivity.
  - unfold pending at 1.
    change (bytes_written (secp256k1_musig_keyagglist_sha256 sha0)) with 64.
    change (Z.to_nat (64 mod 64)) with 0%nat. rewrite firstn_0.
    vm_compute. reflexivity.
Qed.

Lemma keyaggcoef_midstate (sha0 : secp256k1_sha256) :
  let th := sha256 (bytes_of_string "KeyAgg coefficient"%string) in
  sha_equiv (secp256k1_musig_keyaggcoef_sha256 sha0)
            (secp256k1_sha256_write
               (secp256k1_sha256_initialize sha256_uninit) (th ++ th)).
Proof.
  cbn zeta. unfold sha_equiv. split; [|split].
  - vm_compute. reflexivity.
  - vm_compute. reflexivity.
  - unfold pending at 1.
    change (bytes_written (secp256k1_musig_keyaggcoef_sha256 sha0)) with 64.
    change (Z.to_nat (64 mod 64)) with 0%nat. rewrite firstn_0.
    vm_compute. reflexivity.
Qed.

(** Chunked form, as the module uses the midstates: one write per key, or
    one for the hash and one for the x-coordinate. *)
Lemma keyagglist_chunks (sha0 : secp256k1_sha256) (chunks : list bytes) :
  length (buf sha0) = 64%nat ->
  snd (secp256k1_sha256_finalize
         (write_all (secp256k1_musig_keyagglist_sha256 sha0) chunks)) =
  tagged_hash_spec "KeyAgg list"%string (concat chunks).
Proof.
  intros W. unfold tagged_hash_spec. cbn zeta. rewrite app_assoc.
  apply midstate_hash; [exact W|apply keyagglist_midstate].
Qed.

Lemma keyaggcoef_chunks (sha0 : secp256k1_sha256) (chunks : list bytes) :
  length (buf sha0) = 64%nat ->
  snd (secp256k1_sha256_finalize
         (write_all (secp256k1_musig_keyaggcoef_sha256 sha0) chunks)) =
  tagged_hash_spec "KeyAgg coefficient"%string (concat chunks).
Proof.
  intros W. unfold tagged_hash_spec. cbn zeta. rewrite app_assoc.
  apply midstate_hash; [exact W|apply keyaggcoef_midstate].
Qed.

End SHA256Facts.
Import SHA256Facts.

(** C6. A hash started from either fixed midstate (byte counter 64), whatever
    the buffer of the hash object held before, maps every message to the
    digest of the plain tagged hash
    SHA256(SHA256(tag) || SHA256(tag) || message), with the tags
    "KeyAgg list" and "KeyAgg coefficient". *)
Theorem midstates_are_tagged_hashes (sha0 : secp256k1_sha256) (msg : bytes) :
  length (buf sha0) = 64%nat ->
  snd (secp256k1_sha256_finalize
         (secp256k1_sha256_write (secp256k1_musig_keyagglist_sha256 sha0) msg)) =
  tagged_hash_spec "KeyAgg list"%string msg /\
  snd (secp256k1_sha256_finalize
         (secp256k1_sha256_write (secp256k1_musig_keyaggcoef_sha256 sha0) msg)) =
  tagged_hash_spec "KeyAgg coefficient"%string msg.
Proof.
  intros W. split.
  - pose proof (keyagglist_chunks sha0 [msg] W) as H.
    cbn [write_all fold_left concat] in H. now rewrite app_nil_r in H.
  - pose proof (keyaggcoef_chunks sha0 [msg] W) as H.
    cbn [write_all fold_left concat] in H. now rewrite app_nil_r in H.
Qed.

Lemma midstates_are_tagged_hashes_witness :
  length (buf sha256_uninit) = 64%nat /\
  (snd (secp256k1_sha256_finalize
          (secp256k1_sha256_write
             (secp256k1_musig_keyagglist_sha256 sha256_uninit)
             (bytes_of_string "abc"%string))) =
   tagged_hash_spec "KeyAgg list"%string (bytes_of_string "abc"%string) /\
   snd (secp256k1_sha256_finalize
          (secp256k1_sha256_write
             (secp256k1_musig_keyaggcoef_sha256 sha256_uninit)
             (bytes_of_string "abc"%string))) =
   tagged_hash_spec "KeyAgg coefficient"%string (bytes_of_string "abc"%string)).
Proof.
  split; [reflexivity|].
  apply (midstates_are_tagged_hashes sha256_uninit (bytes_of_string "abc"%string)).
  reflexivity.
Defined.

(** ** Sub-arrays of a concatenation *)

Lemma sub_app_r (a b : bytes) (off len : nat) :
  (length a <= off)%nat -> sub off len (a ++ b) = sub (off - length a) len b.
Proof.
  intros H. unfold sub. rewrite skipn_app, (skipn_all2 a) by lia. reflexivity.
Qed.

Lemma sub_app_l (a b : bytes) (len : nat) :
  length a = len -> sub 0 len (a ++ b) = a.
Proof.
  intros H. unfold sub. rewrite skipn_0, firstn_app, H, Nat.sub_diag, firstn_0.
  rewrite app_nil_r. apply firstn_all2. lia.
Qed.

Lemma sub_all (a : bytes) (len : nat) : length a = len -> sub 0 len a = a.
Proof.
  intros H. rewrite <- (app_nil_r a) at 1. now apply sub_app_l.
Qed.

Lemma sub_sub_0 (a : bytes) (l1 l2 : nat) :
  (l1 <= l2)%nat -> sub 0 l1 (sub 0 l2 a) = sub 0 l1 a.
Proof.
  intros H. unfold sub. rewrite !skipn_0, firstn_firstn. f_equal. lia.
Qed.

Lemma firstn_sub (a : bytes) (off len : nat) :
  firstn len (sub off len a) = sub off len a.
Proof.
  unfold sub. rewrite firstn_firstn. f_equal. lia.
Qed.

(** The layout of the 165 cache bytes. *)
Lemma cache_layout (pt sx h tw : bytes) (pb : byte) :
  length pt = 64%nat -> length sx = 32%nat -> length h = 32%nat ->
  length tw = 32%nat ->
  let c := secp256k1_musig_keyagg_cache_magic ++ pt ++ sx ++ h ++ [pb] ++ tw in
  length c = 165%nat /\
  sub 0 4 c = secp256k1_musig_keyagg_cache_magic /\
  sub 4 64 c = pt /\ sub 68 32 c = sx /\ sub 100 32 c = h /\
  nth 132 c x00 = pb /\ sub 133 32 c = tw.
Proof.
  intros Hpt Hsx Hh Htw c. subst c.
  assert (Hm : length secp256k1_musig_keyagg_cache_magic = 4%nat) by reflexivity.
  split; [|split; [|split; [|split; [|split; [|split]]]]].
  - rewrite !length_app, Hm, Hpt, Hsx, Hh, Htw. reflexivity.
  - now apply sub_app_l.
  - rewrite sub_app_r by (rewrite Hm; lia). rewrite Hm. now apply sub_app_l.
  - rewrite sub_app_r by (rewrite Hm; lia). rewrite Hm.
    rewrite sub_app_r by (rewrite Hpt; cbn; lia). rewrite Hpt.
    now apply sub_app_l.
  - rewrite sub_app_r by (rewrite Hm; lia). rewrite Hm.
    rewrite sub_app_r by (rewrite Hpt; cbn; lia). rewrite Hpt.
    rewrite sub_app_r by (rewrite Hsx; cbn; lia). rewrite Hsx.
    now apply sub_app_l.
  - rewrite app_nth2 by (rewrite Hm; lia). rewrite Hm.
    rewrite app_nth2 by (rewrite Hpt; cbn; lia). rewrite Hpt.
    rewrite app_nth2 by (rewrite Hsx; cbn; lia). rewrite Hsx.
    rewrite app_nth2 by (rewrite Hh; cbn; lia). rewrite Hh.
    reflexivity.
  - rewrite sub_app_r by (rewrite Hm; lia). rewrite Hm.
    rewrite sub_app_r by (rewrite Hpt; cbn; lia). rewrite Hpt.
    rewrite sub_app_r by (rewrite Hsx; cbn; lia). rewrite Hsx.
    rewrite sub_app_r by (rewrite Hh; cbn; lia). rewrite Hh.
    rewrite sub_app_r by (cbn; lia).
    now apply sub_all.
Qed.

(** ** The point codec *)

Section Codec.

Variable cfg : config.
Hypothesis p_range : 0 < field_p cfg <= 2 ^ 256.

Lemma pow_256_32 : 256 ^ Z.of_nat 32 = 2 ^ 256.
Proof. reflexivity. Qed.

Lemma fe_b32_roundtrip (a : Z) :
  0 <= a < 2 ^ 256 ->
  secp256k1_fe_set_b32 (secp256k1_fe_get_b32 a) = a.
Proof.
  intros H. unfold secp256k1_fe_set_b32, secp256k1_fe_get_b32.
  rewrite firstn_all2 by (rewrite length_be_encode; lia).
  rewrite be_decode_encode, pow_256_32. now apply Z.mod_small.
Qed.

Lemma fe_storage_roundtrip (a : Z) :
  0 <= a < 2 ^ 256 ->
  secp256k1_fe_from_storage (secp256k1_fe_to_storage a) = a.
Proof.
  intros H. unfold secp256k1_fe_from_storage, secp256k1_fe_to_storage.
  rewrite firstn_all2 by (rewrite length_le_encode; lia).
  rewrite le_decode_encode, pow_256_32. now apply Z.mod_small.
Qed.

Lemma normalize_range (a : Z) :
  0 <= secp256k1_fe_normalize_var cfg a < 2 ^ 256.
Proof.
  unfold secp256k1_fe_normalize_var.
  pose proof (Z.mod_pos_bound a (field_p cfg)). lia.
Qed.

Definition ge_normalize (a : secp256k1_ge) : secp256k1_ge :=
  {| x := secp256k1_fe_normalize_var cfg (x a);
     y := secp256k1_fe_normalize_var cfg (y a);
     infinity := infinity a |}.

(** A finite point whose coordinates are reduced. *)
Definition ge_canonical (a : secp256k1_ge) : Prop :=
  infinity a = false /\ 0 <= x a < field_p cfg /\ 0 <= y a < field_p cfg.

Lemma ge_normalize_canonical (a : secp256k1_ge) :
  ge_canonical a -> ge_normalize a = a.
Proof.
  intros (Hi & Hx & Hy). destruct a as [ax ay ai]. cbn in *.
  unfold ge_normalize, secp256k1_fe_normalize_var. cbn.
  now rewrite !Z.mod_small.
Qed.

Lemma ge_storage_roundtrip (a : secp256k1_ge) :
  infinity a = false ->
  exists st, secp256k1_ge_to_storage cfg a = Ok st /\ length st = 64%nat /\
             secp256k1_ge_from_storage st = ge_normalize a.
Proof.
  intros Hi. unfold secp256k1_ge_to_storage, VERIFY_CHECK, rbind.
  rewrite Hi. cbn [negb].
  eexists. split; [reflexivity|]. split.
  - unfold secp256k1_fe_to_storage. now rewrite length_app, !length_le_encode.
  - unfold secp256k1_ge_from_storage, ge_normalize. rewrite Hi.
    rewrite sub_app_l by apply length_le_encode.
    rewrite sub_app_r by (unfold secp256k1_fe_to_storage; rewrite length_le_encode; lia).
    replace (length (secp256k1_fe_to_storage (secp256k1_fe_normalize_var cfg (x a))))
      with 32%nat by (symmetry; apply length_le_encode).
    rewrite Nat.sub_diag.
    rewrite sub_all by apply length_le_encode.
    now rewrite !fe_storage_roundtrip by apply normalize_range.
Qed.

Lemma b32_pair_roundtrip (ax ay : Z) :
  0 <= ax < 2 ^ 256 -> 0 <= ay < 2 ^ 256 ->
  let data := secp256k1_fe_get_b32 ax ++ secp256k1_fe_get_b32 ay in
  length data = 64%nat /\
  secp256k1_fe_set_b32 (sub 0 32 data) = ax /\
  secp256k1_fe_set_b32 (sub 32 32 data) = ay.
Proof.
  intros Hx Hy data. subst data.
  assert (Lx : length (secp256k1_fe_get_b32 ax) = 32%nat)
    by apply length_be_encode.
  assert (Ly : length (secp256k1_fe_get_b32 ay) = 32%nat)
    by apply length_be_encode.
  split; [|split].
  - now rewrite length_app, Lx, Ly.
  - rewrite sub_app_l by exact Lx. now apply fe_b32_roundtrip.
  - rewrite sub_app_r by lia. rewrite Lx, Nat.sub_diag.
    rewrite sub_all by exact Ly. now apply fe_b32_roundtrip.
Qed.

(** The 64 bytes that stand for a finite point, in a cache and in a
    public-key object alike. *)
Definition point_bytes (a : secp256k1_ge) : bytes :=
  if ge_storage_64 cfg then
    secp256k1_fe_to_storage (secp256k1_fe_normalize_var cfg (x a)) ++
    secp256k1_fe_to_storage (secp256k1_fe_normalize_var cfg (y a))
  else
    secp256k1_fe_get_b32 (secp256k1_fe_normalize_var cfg (x a)) ++
    secp256k1_fe_get_b32 (secp256k1_fe_normalize_var cfg (y a)).

Lemma point_bytes_length (a : secp256k1_ge) : length (point_bytes a) = 64%nat.
Proof.
  unfold point_bytes, secp256k1_fe_to_storage, secp256k1_fe_get_b32.
  destruct (ge_storage_64 cfg);
    now rewrite length_app, ?length_le_encode, ?length_be_encode.
Qed.

Lemma point_save_finite (a : secp256k1_ge) :
  infinity a = false ->
  exists a', secp256k1_point_save cfg a = Ok (point_bytes a, a') /\
             point_bytes a' = point_bytes a /\ infinity a' = false.
Proof.
  clear p_range. intros Hi.
  unfold secp256k1_point_save, point_bytes, secp256k1_ge_to_storage,
    secp256k1_ge_is_infinity, VERIFY_CHECK, rbind.
  rewrite Hi. cbn [negb].
  destruct (ge_storage_64 cfg).
  - exists a. now rewrite Hi.
  - eexists. split; [reflexivity|]. cbn [x y infinity].
    unfold secp256k1_fe_normalize_var. now rewrite !Zmod_mod.
Qed.

Lemma pubkey_save_finite (a : secp256k1_ge) :
  infinity a = false -> secp256k1_pubkey_save cfg a = Ok (point_bytes a).
Proof.
  intros Hi.
  unfold secp256k1_pubkey_save, point_bytes, secp256k1_ge_to_storage,
    secp256k1_ge_is_infinity, VERIFY_CHECK, rbind.
  rewrite Hi. cbn [negb].
  now destruct (ge_storage_64 cfg).
Qed.

(** Reading the bytes of a finite point gives the point back, with its
    coordinates reduced. *)
Lemma point_load_bytes (a : secp256k1_ge) :
  infinity a = false ->
  secp256k1_point_load cfg (point_bytes a) = ge_normalize a.
Proof.
  intros Hi. unfold secp256k1_point_load, point_bytes.
  destruct (ge_storage_64 cfg).
  - destruct (ge_storage_roundtrip a Hi) as (st & E & L & R).
    unfold secp256k1_ge_to_storage, VERIFY_CHECK, rbind in E.
    rewrite Hi in E. cbn [negb] in E. inversion E; subst st.
    now rewrite sub_all.
  - destruct (b32_pair_roundtrip _ _ (normalize_range (x a)) (normalize_range (y a)))
      as (L & RX & RY).
    unfold secp256k1_ge_set_xy, ge_normalize. now rewrite RX, RY, Hi.
Qed.

Lemma point_load_finite (data : bytes) :
  infinity (secp256k1_point_load cfg data) = false.
Proof.
  unfold secp256k1_point_load. now destruct (ge_storage_64 cfg).
Qed.

End Codec.

(** ** The API functions as functions of the memory *)

Section Api.

Variable cfg : config.

(** The 165 bytes that [secp256k1_keyagg_cache_save] writes. *)
Definition cache_bytes (ci : secp256k1_keyagg_cache_internal) : bytes :=
  secp256k1_musig_keyagg_cache_magic ++
  point_bytes cfg (pk ci) ++
  secp256k1_fe_get_b32 (second_pk_x ci) ++
  firstn 32 (pk_hash ci) ++
  [byte_of_Z (internal_key_parity ci)] ++
  secp256k1_scalar_get_b32 (tweak ci).

Lemma cache_save_finite (ci : secp256k1_keyagg_cache_internal) :
  infinity (pk ci) = false ->
  exists ci', secp256k1_keyagg_cache_save cfg ci = Ok (cache_bytes ci, ci') /\
              point_bytes cfg (pk ci') = point_bytes cfg (pk ci) /\
              infinity (pk ci') = false.
Proof.
  intros Hi. unfold secp256k1_keyagg_cache_save.
  destruct (point_save_finite cfg (pk ci) Hi) as (a' & E & Hb & Hi').
  rewrite E. cbn [rbind]. eexists. split; [reflexivity|].
  cbn [pk set_pk]. now split.
Qed.

(** What a store through a possibly-NULL pointer leaves in the object. *)
Definition stored (obj : option bytes) (data : bytes) : option bytes :=
  match obj with
  | None => None
  | Some _ => Some data
  end.

(** The internal cache after a tweak by [t]: lines 280-285. *)
Definition tweak_apply (ci : secp256k1_keyagg_cache_internal) (t : Z)
    : secp256k1_keyagg_cache_internal :=
  let odd := secp256k1_fe_is_odd (y (pk ci)) in
  let pk1 := if odd then secp256k1_ge_neg cfg (pk ci) else pk ci in
  {| pk := secp256k1_ecmult cfg pk1 1 t;
     second_pk_x := second_pk_x ci;
     pk_hash := pk_hash ci;
     internal_key_parity :=
       if odd then Z.lxor (internal_key_parity ci) 1 else internal_key_parity ci;
     tweak := secp256k1_scalar_add cfg
                (if odd then secp256k1_scalar_negate cfg (tweak ci) else tweak ci) t |}.

Definition failed (m : mem) : mem * res Z :=
  ({| m_pubkey := stored (m_pubkey m) (zero_bytes 64); m_cache := m_cache m |}, Ok 0).

Lemma cache_load_finite (cache : bytes) (ci : secp256k1_keyagg_cache_internal) :
  secp256k1_keyagg_cache_load cfg cache = Some ci -> infinity (pk ci) = false.
Proof.
  unfold secp256k1_keyagg_cache_load.
  destruct (negb _); [discriminate|]. intros H; inversion H; subst ci.
  cbn [pk]. apply point_load_finite.
Qed.

Lemma tweak_add_eq (tweak32 : option bytes) (m : mem) :
  secp256k1_musig_pubkey_tweak_add cfg tweak32 m =
  match m_cache m, tweak32 with
  | Some cache, Some tw =>
      match secp256k1_keyagg_cache_load cfg cache with
      | Some ci =>
          let '(t, overflow) := secp256k1_scalar_set_b32 cfg tw in
          let ci' := tweak_apply ci t in
          if overflow || infinity (pk ci') then failed m
          else ({| m_pubkey := stored (m_pubkey m) (point_bytes cfg (pk ci'));
                   m_cache := Some (cache_bytes ci') |}, Ok 1)
      | None => failed m
      end
  | _, _ => failed m
  end.
Proof.
  unfold secp256k1_musig_pubkey_tweak_add, memset_pubkey_if_not_null, failed.
  unfold bind, ret, lift, get_pubkey, get_cache, put_pubkey, put_cache.
  destruct m as [[out|] [cache|]]; destruct tweak32 as [tw|];
    cbn [m_pubkey m_cache stored]; try reflexivity.
  all: destruct (secp256k1_keyagg_cache_load cfg cache) as [ci|] eqn:El;
    [|reflexivity].
  all: pose proof (cache_load_finite cache ci El) as Hfin.
  all: destruct (secp256k1_scalar_set_b32 cfg tw) as [t ov].
  all: destruct ov; [reflexivity|]; cbn [orb].
  all: unfold secp256k1_extrakeys_ge_even_y, secp256k1_ge_is_infinity,
         VERIFY_CHECK, rbind.
  all: rewrite Hfin; cbn [negb].
  all: unfold tweak_apply, secp256k1_eckey_pubkey_tweak_add,
         secp256k1_ge_is_infinity, secp256k1_gej_set_ge, secp256k1_ge_set_gej,
         secp256k1_scalar_set_int, secp256k1_ge_neg.
  all: rewrite Hfin.
  all: destruct (secp256k1_fe_is_odd (y (pk ci))) eqn:Eodd;
    cbn [m_pubkey m_cache stored pk set_pk set_tweak
      set_internal_key_parity Z.eqb internal_key_parity tweak second_pk_x pk_hash].
  all: match goal with
       | |- context [infinity (secp256k1_ecmult cfg ?a 1 ?b)] =>
           destruct (infinity (secp256k1_ecmult cfg a 1 b)) eqn:Einf
       end; cbn [Z.eqb negb m_pubkey m_cache pk]; try reflexivity.
  all: rewrite Einf; cbn [negb].
  all: match goal with
       | |- context [secp256k1_keyagg_cache_save cfg ?c] =>
           destruct (cache_save_finite c) as (ci' & Es & Hb & Hi');
             [exact Einf|]; rewrite Es; cbn [m_pubkey m_cache]
       end.
  all: unfold cache_bytes; cbn [pk second_pk_x pk_hash internal_key_parity tweak];
    try reflexivity.
  all: rewrite (pubkey_save_finite cfg _ Hi'); cbn [m_pubkey m_cache];
    cbn [pk] in Hb; rewrite Hb; reflexivity.
Qed.

Lemma pubkey_get_eq (m : mem) :
  secp256k1_musig_pubkey_get cfg m =
  match m_pubkey m with
  | None => (m, Ok 0)
  | Some _ =>
      match m_cache m with
      | Some cache =>
          match secp256k1_keyagg_cache_load cfg cache with
          | Some ci => ({| m_pubkey := Some (point_bytes cfg (pk ci));
                           m_cache := Some cache |}, Ok 1)
          | None => failed m
          end
      | None => failed m
      end
  end.
Proof.
  unfold secp256k1_musig_pubkey_get, failed.
  unfold bind, ret, lift, get_pubkey, get_cache, put_pubkey, put_cache.
  destruct m as [[out|] [cache|]]; cbn [m_pubkey m_cache stored]; try reflexivity.
  destruct (secp256k1_keyagg_cache_load cfg cache) as [ci|] eqn:El; [|reflexivity].
  rewrite (pubkey_save_finite cfg _ (cache_load_finite cache ci El)).
  reflexivity.
Qed.

(** The point that key [pki] contributes to the aggregate: its coefficient
    times the key. *)
Definition key_term (hash : bytes) (second : Z) (pki : bytes) : secp256k1_ge :=
  match secp256k1_xonly_pubkey_load cfg pki with
  | Some pt =>
      secp256k1_ecmult cfg pt
        (secp256k1_musig_keyaggcoef_internal cfg hash (x pt) second) 0
  | None => secp256k1_ge_set_infinity
  end.

(** The sum of the contributions of the keys, added to [r0] from the left. *)
Definition agg_sum (hash : bytes) (second : Z) (pks : list bytes)
    (r0 : secp256k1_ge) : secp256k1_ge :=
  fold_left (fun r pki => secp256k1_ge_add cfg r (key_term hash second pki)) pks r0.

Definition key_loads (pki : bytes) : Prop :=
  secp256k1_xonly_pubkey_load cfg pki <> None.

Lemma agg_sum_cons (hash : bytes) (second : Z) (k : bytes) (l : list bytes)
    (r : secp256k1_ge) :
  agg_sum hash second (k :: l) r =
  agg_sum hash second l (secp256k1_ge_add cfg r (key_term hash second k)).
Proof. reflexivity. Qed.

Lemma key_term_loaded (hash : bytes) (second : Z) (k : bytes) (pt : secp256k1_ge) :
  secp256k1_xonly_pubkey_load cfg k = Some pt ->
  key_term hash second k =
  secp256k1_ecmult cfg pt
    (secp256k1_musig_keyaggcoef_internal cfg hash (x pt) second) 0.
Proof. intros E. unfold key_term. now rewrite E. Qed.

Lemma ecmult_multi_loop_agg (data : secp256k1_musig_pubkey_agg_ecmult_data)
    (l pre : list bytes) (r : secp256k1_ge) :
  ed_pks data = pre ++ l -> Forall key_loads l ->
  ecmult_multi_loop cfg (secp256k1_musig_pubkey_agg_callback cfg data)
    (length l) (length pre) r =
  Ok (1, agg_sum (ed_pk_hash data) (ed_second_pk_x data) l r).
Proof.
  revert pre r; induction l as [|k l IH]; intros pre r E F; [reflexivity|].
  inversion F as [|? ? Hk Hl]; subst.
  unfold key_loads in Hk.
  destruct (secp256k1_xonly_pubkey_load cfg k) as [pt|] eqn:Ek; [|congruence].
  rewrite agg_sum_cons, (key_term_loaded _ _ _ _ Ek).
  cbn [length ecmult_multi_loop].
  unfold secp256k1_musig_pubkey_agg_callback at 1.
  rewrite E, app_nth2, Nat.sub_diag by lia. cbn [nth]. rewrite Ek.
  cbn [rbind Z.eqb].
  unfold secp256k1_gej_add_var, secp256k1_gej_set_ge.
  specialize (IH (pre ++ [k])
    (secp256k1_ge_add cfg r
       (secp256k1_ecmult cfg pt
          (secp256k1_musig_keyaggcoef_internal cfg (ed_pk_hash data) (x pt)
             (ed_second_pk_x data)) 0))).
  rewrite length_app in IH. cbn [length] in IH.
  rewrite Nat.add_1_r in IH.
  apply IH; [|exact Hl].
  rewrite E, <- app_assoc. reflexivity.
Qed.

(** The x-coordinates of the keys, serialized one after the other. *)
Fixpoint serialized_keys (pks : list bytes) : option (list bytes) :=
  match pks with
  | [] => Some []
  | k :: l =>
      match secp256k1_xonly_pubkey_serialize cfg k, serialized_keys l with
      | Some ser, Some sers => Some (ser :: sers)
      | _, _ => None
      end
  end.

Lemma serialized_keys_loads (pks : list bytes) :
  serialized_keys pks <> None <-> Forall key_loads pks.
Proof.
  induction pks as [|k l IH]; cbn [serialized_keys].
  - split; [constructor|discriminate].
  - unfold secp256k1_xonly_pubkey_serialize.
    split.
    + intros H. constructor.
      * unfold key_loads. destruct (secp256k1_xonly_pubkey_load cfg k); congruence.
      * apply IH. destruct (secp256k1_xonly_pubkey_load cfg k); [|congruence].
        destruct (serialized_keys l); congruence.
    + intros F. inversion F as [|? ? Hk Hl]; subst.
      apply IH in Hl. unfold key_loads in Hk.
      destruct (secp256k1_xonly_pubkey_load cfg k); [|congruence].
      destruct (serialized_keys l); congruence.
Qed.

Lemma length_serialize (k ser : bytes) :
  secp256k1_xonly_pubkey_serialize cfg k = Some ser -> length ser = 32%nat.
Proof.
  unfold secp256k1_xonly_pubkey_serialize.
  destruct (secp256k1_xonly_pubkey_load cfg k); [|discriminate].
  intros H; inversion H. apply length_be_encode.
Qed.

(** [secp256k1_musig_compute_pk_hash] is the "KeyAgg list" tagged hash of the
    serialized keys, and fails exactly when a key does not load. *)
Lemma compute_pk_hash_eq (pks : list bytes) :
  secp256k1_musig_compute_pk_hash cfg pks =
  match serialized_keys pks with
  | Some sers => Some (tagged_hash_spec "KeyAgg list"%string (concat sers))
  | None => None
  end.
Proof.
  unfold secp256k1_musig_compute_pk_hash.
  set (loop := fix loop (sha : secp256k1_sha256) (l : list bytes) :=
         match l with
         | [] => Some sha
         | pki :: l' =>
             match secp256k1_xonly_pubkey_serialize cfg pki with
             | Some ser => loop (secp256k1_sha256_write sha (firstn 32 ser)) l'
             | None => None
             end
         end).
  assert (L : forall l sha,
            loop sha l = match serialized_keys l with
                         | Some sers => Some (write_all sha sers)
                         | None => None
                         end).
  { induction l as [|k l IH]; intros sha; [reflexivity|].
    cbn [loop serialized_keys].
    destruct (secp256k1_xonly_pubkey_serialize cfg k) as [ser|] eqn:Es;
      [|reflexivity].
    rewrite IH. destruct (serialized_keys l); [|reflexivity].
    cbn [write_all fold_left].
    rewrite firstn_all2 by (rewrite (length_serialize k ser Es); lia).
    reflexivity. }
  rewrite L. destruct (serialized_keys pks) as [sers|]; [|reflexivity].
  f_equal. apply keyagglist_chunks. reflexivity.
Qed.

Definition even_y_point (a : secp256k1_ge) : secp256k1_ge :=
  if secp256k1_fe_is_odd (y a) then secp256k1_ge_neg cfg a else a.

(** The internal cache that a successful aggregation saves. *)
Definition agg_cache (pkp : secp256k1_ge) (second : Z) (hash : bytes)
    : secp256k1_keyagg_cache_internal :=
  {| pk := pkp; second_pk_x := second; pk_hash := hash;
     internal_key_parity := 0; tweak := 0 |}.

(** The aggregate point as line 229 leaves it. *)
Definition agg_point (hash : bytes) (second : Z) (pks : list bytes) : secp256k1_ge :=
  let q := agg_sum hash second pks secp256k1_ge_set_infinity in
  {| x := x q; y := secp256k1_fe_normalize_var cfg (y q); infinity := infinity q |}.

Lemma pubkey_agg_eq (pubkeys : option (list bytes)) (m : mem) :
  secp256k1_musig_pubkey_agg cfg pubkeys m =
  match pubkeys with
  | Some (pk0 :: rest) =>
      match find_second_pk_x cfg pk0 rest,
            secp256k1_musig_compute_pk_hash cfg (pk0 :: rest) with
      | Some second, Some hash =>
          let pkp := agg_point hash second (pk0 :: rest) in
          if infinity pkp then
            ({| m_pubkey := stored (m_pubkey m) (zero_bytes 64);
                m_cache := m_cache m |}, Violated VC_agg_infinity)
          else
            ({| m_pubkey := stored (m_pubkey m) (point_bytes cfg (even_y_point pkp));
                m_cache := stored (m_cache m)
                             (cache_bytes (agg_cache pkp second hash)) |}, Ok 1)
      | _, _ => failed m
      end
  | _ => failed m
  end.
Proof.
  unfold secp256k1_musig_pubkey_agg, memset_pubkey_if_not_null, failed.
  unfold bind, ret, lift, get_pubkey, get_cache, put_pubkey, put_cache.
  destruct pubkeys as [[|pk0 rest]|].
  1,3: destruct m as [[out|] cache]; reflexivity.
  destruct (find_second_pk_x cfg pk0 rest) as [second|].
  2:{ destruct m as [[out|] cache]; reflexivity. }
  destruct (secp256k1_musig_compute_pk_hash cfg (pk0 :: rest)) as [hash|] eqn:Eh.
  2:{ destruct m as [[out|] cache]; reflexivity. }
  assert (F : Forall key_loads (pk0 :: rest)).
  { apply serialized_keys_loads. rewrite compute_pk_hash_eq in Eh.
    destruct (serialized_keys (pk0 :: rest)); congruence. }
  unfold secp256k1_ecmult_multi_var.
  pose proof (ecmult_multi_loop_agg
                {| ed_pk_hash := hash; ed_pks := pk0 :: rest;
                   ed_second_pk_x := second |}
                (pk0 :: rest) [] secp256k1_ge_set_infinity eq_refl F) as Hloop.
  cbn [length ed_pk_hash ed_second_pk_x] in Hloop.
  cbn [length ed_pk_hash ed_second_pk_x ed_pks].
  unfold agg_point, secp256k1_ge_set_gej, secp256k1_ge_is_infinity, VERIFY_CHECK.
  set (q := agg_sum hash second (pk0 :: rest) secp256k1_ge_set_infinity) in *.
  cbn zeta. cbn [infinity x y].
  destruct m as [[out|] [cache|]]; cbn [m_pubkey m_cache stored];
    rewrite Hloop; cbn [Z.eqb infinity x y];
    destruct (infinity q) eqn:Einf; cbn [negb m_pubkey m_cache]; try reflexivity.
  all: unfold secp256k1_extrakeys_ge_even_y, secp256k1_ge_is_infinity,
         VERIFY_CHECK, rbind, secp256k1_xonly_pubkey_save, even_y_point,
         secp256k1_ge_neg; cbn [infinity x y negb].
  all: try (destruct (cache_save_finite
                   {| pk := {| x := x q; y := secp256k1_fe_normalize_var cfg (y q);
                               infinity := false |};
                      second_pk_x := second; pk_hash := hash;
                      internal_key_parity := 0; tweak := 0 |} eq_refl)
         as (ci' & Es & _ & _); rewrite Es; cbn [m_pubkey m_cache]).
  all: destruct (secp256k1_fe_is_odd (secp256k1_fe_normalize_var cfg (y q)));
    cbn [m_pubkey m_cache];
    try (rewrite pubkey_save_finite by reflexivity); reflexivity.
Qed.

End Api.

(** ** Concrete inputs on secp256k1 *)

(** The point 6*G, whose y-coordinate is odd. *)
Definition six_G : secp256k1_ge := ge_mul secp256k1 6 (generator secp256k1).

(** A cache that holds the point 6*G, parity 0 and tweak 0. *)
Definition cache_six_G : bytes :=
  cache_bytes secp256k1
    {| pk := six_G; second_pk_x := 0; pk_hash := zero_bytes 32;
       internal_key_parity := 0; tweak := 0 |}.

Definition mem_six_G : mem :=
  {| m_pubkey := Some (repeat xff 64); m_cache := Some cache_six_G |}.

(** The 32-byte tweak 6. *)
Definition tweak_six : bytes := be_encode 32 6.

Lemma six_G_odd : secp256k1_fe_is_odd (y six_G) = true.
Proof. vm_compute. reflexivity. Qed.

(** ** Claims about [secp256k1_musig_pubkey_tweak_add] *)

(** C1. Whenever [secp256k1_musig_pubkey_tweak_add] returns 0 (the magic
    does not match, the tweak is not below the group order, or the tweaked
    point is the point at infinity), the cache holds the bytes it held
    before the call. *)
Theorem tweak_add_failure_keeps_cache (cfg : config) (tweak32 : option bytes)
    (m m' : mem) :
  secp256k1_musig_pubkey_tweak_add cfg tweak32 m = (m', Ok 0) ->
  m_cache m' = m_cache m.
Proof.
  rewrite tweak_add_eq. unfold failed.
  destruct (m_cache m) as [cache|]; [|intros H; now inversion H].
  destruct tweak32 as [tw|]; [|intros H; now inversion H].
  destruct (secp256k1_keyagg_cache_load cfg cache) as [ci|];
    [|intros H; now inversion H].
  destruct (secp256k1_scalar_set_b32 cfg tw) as [t ov].
  cbn zeta.
  destruct (ov || infinity (pk (tweak_apply cfg ci t)));
    intros H; inversion H; reflexivity.
Qed.

(** The tweak 6 cancels the even-y form of the cached 6*G: the call fails
    and the cache is as before. *)
Lemma tweak_add_failure_keeps_cache_witness :
  secp256k1_musig_pubkey_tweak_add secp256k1 (Some tweak_six) mem_six_G =
    ({| m_pubkey := Some (zero_bytes 64); m_cache := Some cache_six_G |}, Ok 0) /\
  m_cache {| m_pubkey := Some (zero_bytes 64); m_cache := Some cache_six_G |} =
    m_cache mem_six_G.
Proof.
  split; [vm_compute; reflexivity|].
  apply (tweak_add_failure_keeps_cache secp256k1 (Some tweak_six)).
  vm_compute. reflexivity.
Defined.

Lemma ecmult_one (cfg : config) (a : secp256k1_ge) (t : Z) :
  secp256k1_ecmult cfg a 1 t =
  secp256k1_ge_add cfg a (ge_mul cfg t (generator cfg)).
Proof. reflexivity. Qed.

Lemma cache_load_magic (cfg : config) (cache : bytes) :
  secp256k1_keyagg_cache_load cfg cache <> None <->
  sub 0 4 cache = secp256k1_musig_keyagg_cache_magic.
Proof.
  unfold secp256k1_keyagg_cache_load.
  destruct (bytes_eqb (sub 0 4 cache) secp256k1_musig_keyagg_cache_magic) eqn:E;
    cbn [negb].
  - apply bytes_eqb_eq in E. split; [intros _; exact E|discriminate].
  - split; [congruence|]. intros H. apply bytes_eqb_eq in H. congruence.
Qed.

Lemma cache_load_pk (cfg : config) (cache : bytes)
    (ci : secp256k1_keyagg_cache_internal) :
  secp256k1_keyagg_cache_load cfg cache = Some ci ->
  pk ci = secp256k1_point_load cfg (sub 4 64 cache).
Proof.
  unfold secp256k1_keyagg_cache_load. destruct (negb _); [discriminate|].
  intros H; inversion H. reflexivity.
Qed.

(** The statement of C7 as the claim words it: with a matching magic the
    call fails exactly when the tweak is not below the group order or the
    cached point plus tweak*G is the point at infinity. *)
Definition tweak_add_fails_iff_as_claimed (cfg : config) (cache tw : bytes)
    (out : option bytes) : Prop :=
  sub 0 4 cache = secp256k1_musig_keyagg_cache_magic ->
  (snd (secp256k1_musig_pubkey_tweak_add cfg (Some tw)
          {| m_pubkey := out; m_cache := Some cache |}) = Ok 0 <->
   order_n cfg <= be_decode (firstn 32 tw) \/
   infinity (secp256k1_ge_add cfg
               (secp256k1_point_load cfg (sub 4 64 cache))
               (ge_mul cfg (be_decode (firstn 32 tw) mod order_n cfg)
                  (generator cfg))) = true).

(** C7, counterexample. The cache holds 6*G, whose y is odd, and the tweak
    is 6: the call negates the point before it adds 6*G and fails, although
    6 is below the group order and 6*G + 6*G is a finite point. *)
Lemma tweak_add_fails_iff_counterexample :
  ~ tweak_add_fails_iff_as_claimed secp256k1 cache_six_G tweak_six
      (Some (repeat xff 64)).
Proof.
  unfold tweak_add_fails_iff_as_claimed. intros H.
  specialize (H ltac:(vm_compute; reflexivity)).
  destruct H as [H _].
  specialize (H ltac:(vm_compute; reflexivity)).
  destruct H as [H|H]; vm_compute in H; congruence.
Qed.

(** C7, amended. With a matching magic and a non-NULL tweak the call returns
    0 or 1, never ends in an assertion, and returns 0 exactly when the tweak
    is not below the group order or tweak*G added to the even-y form of the
    cached point (the cached point, negated when its y is odd) is the point
    at infinity. *)
Theorem tweak_add_fails_iff (cfg : config) (cache tw : bytes) (out : option bytes) :
  sub 0 4 cache = secp256k1_musig_keyagg_cache_magic ->
  let r := snd (secp256k1_musig_pubkey_tweak_add cfg (Some tw)
                  {| m_pubkey := out; m_cache := Some cache |}) in
  (r = Ok 0 \/ r = Ok 1) /\
  (r = Ok 0 <->
   order_n cfg <= be_decode (firstn 32 tw) \/
   infinity (secp256k1_ge_add cfg
               (even_y_point cfg (secp256k1_point_load cfg (sub 4 64 cache)))
               (ge_mul cfg (be_decode (firstn 32 tw) mod order_n cfg)
                  (generator cfg))) = true).
Proof.
  intros Hmagic. cbn zeta. rewrite tweak_add_eq. cbn [m_cache m_pubkey].
  apply (proj2 (cache_load_magic cfg cache)) in Hmagic.
  destruct (secp256k1_keyagg_cache_load cfg cache) as [ci|] eqn:El;
    [|congruence].
  rewrite <- (cache_load_pk cfg cache ci El).
  unfold secp256k1_scalar_set_b32. cbn zeta.
  unfold tweak_apply. cbn [pk]. rewrite ecmult_one.
  unfold even_y_point, failed.
  destruct (Z.leb_spec (order_n cfg) (be_decode (firstn 32 tw))) as [Hov|Hov];
    cbn [orb snd].
  - split; [now left|]. split; [intros _; now left|reflexivity].
  - destruct (infinity _) eqn:Einf; cbn [snd].
    + split; [now left|]. split; [intros _; now right|reflexivity].
    + split; [now right|]. split; [discriminate|].
      intros [H|H]; [lia|discriminate].
Qed.

Lemma tweak_add_fails_iff_witness :
  sub 0 4 cache_six_G = secp256k1_musig_keyagg_cache_magic /\
  (let r := snd (secp256k1_musig_pubkey_tweak_add secp256k1 (Some tweak_six)
                   {| m_pubkey := None; m_cache := Some cache_six_G |}) in
   (r = Ok 0 \/ r = Ok 1) /\
   (r = Ok 0 <->
    order_n secp256k1 <= be_decode (firstn 32 tweak_six) \/
    infinity (secp256k1_ge_add secp256k1
                (even_y_point secp256k1
                   (secp256k1_point_load secp256k1 (sub 4 64 cache_six_G)))
                (ge_mul secp256k1
                   (be_decode (firstn 32 tweak_six) mod order_n secp256k1)
                   (generator secp256k1))) = true)).
Proof.
  split; [vm_compute; reflexivity|].
  apply (tweak_add_fails_iff secp256k1 cache_six_G tweak_six None).
  vm_compute. reflexivity.
Defined.

(** ** Claims about [secp256k1_musig_pubkey_get] and the out-parameter *)

Lemma le_encode_decode_32 (bs : bytes) :
  length bs = 32%nat -> le_encode 32 (le_decode bs) = bs.
Proof. intros H. rewrite <- H. apply le_encode_decode. Qed.

Lemma be_encode_decode_32 (bs : bytes) :
  length bs = 32%nat -> be_encode 32 (be_decode bs) = bs.
Proof. intros H. rewrite <- H. apply be_encode_decode. Qed.

(** Bytes that decode to reduced coordinates encode back to themselves. *)
Lemma point_bytes_load (cfg : config) (data : bytes) :
  length data = 64%nat ->
  ge_canonical cfg (secp256k1_point_load cfg data) ->
  point_bytes cfg (secp256k1_point_load cfg data) = data.
Proof.
  intros L C. unfold ge_canonical, secp256k1_point_load in C.
  unfold point_bytes, secp256k1_point_load, secp256k1_fe_normalize_var.
  rewrite (sub_all data 64 L) in *.
  assert (L1 : length (sub 0 32 data) = 32%nat) by (apply length_sub; lia).
  assert (L2 : length (sub 32 32 data) = 32%nat) by (apply length_sub; lia).
  assert (Hsplit : sub 0 32 data ++ sub 32 32 data = data).
  { unfold sub. rewrite skipn_0.
    rewrite <- (firstn_skipn 32 data) at 3. f_equal.
    apply firstn_all2. rewrite length_skipn. lia. }
  destruct (ge_storage_64 cfg);
    cbn [x y secp256k1_ge_from_storage secp256k1_ge_set_xy] in *;
    destruct C as (_ & Hx & Hy); rewrite !Z.mod_small by assumption.
  - unfold secp256k1_fe_to_storage, secp256k1_fe_from_storage.
    rewrite !firstn_all2 by lia.
    now rewrite !le_encode_decode_32.
  - unfold secp256k1_fe_get_b32, secp256k1_fe_set_b32.
    rewrite !firstn_all2 by lia.
    now rewrite !be_encode_decode_32.
Qed.

(** C8. [secp256k1_musig_pubkey_get] leaves the cache bytes as they are; with
    both pointers non-NULL it returns 0 exactly when the four magic bytes do
    not match (and 1 otherwise); on success the public key written is the
    cached point as it is stored, neither negated nor tweaked: it decodes to
    the cached point with reduced coordinates, and is byte for byte the 64
    point bytes of the cache when these hold reduced coordinates. *)
Theorem pubkey_get_reads_cache (cfg : config) (m : mem) :
  0 < field_p cfg <= 2 ^ 256 ->
  let m' := fst (secp256k1_musig_pubkey_get cfg m) in
  let r := snd (secp256k1_musig_pubkey_get cfg m) in
  m_cache m' = m_cache m /\
  (forall out cache,
     m_pubkey m = Some out -> m_cache m = Some cache ->
     (r = Ok 0 \/ r = Ok 1) /\
     (r = Ok 0 <-> sub 0 4 cache <> secp256k1_musig_keyagg_cache_magic)) /\
  (r = Ok 1 ->
   exists cache out',
     m_cache m = Some cache /\ m_pubkey m' = Some out' /\
     secp256k1_point_load cfg out' =
       ge_normalize cfg (secp256k1_point_load cfg (sub 4 64 cache)) /\
     (length cache = 165%nat ->
      ge_canonical cfg (secp256k1_point_load cfg (sub 4 64 cache)) ->
      out' = sub 4 64 cache)).
Proof.
  intros Hp. cbn zeta. rewrite pubkey_get_eq. unfold failed.
  destruct m as [[out|] [cache|]]; cbn [m_pubkey m_cache stored fst snd].
  2-4: split; [reflexivity|]; split; [intros ? ? ? ?; discriminate|discriminate].
  pose proof (cache_load_magic cfg cache) as Hm.
  destruct (secp256k1_keyagg_cache_load cfg cache) as [ci|] eqn:El;
    cbn [m_pubkey m_cache fst snd].
  - split; [reflexivity|]. split.
    + intros out0 cache0 _ E. inversion E; subst cache0.
      split; [now right|]. split; [discriminate|].
      intros Hn. exfalso. apply Hn, Hm. discriminate.
    + intros _. exists cache, (point_bytes cfg (pk ci)).
      rewrite (cache_load_pk cfg cache ci El).
      split; [reflexivity|]. split; [reflexivity|]. split.
      * apply point_load_bytes; [exact Hp|apply point_load_finite].
      * intros L C. apply point_bytes_load; [apply length_sub; lia|exact C].
  - split; [reflexivity|]. split; [|discriminate].
    intros out0 cache0 _ E. inversion E; subst cache0.
    split; [now left|]. split; [|reflexivity].
    intros _ Hn. apply Hm in Hn. congruence.
Qed.

Lemma pubkey_get_reads_cache_witness :
  0 < field_p secp256k1 <= 2 ^ 256 /\
  (let m' := fst (secp256k1_musig_pubkey_get secp256k1 mem_six_G) in
   let r := snd (secp256k1_musig_pubkey_get secp256k1 mem_six_G) in
   m_cache m' = m_cache mem_six_G /\
   (forall out cache,
      m_pubkey mem_six_G = Some out -> m_cache mem_six_G = Some cache ->
      (r = Ok 0 \/ r = Ok 1) /\
      (r = Ok 0 <-> sub 0 4 cache <> secp256k1_musig_keyagg_cache_magic)) /\
   (r = Ok 1 ->
    exists cache out',
      m_cache mem_six_G = Some cache /\ m_pubkey m' = Some out' /\
      secp256k1_point_load secp256k1 out' =
        ge_normalize secp256k1 (secp256k1_point_load secp256k1 (sub 4 64 cache)) /\
      (length cache = 165%nat ->
       ge_canonical secp256k1 (secp256k1_point_load secp256k1 (sub 4 64 cache)) ->
       out' = sub 4 64 cache))).
Proof.
  split; [vm_compute; split; [reflexivity|discriminate]|].
  apply (pubkey_get_reads_cache secp256k1 mem_six_G).
  vm_compute. split; [reflexivity|discriminate].
Defined.

(** The three API calls, to state a property of all of them. *)
Inductive api_call : Type :=
  | Call_pubkey_agg (pubkeys : option (list bytes))
  | Call_pubkey_get
  | Call_pubkey_tweak_add (tweak32 : option bytes).

Definition api_run (cfg : config) (c : api_call) : M Z :=
  match c with
  | Call_pubkey_agg pubkeys => secp256k1_musig_pubkey_agg cfg pubkeys
  | Call_pubkey_get => secp256k1_musig_pubkey_get cfg
  | Call_pubkey_tweak_add tweak32 => secp256k1_musig_pubkey_tweak_add cfg tweak32
  end.

(** A memory whose output key holds 0xff bytes and whose cache has no magic
    bytes. *)
Definition mem_no_magic : mem :=
  {| m_pubkey := Some (repeat xff 64); m_cache := Some (zero_bytes 165) |}.

(** A key list whose second key is all zero and does not load. *)
Definition keys_with_zero_key : list bytes :=
  [point_bytes secp256k1 (generator secp256k1); zero_bytes 64].

(** C10. Each of the three API functions, called with a non-NULL output
    public key, leaves 64 zero bytes in it on every run that does not return
    1: the runs that return 0 and the runs that end in an assertion. *)
Theorem output_pubkey_zero_on_failure (cfg : config) (c : api_call)
    (m m' : mem) (out : bytes) (r : res Z) :
  m_pubkey m = Some out ->
  api_run cfg c m = (m', r) ->
  r <> Ok 1 ->
  m_pubkey m' = Some (zero_bytes 64).
Proof.
  intros Hout E Hr.
  assert (Hfst : m' = fst (api_run cfg c m)) by now rewrite E.
  assert (Hsnd : r = snd (api_run cfg c m)) by now rewrite E.
  subst m' r. clear E. revert Hr. destruct c as [pubkeys| |tweak32]; cbn [api_run].
  - rewrite pubkey_agg_eq. unfold failed. rewrite Hout.
    destruct pubkeys as [[|pk0 rest]|]; cbn [stored fst snd m_pubkey];
      try reflexivity.
    destruct (find_second_pk_x cfg pk0 rest);
      [|reflexivity].
    destruct (secp256k1_musig_compute_pk_hash cfg (pk0 :: rest));
      [|reflexivity].
    cbn zeta. destruct (infinity _); cbn [fst snd m_pubkey];
      [reflexivity|congruence].
  - rewrite pubkey_get_eq. unfold failed. rewrite Hout.
    destruct (m_cache m) as [cache|]; [|reflexivity].
    destruct (secp256k1_keyagg_cache_load cfg cache); cbn [fst snd m_pubkey stored];
      [congruence|reflexivity].
  - rewrite tweak_add_eq. unfold failed. rewrite Hout.
    destruct (m_cache m) as [cache|]; [|reflexivity].
    destruct tweak32 as [tw|]; [|reflexivity].
    destruct (secp256k1_keyagg_cache_load cfg cache) as [ci|]; [|reflexivity].
    destruct (secp256k1_scalar_set_b32 cfg tw) as [t ov]. cbn zeta.
    destruct (ov || _); cbn [fst snd m_pubkey stored]; [reflexivity|congruence].
Qed.

(** Three failing runs on secp256k1, each with an output key that holds 0xff
    bytes before the call: an aggregation whose second key does not load, a
    read of a cache without the magic bytes, and the tweak 6 of the cache
    that holds 6*G, which cancels the key. *)
Lemma output_pubkey_zero_on_failure_witness :
  (m_pubkey mem_six_G = Some (repeat xff 64) /\
   api_run secp256k1 (Call_pubkey_agg (Some keys_with_zero_key)) mem_six_G =
     ({| m_pubkey := Some (zero_bytes 64); m_cache := Some cache_six_G |}, Ok 0) /\
   Ok 0 <> Ok 1 :> res Z /\
   m_pubkey {| m_pubkey := Some (zero_bytes 64); m_cache := Some cache_six_G |} =
     Some (zero_bytes 64)) /\
  (m_pubkey mem_no_magic = Some (repeat xff 64) /\
   api_run secp256k1 Call_pubkey_get mem_no_magic =
     ({| m_pubkey := Some (zero_bytes 64); m_cache := Some (zero_bytes 165) |},
      Ok 0) /\
   Ok 0 <> Ok 1 :> res Z /\
   m_pubkey {| m_pubkey := Some (zero_bytes 64);
               m_cache := Some (zero_bytes 165) |} = Some (zero_bytes 64)) /\
  (m_pubkey mem_six_G = Some (repeat xff 64) /\
   api_run secp256k1 (Call_pubkey_tweak_add (Some tweak_six)) mem_six_G =
     ({| m_pubkey := Some (zero_bytes 64); m_cache := Some cache_six_G |}, Ok 0) /\
   Ok 0 <> Ok 1 :> res Z /\
   m_pubkey {| m_pubkey := Some (zero_bytes 64); m_cache := Some cache_six_G |} =
     Some (zero_bytes 64)).
Proof.
  assert (N : Ok 0 <> Ok 1 :> res Z) by discriminate.
  assert (A : api_run secp256k1 (Call_pubkey_agg (Some keys_with_zero_key))
                mem_six_G =
              ({| m_pubkey := Some (zero_bytes 64);
                  m_cache := Some cache_six_G |}, Ok 0))
    by (vm_compute; reflexivity).
  assert (G : api_run secp256k1 Call_pubkey_get mem_no_magic =
              ({| m_pubkey := Some (zero_bytes 64);
                  m_cache := Some (zero_bytes 165) |}, Ok 0))
    by (vm_compute; reflexivity).
  assert (T : api_run secp256k1 (Call_pubkey_tweak_add (Some tweak_six))
                mem_six_G =
              ({| m_pubkey := Some (zero_bytes 64);
                  m_cache := Some cache_six_G |}, Ok 0))
    by (vm_compute; reflexivity).
  split; [|split].
  - split; [reflexivity|]. split; [exact A|]. split; [exact N|].
    exact (output_pubkey_zero_on_failure secp256k1 _ mem_six_G _
             (repeat xff 64) (Ok 0) eq_refl A N).
  - split; [reflexivity|]. split; [exact G|]. split; [exact N|].
    exact (output_pubkey_zero_on_failure secp256k1 _ mem_no_magic _
             (repeat xff 64) (Ok 0) eq_refl G N).
  - split; [reflexivity|]. split; [exact T|]. split; [exact N|].
    exact (output_pubkey_zero_on_failure secp256k1 _ mem_six_G _
             (repeat xff 64) (Ok 0) eq_refl T N).
Defined.

(** ** Digests are 32 bytes long *)

Lemma round_length (st : list Z) (kw : Z * Z) :
  length st = 8%nat -> length (SHA256.round st kw) = 8%nat.
Proof.
  intros H.
  do 9 (destruct st as [|? st]; try discriminate H). reflexivity.
Qed.

Lemma transform_length (st : list Z) (block : bytes) :
  length st = 8%nat -> length (secp256k1_sha256_transform st block) = 8%nat.
Proof.
  intros H. unfold secp256k1_sha256_transform.
  rewrite length_map, length_combine.
  set (l := combine K256 _).
  assert (R : forall l st, length st = 8%nat ->
              length (fold_left SHA256.round l st) = 8%nat).
  { clear. induction l as [|kw l IH]; intros st H; [exact H|].
    cbn [fold_left]. apply IH, round_length, H. }
  rewrite (R l st H), H. reflexivity.
Qed.

Lemma absorb_length (f : nat) (st : list Z) (l : bytes) :
  length st = 8%nat -> length (fst (absorb f st l)) = 8%nat.
Proof.
  revert st l; induction f as [|f IH]; intros st l H; [exact H|].
  cbn [absorb]. destruct (64 <=? length l)%nat; [|exact H].
  apply IH, transform_length, H.
Qed.

Lemma write_state_length (h : secp256k1_sha256) (data : bytes) :
  length (buf h) = 64%nat -> length (s h) = 8%nat ->
  length (s (secp256k1_sha256_write h data)) = 8%nat.
Proof.
  intros W H. destruct (write_spec h data W) as (_ & _ & A).
  pose proof (absorb_length (S (length data)) (s h) (pending h ++ data) H) as L.
  rewrite <- A in L. exact L.
Qed.

Lemma finalize_length (h : secp256k1_sha256) :
  length (buf h) = 64%nat -> length (s h) = 8%nat ->
  length (snd (secp256k1_sha256_finalize h)) = 32%nat.
Proof.
  intros W H. unfold secp256k1_sha256_finalize. cbn [snd].
  set (pad := firstn _ _). set (sd := _ ++ _).
  pose proof (write_state_length h pad W H) as H1.
  pose proof (write_wf h pad W) as W1.
  pose proof (write_state_length _ sd W1 H1) as H2.
  revert H2. generalize (s (secp256k1_sha256_write (secp256k1_sha256_write h pad) sd)).
  intros l Hl.
  do 9 (destruct l as [|? l]; try discriminate Hl).
  cbn [map concat]. rewrite !length_app, !length_be_encode. reflexivity.
Qed.

Lemma sha256_length (msg : bytes) : length (sha256 msg) = 32%nat.
Proof.
  unfold sha256. apply finalize_length.
  - apply write_wf. reflexivity.
  - apply write_state_length; reflexivity.
Qed.

Lemma tagged_hash_length (tag : string) (msg : bytes) :
  length (tagged_hash_spec tag msg) = 32%nat.
Proof. apply sha256_length. Qed.

Lemma Some_inj {A : Type} (a b : A) : Some a = Some b -> a = b.
Proof. intros H. now injection H. Qed.

(** ** Claims about the coefficient and about [secp256k1_musig_pubkey_agg] *)

Section Aggregation.

Variable cfg : config.

(** The test of line 207: the 64 bytes of key [k] differ from those of
    [pubkeys[0]]. *)
Definition differs_from (pk0 k : bytes) : bool :=
  negb (bytes_eqb (firstn 64 pk0) (firstn 64 k)).

(** [second_pk_x] as the specification words it: the x-coordinate of the
    first key that differs by byte comparison from [pubkeys[0]], and zero if
    there is none. *)
Definition second_pk_x_spec (pk0 : bytes) (rest : list bytes) : Z :=
  match find (differs_from pk0) rest with
  | Some k =>
      match secp256k1_xonly_pubkey_load cfg k with
      | Some pt => x pt
      | None => 0
      end
  | None => 0
  end.

(** The coefficient as the specification words it: TaggedHash("KeyAgg
    coefficient", pk_hash || x) reduced modulo the group order. *)
Definition coefficient_hash_spec (hash : bytes) (fx : Z) : Z :=
  be_decode (tagged_hash_spec "KeyAgg coefficient"%string
               (firstn 32 hash ++ be_encode 32 fx)) mod order_n cfg.

Lemma find_second_pk_x_eq (pk0 : bytes) (rest : list bytes) :
  find_second_pk_x cfg pk0 rest =
  match find (differs_from pk0) rest with
  | Some k => option_map x (secp256k1_xonly_pubkey_load cfg k)
  | None => Some 0
  end.
Proof.
  induction rest as [|k l IH]; [reflexivity|].
  cbn [find_second_pk_x find]. unfold differs_from at 1.
  destruct (negb _); [|exact IH].
  now destruct (secp256k1_xonly_pubkey_load cfg k).
Qed.

Lemma find_second_pk_x_spec (pk0 : bytes) (rest : list bytes) (second : Z) :
  find_second_pk_x cfg pk0 rest = Some second ->
  second = second_pk_x_spec pk0 rest.
Proof.
  rewrite find_second_pk_x_eq. unfold second_pk_x_spec.
  destruct (find (differs_from pk0) rest) as [k|]; [|congruence].
  destruct (secp256k1_xonly_pubkey_load cfg k); cbn; congruence.
Qed.

Lemma find_second_pk_x_loads (pk0 : bytes) (rest : list bytes) :
  Forall (key_loads cfg) rest -> find_second_pk_x cfg pk0 rest <> None.
Proof.
  induction rest as [|k l IH]; intros F; [discriminate|].
  inversion F as [|? ? Hk Hl]; subst. cbn [find_second_pk_x].
  destruct (negb _); [|now apply IH].
  unfold key_loads in Hk.
  destruct (secp256k1_xonly_pubkey_load cfg k); congruence.
Qed.

Lemma loaded_x_nonzero (k : bytes) (pt : secp256k1_ge) :
  secp256k1_xonly_pubkey_load cfg k = Some pt -> x pt <> 0.
Proof.
  unfold secp256k1_xonly_pubkey_load, secp256k1_pubkey_load, secp256k1_fe_is_zero.
  set (ge := if ge_storage_64 cfg then _ else _).
  destruct (Z.eqb_spec (x ge) 0); [discriminate|].
  intros H; inversion H; subst. assumption.
Qed.

Lemma fe_cmp_var_eq (a b : Z) : (secp256k1_fe_cmp_var a b =? 0) = (a =? b).
Proof.
  unfold secp256k1_fe_cmp_var. rewrite (Z.eqb_compare a b).
  now destruct (a ?= b).
Qed.

Lemma keyaggcoef_internal_eq (hash : bytes) (fx second : Z) :
  secp256k1_musig_keyaggcoef_internal cfg hash fx second =
  if fx =? second then 1 else coefficient_hash_spec hash fx.
Proof.
  unfold secp256k1_musig_keyaggcoef_internal. rewrite fe_cmp_var_eq.
  destruct (fx =? second); [reflexivity|].
  unfold coefficient_hash_spec, secp256k1_scalar_set_b32, secp256k1_fe_get_b32.
  cbn [fst].
  pose proof (keyaggcoef_chunks sha256_uninit
                [firstn 32 hash; firstn 32 (be_encode 32 fx)] eq_refl) as H.
  cbn [write_all fold_left concat] in H. rewrite app_nil_r in H.
  rewrite H.
  rewrite (firstn_all2 (be_encode 32 fx)) by (rewrite length_be_encode; lia).
  rewrite firstn_all2 by (rewrite tagged_hash_length; lia).
  reflexivity.
Qed.


Lemma some_key_fails_iff (pks : list bytes) :
  Exists (fun k => secp256k1_xonly_pubkey_load cfg k = None) pks <->
  ~ Forall (key_loads cfg) pks.
Proof.
  induction pks as [|k l IH].
  - split; [intros H; inversion H|intros H; exfalso; apply H; constructor].
  - split.
    + intros H F. inversion F as [|? ? Hk Hl]; subst.
      inversion H as [? ? Hn|? ? Hn]; subst; [now apply Hk|].
      now apply IH in Hn.
    + intros H.
      destruct (secp256k1_xonly_pubkey_load cfg k) as [pt|] eqn:E.
      * apply Exists_cons_tl, IH. intros F. apply H. constructor; [|exact F].
        unfold key_loads. congruence.
      * now apply Exists_cons_hd.
Qed.

Lemma compute_pk_hash_loads (pks : list bytes) :
  secp256k1_musig_compute_pk_hash cfg pks <> None <-> Forall (key_loads cfg) pks.
Proof.
  rewrite compute_pk_hash_eq, <- serialized_keys_loads.
  destruct (serialized_keys cfg pks); split; congruence.
Qed.

(** C5. A call with a non-NULL key array of at least one key returns 0
    exactly when one of the keys does not load; a call with no keys returns
    0; and when all keys load and the aggregate is the point at infinity the
    run ends in the assertion of line 231 instead of returning 0. *)
Theorem pubkey_agg_fails_iff (pk0 : bytes) (rest : list bytes) (m : mem) :
  let r := snd (secp256k1_musig_pubkey_agg cfg (Some (pk0 :: rest)) m) in
  (r = Ok 0 <->
   Exists (fun k => secp256k1_xonly_pubkey_load cfg k = None) (pk0 :: rest)) /\
  snd (secp256k1_musig_pubkey_agg cfg (Some []) m) = Ok 0 /\
  (r = Ok 0 \/ r = Ok 1 \/ r = Violated VC_agg_infinity) /\
  (forall second hash,
     find_second_pk_x cfg pk0 rest = Some second ->
     secp256k1_musig_compute_pk_hash cfg (pk0 :: rest) = Some hash ->
     (infinity (agg_point cfg hash second (pk0 :: rest)) = true <->
      r = Violated VC_agg_infinity)).
Proof.
  cbn zeta. rewrite !pubkey_agg_eq. unfold failed. cbn [snd].
  rewrite some_key_fails_iff.
  pose proof (compute_pk_hash_loads (pk0 :: rest)) as Hh.
  pose proof (find_second_pk_x_loads pk0 rest) as Hs.
  destruct (secp256k1_musig_compute_pk_hash cfg (pk0 :: rest)) as [hash|].
  - assert (F : Forall (key_loads cfg) (pk0 :: rest)) by (apply Hh; discriminate).
    inversion F as [|? ? _ Fr]; subst.
    destruct (find_second_pk_x cfg pk0 rest) as [second|];
      [|exfalso; now apply Hs].
    cbn zeta. destruct (infinity _) eqn:Einf; cbn [snd].
    + split; [split; [discriminate|intros H; now exfalso]|].
      split; [reflexivity|]. split; [now right; right|].
      intros s0 h0 E1 E2. inversion E1; inversion E2; subst.
      rewrite Einf. tauto.
    + split; [split; [discriminate|intros H; now exfalso]|].
      split; [reflexivity|]. split; [now right; left|].
      intros s0 h0 E1 E2. inversion E1; inversion E2; subst.
      rewrite Einf. split; discriminate.
  - assert (N : ~ Forall (key_loads cfg) (pk0 :: rest)).
    { intros F. apply Hh in F. congruence. }
    destruct (find_second_pk_x cfg pk0 rest); cbn [snd].
    all: split; [split; [intros _; exact N|reflexivity]|].
    all: split; [reflexivity|]; split; [now left|].
    all: intros; discriminate.
Qed.

(** C4. After a successful aggregation of the keys [pk0 :: rest] into a
    non-NULL cache, the 32 bytes of the cache at offset 68 are the
    big-endian [second_pk_x]: the x-coordinate of the first key of [rest]
    whose 64 bytes differ from those of [pk0], and zero when no key
    differs. Zero is never the x-coordinate of a key that loads, and the
    value is a function of the list of keys alone, with no condition on
    duplicates. *)
Theorem pubkey_agg_second_pk_x (pk0 : bytes) (rest : list bytes) (m m' : mem)
    (cache : bytes) :
  m_cache m = Some cache ->
  secp256k1_musig_pubkey_agg cfg (Some (pk0 :: rest)) m = (m', Ok 1) ->
  (exists data,
     m_cache m' = Some data /\ length data = 165%nat /\
     sub 68 32 data = secp256k1_fe_get_b32 (second_pk_x_spec pk0 rest)) /\
  (find (differs_from pk0) rest = None -> second_pk_x_spec pk0 rest = 0) /\
  (forall k pt, secp256k1_xonly_pubkey_load cfg k = Some pt -> x pt <> 0).
Proof.
  intros Hc. rewrite pubkey_agg_eq. unfold failed. intros H.
  split; [|split].
  - destruct (find_second_pk_x cfg pk0 rest) as [second|] eqn:Es;
      [|inversion H].
    destruct (secp256k1_musig_compute_pk_hash cfg (pk0 :: rest)) as [hash|] eqn:Eh;
      [|inversion H].
    cbn zeta in H. destruct (infinity _); [inversion H|].
    inversion H; subst m'. cbn [m_cache]. rewrite Hc. cbn [stored].
    eexists. split; [reflexivity|].
    apply find_second_pk_x_spec in Es. subst second.
    assert (Lh : length hash = 32%nat).
    { rewrite compute_pk_hash_eq in Eh.
      destruct (serialized_keys cfg (pk0 :: rest)); [|discriminate Eh].
      apply Some_inj in Eh. rewrite <- Eh. apply tagged_hash_length. }
    unfold cache_bytes, agg_cache.
    cbn [pk second_pk_x pk_hash internal_key_parity tweak].
    destruct (cache_layout (point_bytes cfg (agg_point cfg hash
                              (second_pk_x_spec pk0 rest) (pk0 :: rest)))
                (secp256k1_fe_get_b32 (second_pk_x_spec pk0 rest))
                (firstn 32 hash) (secp256k1_scalar_get_b32 0) (byte_of_Z 0))
      as (L & _ & _ & S & _).
    + apply point_bytes_length.
    + apply length_be_encode.
    + rewrite length_firstn. lia.
    + apply length_be_encode.
    + split; [exact L|exact S].
  - intros N. unfold second_pk_x_spec. now rewrite N.
  - apply loaded_x_nonzero.
Qed.

End Aggregation.

(** ** The point codec round-trips, and is never handed the point at infinity *)

Lemma ge_eta (a : secp256k1_ge) :
  a = {| x := x a; y := y a; infinity := infinity a |}.
Proof. now destruct a. Qed.

(** C9. Saving a finite point with reduced coordinates and loading the 64
    bytes gives the point back. Saving the point at infinity violates an
    assertion (it is not a return value), and no run of
    [secp256k1_musig_pubkey_agg], [secp256k1_musig_pubkey_get] or
    [secp256k1_musig_pubkey_tweak_add] violates an assertion of the codec:
    the only assertion a run can end in is the one of line 231, which comes
    before the aggregate point is saved. *)
Theorem point_save_load_roundtrip (cfg : config) (a : secp256k1_ge) :
  0 < field_p cfg <= 2 ^ 256 ->
  ge_canonical cfg a ->
  (exists data a',
     secp256k1_point_save cfg a = Ok (data, a') /\ length data = 64%nat /\
     secp256k1_point_load cfg data = a) /\
  (forall b, infinity b = true ->
     secp256k1_point_save cfg b = Violated VC_ge_to_storage \/
     secp256k1_point_save cfg b = Violated VC_point_save) /\
  (forall pubkeys m c,
     snd (secp256k1_musig_pubkey_agg cfg pubkeys m) = Violated c ->
     c = VC_agg_infinity) /\
  (forall m c, snd (secp256k1_musig_pubkey_get cfg m) <> Violated c) /\
  (forall tweak32 m c,
     snd (secp256k1_musig_pubkey_tweak_add cfg tweak32 m) <> Violated c).
Proof.
  intros Hp Hc. split; [|split; [|split; [|split]]].
  - pose proof Hc as (Hi & _).
    destruct (point_save_finite cfg a Hi) as (a' & E & _ & _).
    exists (point_bytes cfg a), a'. split; [exact E|].
    split; [apply point_bytes_length|].
    rewrite (point_load_bytes cfg Hp a Hi). now apply ge_normalize_canonical.
  - intros b Hb.
    unfold secp256k1_point_save, secp256k1_ge_to_storage,
      secp256k1_ge_is_infinity, VERIFY_CHECK, rbind.
    rewrite Hb. cbn [negb]. destruct (ge_storage_64 cfg); [now left|now right].
  - intros pubkeys m c. rewrite pubkey_agg_eq. unfold failed.
    destruct pubkeys as [[|pk0 rest]|]; cbn [snd]; try discriminate.
    destruct (find_second_pk_x cfg pk0 rest); [|discriminate].
    destruct (secp256k1_musig_compute_pk_hash cfg (pk0 :: rest)); [|discriminate].
    cbn zeta. destruct (infinity _); cbn [snd]; [|discriminate].
    intros H. now apply (f_equal (fun r => match r with
                                           | Violated v => v
                                           | Ok _ => VC_agg_infinity
                                           end)) in H.
  - intros m c. rewrite pubkey_get_eq. unfold failed.
    destruct (m_pubkey m); [|discriminate].
    destruct (m_cache m) as [cache|]; [|discriminate].
    destruct (secp256k1_keyagg_cache_load cfg cache); discriminate.
  - intros tweak32 m c. rewrite tweak_add_eq. unfold failed.
    destruct (m_cache m) as [cache|]; [|discriminate].
    destruct tweak32 as [tw|]; [|discriminate].
    destruct (secp256k1_keyagg_cache_load cfg cache) as [ci|]; [|discriminate].
    destruct (secp256k1_scalar_set_b32 cfg tw) as [t ov]. cbn zeta.
    destruct (ov || _); discriminate.
Qed.

Lemma point_save_load_roundtrip_witness :
  0 < field_p secp256k1 <= 2 ^ 256 /\
  ge_canonical secp256k1 six_G /\
  ((exists data a',
      secp256k1_point_save secp256k1 six_G = Ok (data, a') /\
      length data = 64%nat /\
      secp256k1_point_load secp256k1 data = six_G) /\
   (forall b, infinity b = true ->
      secp256k1_point_save secp256k1 b = Violated VC_ge_to_storage \/
      secp256k1_point_save secp256k1 b = Violated VC_point_save) /\
   (forall pubkeys m c,
      snd (secp256k1_musig_pubkey_agg secp256k1 pubkeys m) = Violated c ->
      c = VC_agg_infinity) /\
   (forall m c, snd (secp256k1_musig_pubkey_get secp256k1 m) <> Violated c) /\
   (forall tweak32 m c,
      snd (secp256k1_musig_pubkey_tweak_add secp256k1 tweak32 m) <> Violated c)).
Proof.
  assert (Hp : 0 < field_p secp256k1 <= 2 ^ 256)
    by (vm_compute; split; [reflexivity|discriminate]).
  assert (Hc : ge_canonical secp256k1 six_G).
  { unfold ge_canonical. vm_compute.
    repeat split; try reflexivity; discriminate. }
  split; [exact Hp|]. split; [exact Hc|].
  exact (point_save_load_roundtrip secp256k1 six_G Hp Hc).
Defined.

(** ** The group of the curve *)

(** The points of the curve y^2 = x^3 + b with reduced coordinates, and the
    point at infinity as the library sets it. *)
Definition on_curveb (cfg : config) (a : secp256k1_ge) : bool :=
  if infinity a then (x a =? 0) && (y a =? 0)
  else
    (0 <=? x a) && (x a <? field_p cfg) && (0 <=? y a) && (y a <? field_p cfg) &&
    ((y a * y a) mod field_p cfg =?
     (x a * x a * x a + curve_b cfg) mod field_p cfg).

Definition on_curve (cfg : config) (a : secp256k1_ge) : Prop :=
  on_curveb cfg a = true.

(** What the module relies on from the group engine: the sizes fit the
    32-byte encodings, and the points of the curve form a commutative group
    in which the generator has the order [order_n]. *)
Record curve_group (cfg : config) : Prop := mk_curve_group {
  cg_p : 0 < field_p cfg <= 2 ^ 256;
  cg_n : 0 < order_n cfg <= 2 ^ 256;
  cg_generator : on_curve cfg (generator cfg);
  cg_order : ge_mul cfg (order_n cfg) (generator cfg) = secp256k1_ge_set_infinity;
  cg_add_closed : forall a b,
      on_curve cfg a -> on_curve cfg b -> on_curve cfg (secp256k1_ge_add cfg a b);
  cg_neg_closed : forall a, on_curve cfg a -> on_curve cfg (secp256k1_ge_neg cfg a);
  cg_add_comm : forall a b,
      on_curve cfg a -> on_curve cfg b ->
      secp256k1_ge_add cfg a b = secp256k1_ge_add cfg b a;
  cg_add_assoc : forall a b c,
      on_curve cfg a -> on_curve cfg b -> on_curve cfg c ->
      secp256k1_ge_add cfg (secp256k1_ge_add cfg a b) c =
      secp256k1_ge_add cfg a (secp256k1_ge_add cfg b c);
  cg_add_neg : forall a,
      on_curve cfg a ->
      secp256k1_ge_add cfg a (secp256k1_ge_neg cfg a) = secp256k1_ge_set_infinity
}.

Section Group.

Variable cfg : config.
Hypothesis CG : curve_group cfg.

Local Abbreviation add := (secp256k1_ge_add cfg).
Local Abbreviation neg := (secp256k1_ge_neg cfg).
Local Abbreviation inf := secp256k1_ge_set_infinity.
Local Abbreviation G := (generator cfg).
Local Abbreviation n := (order_n cfg).

Lemma on_curve_inf : on_curve cfg inf.
Proof. reflexivity. Qed.

Lemma on_curve_infinite (a : secp256k1_ge) :
  on_curve cfg a -> infinity a = true -> a = inf.
Proof.
  unfold on_curve, on_curveb. intros H Hi. rewrite Hi in H.
  apply andb_true_iff in H. destruct H as [Hx Hy].
  apply Z.eqb_eq in Hx, Hy. destruct a as [ax ay ai]. cbn in *. now subst.
Qed.

Lemma on_curve_canonical (a : secp256k1_ge) :
  on_curve cfg a -> infinity a = false -> ge_canonical cfg a.
Proof.
  unfold on_curve, on_curveb, ge_canonical. intros H Hi. rewrite Hi in H.
  repeat (apply andb_true_iff in H; destruct H as [H ?]).
  split; [exact Hi|]. lia.
Qed.

Lemma add_inf_l (a : secp256k1_ge) : add inf a = a.
Proof. reflexivity. Qed.

Lemma add_inf_r (a : secp256k1_ge) : on_curve cfg a -> add a inf = a.
Proof.
  intros H. unfold secp256k1_ge_add. destruct (infinity a) eqn:Hi.
  - symmetry. now apply on_curve_infinite.
  - reflexivity.
Qed.

Lemma add_neg_l (a : secp256k1_ge) : on_curve cfg a -> add (neg a) a = inf.
Proof.
  intros H. rewrite (cg_add_comm cfg CG) by (try apply (cg_neg_closed cfg CG); assumption).
  now apply (cg_add_neg cfg CG).
Qed.

Lemma neg_unique (a b : secp256k1_ge) :
  on_curve cfg a -> on_curve cfg b -> add a b = inf -> b = neg a.
Proof.
  intros Ha Hb E.
  pose proof (cg_neg_closed cfg CG a Ha) as Hn.
  rewrite <- (add_inf_l b), <- (add_neg_l a Ha).
  rewrite (cg_add_assoc cfg CG) by assumption.
  rewrite E. now apply add_inf_r.
Qed.

Lemma neg_neg (a : secp256k1_ge) : on_curve cfg a -> neg (neg a) = a.
Proof.
  intros Ha. symmetry. apply neg_unique;
    [now apply (cg_neg_closed cfg CG)|assumption|now apply add_neg_l].
Qed.

Lemma neg_add (a b : secp256k1_ge) :
  on_curve cfg a -> on_curve cfg b -> neg (add a b) = add (neg a) (neg b).
Proof.
  intros Ha Hb.
  pose proof (cg_neg_closed cfg CG a Ha) as Hna.
  pose proof (cg_neg_closed cfg CG b Hb) as Hnb.
  pose proof (cg_add_closed cfg CG a b Ha Hb) as Hab.
  pose proof (cg_add_closed cfg CG _ _ Hna Hnb) as Hnab.
  symmetry. apply neg_unique; try assumption.
  rewrite (cg_add_assoc cfg CG) by assumption.
  rewrite <- (cg_add_assoc cfg CG b) by assumption.
  rewrite (cg_add_comm cfg CG b (neg a)) by assumption.
  rewrite (cg_add_assoc cfg CG (neg a)) by assumption.
  rewrite (cg_add_neg cfg CG b Hb).
  rewrite (add_inf_r (neg a) Hna).
  now apply (cg_add_neg cfg CG).
Qed.

Lemma neg_inf : neg inf = inf.
Proof.
  unfold secp256k1_ge_neg, secp256k1_fe_negate. cbn [x y infinity].
  now rewrite Z.mod_0_l by (pose proof (cg_p cfg CG); lia).
Qed.

(** Scalar multiplication as repeated addition. *)
Fixpoint nmul (k : nat) (a : secp256k1_ge) : secp256k1_ge :=
  match k with
  | O => inf
  | S k' => add (nmul k' a) a
  end.

Lemma nmul_on_curve (k : nat) (a : secp256k1_ge) :
  on_curve cfg a -> on_curve cfg (nmul k a).
Proof.
  intros Ha. induction k as [|k IH]; [apply on_curve_inf|].
  cbn [nmul]. now apply (cg_add_closed cfg CG).
Qed.

Lemma nmul_add (j k : nat) (a : secp256k1_ge) :
  on_curve cfg a -> nmul (j + k) a = add (nmul j a) (nmul k a).
Proof.
  intros Ha. induction k as [|k IH].
  - rewrite Nat.add_0_r. cbn [nmul]. symmetry. apply add_inf_r.
    now apply nmul_on_curve.
  - rewrite Nat.add_succ_r. cbn [nmul]. rewrite IH.
    apply (cg_add_assoc cfg CG); try assumption; now apply nmul_on_curve.
Qed.

Lemma ge_mul_pos_nmul (k : positive) (a : secp256k1_ge) :
  on_curve cfg a -> ge_mul_pos cfg k a = nmul (Pos.to_nat k) a.
Proof.
  intros Ha. induction k as [k IH|k IH|].
  - cbn [ge_mul_pos]. rewrite IH, Pos2Nat.inj_xI.
    cbn [nmul]. f_equal.
    replace (2 * Pos.to_nat k)%nat with (Pos.to_nat k + Pos.to_nat k)%nat by lia.
    symmetry. now apply nmul_add.
  - cbn [ge_mul_pos]. rewrite IH, Pos2Nat.inj_xO.
    replace (2 * Pos.to_nat k)%nat with (Pos.to_nat k + Pos.to_nat k)%nat by lia.
    symmetry. now apply nmul_add.
  - reflexivity.
Qed.

Lemma ge_mul_nmul (k : Z) (a : secp256k1_ge) :
  on_curve cfg a -> 0 <= k -> ge_mul cfg k a = nmul (Z.to_nat k) a.
Proof.
  intros Ha Hk. destruct k as [|k|k]; [reflexivity| |lia].
  cbn [ge_mul Z.to_nat]. now apply ge_mul_pos_nmul.
Qed.

Lemma ge_mul_on_curve (k : Z) (a : secp256k1_ge) :
  on_curve cfg a -> on_curve cfg (ge_mul cfg k a).
Proof.
  intros Ha. destruct k as [|k|k]; try apply on_curve_inf.
  cbn [ge_mul]. rewrite ge_mul_pos_nmul by assumption. now apply nmul_on_curve.
Qed.

Lemma ge_mul_add (j k : Z) (a : secp256k1_ge) :
  on_curve cfg a -> 0 <= j -> 0 <= k ->
  ge_mul cfg (j + k) a = add (ge_mul cfg j a) (ge_mul cfg k a).
Proof.
  intros Ha Hj Hk. rewrite !ge_mul_nmul by (assumption || lia).
  rewrite Z2Nat.inj_add by assumption. now apply nmul_add.
Qed.

Lemma nmul_order (q : nat) : nmul (q * Z.to_nat n) G = inf.
Proof.
  pose proof (cg_generator cfg CG) as HG.
  pose proof (cg_n cfg CG) as Hn.
  induction q as [|q IH]; [reflexivity|].
  cbn [Nat.mul]. rewrite nmul_add, IH by assumption.
  rewrite <- ge_mul_nmul by (assumption || lia).
  now rewrite (cg_order cfg CG).
Qed.

(** Scalars act modulo the order of the generator. *)
Lemma ge_mul_mod (k : Z) :
  0 <= k -> ge_mul cfg (k mod n) G = ge_mul cfg k G.
Proof.
  intros Hk.
  pose proof (cg_generator cfg CG) as HG.
  pose proof (cg_n cfg CG) as Hn.
  pose proof (Z.mod_pos_bound k n ltac:(lia)) as Hm.
  rewrite (Z.div_mod k n) at 2 by lia.
  assert (Hq : 0 <= k / n) by (apply Z.div_pos; lia).
  rewrite ge_mul_add by (assumption || nia).
  rewrite (ge_mul_nmul (n * (k / n))) by (assumption || nia).
  rewrite Z2Nat.inj_mul, Nat.mul_comm by lia.
  rewrite nmul_order. reflexivity.
Qed.

Lemma ge_mul_scalar_add (a b : Z) :
  0 <= a -> 0 <= b ->
  ge_mul cfg (secp256k1_scalar_add cfg a b) G =
  add (ge_mul cfg a G) (ge_mul cfg b G).
Proof.
  intros Ha Hb. unfold secp256k1_scalar_add.
  rewrite ge_mul_mod by lia.
  apply ge_mul_add; [apply (cg_generator cfg CG)|assumption..].
Qed.

Lemma ge_mul_scalar_negate (a : Z) :
  0 <= a < n ->
  ge_mul cfg (secp256k1_scalar_negate cfg a) G = neg (ge_mul cfg a G).
Proof.
  intros Ha. unfold secp256k1_scalar_negate.
  pose proof (cg_generator cfg CG) as HG.
  rewrite ge_mul_mod by lia.
  apply neg_unique; try now apply ge_mul_on_curve.
  rewrite <- ge_mul_add by (assumption || lia).
  replace (a + (n - a)) with n by lia.
  apply (cg_order cfg CG).
Qed.

(** *** Reading back a saved cache *)

Lemma parity_byte (v : Z) :
  v = 0 \/ v = 1 -> Z.land (byte_to_Z (byte_of_Z v)) 1 = v.
Proof. intros [->| ->]; reflexivity. Qed.

Lemma cache_load_bytes (ci : secp256k1_keyagg_cache_internal) :
  on_curve cfg (pk ci) -> infinity (pk ci) = false ->
  (32 <= length (pk_hash ci))%nat ->
  internal_key_parity ci = 0 \/ internal_key_parity ci = 1 ->
  0 <= tweak ci < n ->
  length (cache_bytes cfg ci) = 165%nat /\
  sub 4 64 (cache_bytes cfg ci) = point_bytes cfg (pk ci) /\
  exists ci',
    secp256k1_keyagg_cache_load cfg (cache_bytes cfg ci) = Some ci' /\
    pk ci' = pk ci /\ internal_key_parity ci' = internal_key_parity ci /\
    tweak ci' = tweak ci.
Proof.
  intros Hon Hfin Hh Hpar Ht.
  pose proof (cg_p cfg CG) as Hp. pose proof (cg_n cfg CG) as Hn.
  unfold cache_bytes.
  destruct (cache_layout (point_bytes cfg (pk ci))
              (secp256k1_fe_get_b32 (second_pk_x ci))
              (firstn 32 (pk_hash ci)) (secp256k1_scalar_get_b32 (tweak ci))
              (byte_of_Z (internal_key_parity ci)))
    as (L & Lm & Lpt & Lsx & Lh & Lpb & Ltw).
  - apply point_bytes_length.
  - apply length_be_encode.
  - rewrite length_firstn. lia.
  - apply length_be_encode.
  - split; [exact L|]. split; [exact Lpt|].
    unfold secp256k1_keyagg_cache_load.
    rewrite Lm, bytes_eqb_refl. cbn [negb].
    eexists. split; [reflexivity|]. cbn [pk internal_key_parity tweak].
    rewrite Lpt, Lpb, Ltw. split; [|split].
    + rewrite (point_load_bytes cfg Hp _ Hfin).
      apply ge_normalize_canonical. now apply on_curve_canonical.
    + now apply parity_byte.
    + unfold secp256k1_scalar_set_b32, secp256k1_scalar_get_b32. cbn [fst].
      rewrite firstn_all2 by (rewrite length_be_encode; lia).
      rewrite be_decode_encode, pow_256_32.
      rewrite (Z.mod_small (tweak ci) (2 ^ 256)) by lia.
      now apply Z.mod_small.
Qed.

Lemma cache_load_hash_length (cache : bytes) (ci : secp256k1_keyagg_cache_internal) :
  length cache = 165%nat ->
  secp256k1_keyagg_cache_load cfg cache = Some ci ->
  length (pk_hash ci) = 32%nat.
Proof.
  intros L. unfold secp256k1_keyagg_cache_load.
  destruct (negb _); [discriminate|]. intros E. apply Some_inj in E.
  subst ci. cbn [pk_hash]. apply length_sub. lia.
Qed.

Lemma cache_load_tweak_range (cache : bytes) (ci : secp256k1_keyagg_cache_internal) :
  secp256k1_keyagg_cache_load cfg cache = Some ci -> 0 <= tweak ci < n.
Proof.
  unfold secp256k1_keyagg_cache_load.
  destruct (negb _); [discriminate|]. intros E. apply Some_inj in E.
  subst ci. cbn [tweak fst secp256k1_scalar_set_b32].
  apply Z.mod_pos_bound. pose proof (cg_n cfg CG). lia.
Qed.

Lemma cache_load_parity_range (cache : bytes) (ci : secp256k1_keyagg_cache_internal) :
  secp256k1_keyagg_cache_load cfg cache = Some ci ->
  internal_key_parity ci = 0 \/ internal_key_parity ci = 1.
Proof.
  unfold secp256k1_keyagg_cache_load.
  destruct (negb _); [discriminate|]. intros E. apply Some_inj in E.
  subst ci. cbn [internal_key_parity].
  assert (L : forall v, Z.land v 1 = v mod 2)
    by (intros v; exact (Z.land_ones v 1 ltac:(lia))).
  rewrite L.
  pose proof (Z.mod_pos_bound (byte_to_Z (nth 132 cache x00)) 2). lia.
Qed.

(** *** One tweak *)

Lemma even_y_point_on_curve (a : secp256k1_ge) :
  on_curve cfg a -> on_curve cfg (even_y_point cfg a).
Proof.
  intros H. unfold even_y_point.
  destruct (secp256k1_fe_is_odd (y a)); [now apply (cg_neg_closed cfg CG)|exact H].
Qed.

Lemma tweak_apply_on_curve (ci : secp256k1_keyagg_cache_internal) (t : Z) :
  on_curve cfg (pk ci) -> on_curve cfg (pk (tweak_apply cfg ci t)).
Proof.
  intros H. unfold tweak_apply. cbn [pk]. rewrite ecmult_one.
  apply (cg_add_closed cfg CG).
  - now apply even_y_point_on_curve.
  - apply ge_mul_on_curve, (cg_generator cfg CG).
Qed.

(** The sign that the recorded parity stands for. *)
Definition signed (par : Z) (q : secp256k1_ge) : secp256k1_ge :=
  if par =? 1 then neg q else q.

(** The bookkeeping of lines 280-285 keeps
    pk = (+/-)Q + tweak*G, the sign being the recorded parity. *)
Lemma tweak_apply_invariant (Q : secp256k1_ge)
    (ci : secp256k1_keyagg_cache_internal) (t : Z) :
  on_curve cfg Q -> 0 <= t ->
  internal_key_parity ci = 0 \/ internal_key_parity ci = 1 ->
  0 <= tweak ci < n ->
  pk ci = add (signed (internal_key_parity ci) Q) (ge_mul cfg (tweak ci) G) ->
  let ci' := tweak_apply cfg ci t in
  (internal_key_parity ci' = 0 \/ internal_key_parity ci' = 1) /\
  0 <= tweak ci' < n /\
  pk ci' = add (signed (internal_key_parity ci') Q) (ge_mul cfg (tweak ci') G).
Proof.
  intros HQ Ht Hpar Hacc Hpk. cbn zeta.
  pose proof (cg_generator cfg CG) as HG.
  pose proof (cg_n cfg CG) as Hn.
  pose proof (cg_neg_closed cfg CG Q HQ) as HnQ.
  assert (HS : on_curve cfg (signed (internal_key_parity ci) Q)).
  { unfold signed. now destruct (_ =? 1). }
  pose proof (ge_mul_on_curve (tweak ci) G HG) as Hm.
  pose proof (ge_mul_on_curve t G HG) as Hmt.
  unfold tweak_apply. cbn [pk internal_key_parity tweak]. rewrite ecmult_one.
  split; [|split].
  - destruct (secp256k1_fe_is_odd _); [|exact Hpar].
    destruct Hpar as [-> | ->]; [now right|now left].
  - unfold secp256k1_scalar_add. apply Z.mod_pos_bound. lia.
  - destruct (secp256k1_fe_is_odd (y (pk ci))).
    + rewrite ge_mul_scalar_add.
      2:{ unfold secp256k1_scalar_negate.
          pose proof (Z.mod_pos_bound (n - tweak ci) n). lia. }
      2: exact Ht.
      rewrite ge_mul_scalar_negate by exact Hacc.
      rewrite Hpk, neg_add by assumption.
      rewrite (cg_add_assoc cfg CG);
        try assumption; try now apply (cg_neg_closed cfg CG).
      f_equal. unfold signed.
      destruct Hpar as [-> | ->]; cbn; [reflexivity|now apply neg_neg].
    + rewrite ge_mul_scalar_add by lia.
      rewrite Hpk. now apply (cg_add_assoc cfg CG).
Qed.

(** *** A sequence of tweaks *)

(** The point held by the cache of a memory. *)
Definition cached_point (m : mem) : secp256k1_ge :=
  match m_cache m with
  | Some cache => secp256k1_point_load cfg (sub 4 64 cache)
  | None => inf
  end.

(** The memory after the tweaks [ts], each of which must return 1. *)
Fixpoint tweak_all (ts : list bytes) (m : mem) : option mem :=
  match ts with
  | [] => Some m
  | tw :: l =>
      match secp256k1_musig_pubkey_tweak_add cfg (Some tw) m with
      | (m', Ok 1) => tweak_all l m'
      | _ => None
      end
  end.

(** The memories after the first, the second, ... tweak. *)
Fixpoint tweak_trace (ts : list bytes) (m : mem) : list mem :=
  match ts with
  | [] => []
  | tw :: l =>
      let m' := fst (secp256k1_musig_pubkey_tweak_add cfg (Some tw) m) in
      m' :: tweak_trace l m'
  end.

(** t_1 + ... + t_k, the tweaks read as big-endian numbers. *)
Definition tweak_sum (ts : list bytes) : Z :=
  fold_right (fun tw acc => be_decode (firstn 32 tw) + acc) 0 ts.

Definition even_y_cached (m : mem) : Prop :=
  secp256k1_fe_is_odd (y (cached_point m)) = false.

Lemma tweak_add_success (tw : bytes) (m m' : mem) :
  secp256k1_musig_pubkey_tweak_add cfg (Some tw) m = (m', Ok 1) ->
  exists cache ci,
    m_cache m = Some cache /\
    secp256k1_keyagg_cache_load cfg cache = Some ci /\
    0 <= be_decode (firstn 32 tw) < n /\
    let ci' := tweak_apply cfg ci (be_decode (firstn 32 tw)) in
    infinity (pk ci') = false /\
    m' = {| m_pubkey := stored (m_pubkey m) (point_bytes cfg (pk ci'));
            m_cache := Some (cache_bytes cfg ci') |}.
Proof.
  rewrite tweak_add_eq. unfold failed.
  destruct (m_cache m) as [cache|]; [|intros H; inversion H].
  destruct (secp256k1_keyagg_cache_load cfg cache) as [ci|] eqn:El;
    [|intros H; inversion H].
  unfold secp256k1_scalar_set_b32. cbn zeta.
  destruct (Z.leb_spec n (be_decode (firstn 32 tw))) as [Hov|Hov]; cbn [orb];
    [intros H; inversion H|].
  pose proof (be_decode_range (firstn 32 tw)) as [Hr _].
  rewrite Z.mod_small by lia.
  destruct (infinity _) eqn:Einf; [intros H; inversion H|].
  intros H. exists cache, ci. split; [reflexivity|]. split; [exact El|].
  split; [lia|]. split; [exact Einf|]. now inversion H.
Qed.

(** The cache holds pk = (+/-)Q + tweak*G with the recorded sign and
    accumulated tweak. *)
Definition holds (Q : secp256k1_ge) (m : mem) : Prop :=
  exists cache ci,
    m_cache m = Some cache /\ length cache = 165%nat /\
    secp256k1_keyagg_cache_load cfg cache = Some ci /\
    on_curve cfg (pk ci) /\
    pk ci = add (signed (internal_key_parity ci) Q) (ge_mul cfg (tweak ci) G).

(** The cache holds pk = even_y(Q) + S*G. *)
Definition holds_sum (Q : secp256k1_ge) (S : Z) (m : mem) : Prop :=
  exists cache ci,
    m_cache m = Some cache /\ length cache = 165%nat /\
    secp256k1_keyagg_cache_load cfg cache = Some ci /\
    on_curve cfg (pk ci) /\ 0 <= S /\
    pk ci = add (even_y_point cfg Q) (ge_mul cfg S G).

Lemma tweak_add_saved (tw : bytes) (m m' : mem) (cache : bytes)
    (ci : secp256k1_keyagg_cache_internal) :
  m_cache m = Some cache -> length cache = 165%nat ->
  secp256k1_keyagg_cache_load cfg cache = Some ci ->
  on_curve cfg (pk ci) ->
  secp256k1_musig_pubkey_tweak_add cfg (Some tw) m = (m', Ok 1) ->
  let t := be_decode (firstn 32 tw) in
  let ci' := tweak_apply cfg ci t in
  0 <= t < n /\
  m_pubkey m' = stored (m_pubkey m) (point_bytes cfg (pk ci')) /\
  exists cache' ci'',
    m_cache m' = Some cache' /\ length cache' = 165%nat /\
    secp256k1_keyagg_cache_load cfg cache' = Some ci'' /\
    on_curve cfg (pk ci'') /\
    pk ci'' = pk ci' /\ internal_key_parity ci'' = internal_key_parity ci' /\
    tweak ci'' = tweak ci'.
Proof.
  intros Hc L El Hon H. cbn zeta.
  destruct (tweak_add_success tw m m' H) as (cache0 & ci0 & Hc0 & El0 & Ht & Hrest).
  cbn zeta in Hrest. destruct Hrest as (Hfin & Hm').
  rewrite Hc in Hc0. apply Some_inj in Hc0. subst cache0.
  rewrite El in El0. apply Some_inj in El0. subst ci0.
  split; [exact Ht|].
  set (ci' := tweak_apply cfg ci (be_decode (firstn 32 tw))) in *.
  assert (Hon' : on_curve cfg (pk ci')) by now apply tweak_apply_on_curve.
  destruct (cache_load_bytes ci') as (L' & _ & ci'' & El' & Epk & Epar & Etw).
  - exact Hon'.
  - exact Hfin.
  - subst ci'. unfold tweak_apply. cbn [pk_hash].
    rewrite (cache_load_hash_length cache ci L El). lia.
  - subst ci'. unfold tweak_apply. cbn [internal_key_parity].
    destruct (cache_load_parity_range cache ci El) as [-> | ->];
      destruct (secp256k1_fe_is_odd _); cbn; auto.
  - subst ci'. unfold tweak_apply. cbn [tweak]. unfold secp256k1_scalar_add.
    apply Z.mod_pos_bound. pose proof (cg_n cfg CG). lia.
  - subst m'. cbn [m_pubkey m_cache]. split; [reflexivity|].
    exists (cache_bytes cfg ci'), ci''. rewrite Epk.
    repeat split; assumption.
Qed.

Lemma holds_step (Q : secp256k1_ge) (tw : bytes) (m m' : mem) :
  on_curve cfg Q -> holds Q m ->
  secp256k1_musig_pubkey_tweak_add cfg (Some tw) m = (m', Ok 1) ->
  holds Q m'.
Proof.
  intros HQ (cache & ci & Hc & L & El & Hon & Hpk) H.
  destruct (tweak_add_saved tw m m' cache ci Hc L El Hon H)
    as (Ht & _ & cache' & ci'' & Hc' & L' & El' & Hon' & Epk & Epar & Etw).
  destruct (tweak_apply_invariant Q ci (be_decode (firstn 32 tw)) HQ)
    as (_ & _ & Hinv); try lia; try assumption.
  - exact (cache_load_parity_range cache ci El).
  - exact (cache_load_tweak_range cache ci El).
  - exists cache', ci''. rewrite Epk, Epar, Etw.
    repeat split; try assumption. now rewrite <- Epk.
Qed.

Lemma holds_all (Q : secp256k1_ge) (ts : list bytes) (m mk : mem) :
  on_curve cfg Q -> holds Q m -> tweak_all ts m = Some mk -> holds Q mk.
Proof.
  intros HQ. revert m. induction ts as [|tw l IH]; intros m Hm H.
  - cbn in H. apply Some_inj in H. now subst.
  - cbn [tweak_all] in H.
    destruct (secp256k1_musig_pubkey_tweak_add cfg (Some tw) m) as [m' r] eqn:E.
    destruct r as [[|[| |]|]|]; try discriminate H.
    apply (IH m'); [|exact H]. now apply (holds_step Q tw m m').
Qed.

Lemma cached_point_load (m : mem) (cache : bytes)
    (ci : secp256k1_keyagg_cache_internal) :
  m_cache m = Some cache ->
  secp256k1_keyagg_cache_load cfg cache = Some ci ->
  cached_point m = pk ci.
Proof.
  intros Hc El. unfold cached_point. rewrite Hc.
  symmetry. now apply cache_load_pk.
Qed.

Lemma holds_sum_step (Q : secp256k1_ge) (S : Z) (tw : bytes) (m m' : mem) :
  on_curve cfg Q -> holds_sum Q S m -> even_y_cached m ->
  secp256k1_musig_pubkey_tweak_add cfg (Some tw) m = (m', Ok 1) ->
  holds_sum Q (S + be_decode (firstn 32 tw)) m'.
Proof.
  intros HQ (cache & ci & Hc & L & El & Hon & HS & Hpk) Hev H.
  destruct (tweak_add_saved tw m m' cache ci Hc L El Hon H)
    as (Ht & _ & cache' & ci'' & Hc' & L' & El' & Hon' & Epk & _ & _).
  exists cache', ci''. repeat split; try assumption; try lia.
  rewrite Epk. unfold tweak_apply. cbn [pk]. rewrite ecmult_one.
  unfold even_y_cached in Hev. rewrite (cached_point_load m cache ci Hc El) in Hev.
  rewrite Hev, Hpk.
  pose proof (cg_generator cfg CG) as HG.
  rewrite (cg_add_assoc cfg CG);
    try now apply ge_mul_on_curve.
  - f_equal. symmetry. apply ge_mul_add; [assumption|lia..].
  - now apply even_y_point_on_curve.
Qed.

Lemma holds_sum_all (Q : secp256k1_ge) (ts : list bytes) (S : Z) (m mk : mem) :
  on_curve cfg Q -> holds_sum Q S m -> tweak_all ts m = Some mk ->
  Forall even_y_cached (removelast (m :: tweak_trace ts m)) ->
  holds_sum Q (S + tweak_sum ts) mk.
Proof.
  intros HQ. revert S m. induction ts as [|tw l IH]; intros S m Hm H F.
  - cbn in H. apply Some_inj in H. subst mk. cbn [tweak_sum fold_right].
    now rewrite Z.add_0_r.
  - cbn [tweak_all] in H. cbn [tweak_trace] in F.
    destruct (secp256k1_musig_pubkey_tweak_add cfg (Some tw) m) as [m' r] eqn:E.
    destruct r as [[|[| |]|]|]; try discriminate H.
    cbn [fst] in F.
    change (removelast (m :: m' :: tweak_trace l m'))
      with (m :: removelast (m' :: tweak_trace l m')) in F.
    inversion F as [|? ? Hev F']; subst.
    cbn [tweak_sum fold_right]. fold (tweak_sum l).
    rewrite Z.add_assoc.
    apply (IH _ m'); [|exact H|exact F'].
    now apply (holds_sum_step Q S tw m m').
Qed.

(** *** The aggregate key *)

(** A key object that holds a point of the curve. *)
Definition valid_key (k : bytes) : Prop :=
  exists pt, secp256k1_xonly_pubkey_load cfg k = Some pt /\ on_curve cfg pt.

Lemma key_term_on_curve (hash : bytes) (second : Z) (k : bytes) :
  valid_key k -> on_curve cfg (key_term cfg hash second k).
Proof.
  intros (pt & E & Hon). rewrite (key_term_loaded cfg hash second k pt E).
  unfold secp256k1_ecmult. apply (cg_add_closed cfg CG).
  - now apply ge_mul_on_curve.
  - apply ge_mul_on_curve, (cg_generator cfg CG).
Qed.

Lemma agg_sum_on_curve (hash : bytes) (second : Z) (pks : list bytes)
    (r : secp256k1_ge) :
  Forall valid_key pks -> on_curve cfg r ->
  on_curve cfg (agg_sum cfg hash second pks r).
Proof.
  revert r; induction pks as [|k l IH]; intros r F Hr; [exact Hr|].
  inversion F as [|? ? Hk Hl]; subst. rewrite agg_sum_cons.
  apply IH; [exact Hl|].
  apply (cg_add_closed cfg CG); [exact Hr|now apply key_term_on_curve].
Qed.

Lemma agg_point_on_curve (hash : bytes) (second : Z) (pks : list bytes) :
  Forall valid_key pks -> on_curve cfg (agg_point cfg hash second pks).
Proof.
  intros F. unfold agg_point. cbn zeta.
  pose proof (agg_sum_on_curve hash second pks inf F on_curve_inf) as Hq.
  set (q := agg_sum cfg hash second pks inf) in *.
  destruct (infinity q) eqn:Hi.
  - rewrite (on_curve_infinite q Hq Hi). reflexivity.
  - destruct (on_curve_canonical q Hq Hi) as (_ & _ & Hy).
    unfold secp256k1_fe_normalize_var. rewrite Z.mod_small by exact Hy.
    rewrite <- Hi, <- ge_eta. exact Hq.
Qed.

Lemma agg_success (pk0 : bytes) (rest : list bytes) (m0 m1 : mem) :
  Forall valid_key (pk0 :: rest) -> m_cache m0 <> None ->
  secp256k1_musig_pubkey_agg cfg (Some (pk0 :: rest)) m0 = (m1, Ok 1) ->
  on_curve cfg (cached_point m1) /\ holds (cached_point m1) m1 /\
  (m_pubkey m0 <> None -> m_pubkey m1 <> None) /\
  exists cache ci,
    m_cache m1 = Some cache /\ length cache = 165%nat /\
    secp256k1_keyagg_cache_load cfg cache = Some ci /\
    pk ci = cached_point m1 /\ internal_key_parity ci = 0 /\ tweak ci = 0.
Proof.
  intros F Hc. rewrite pubkey_agg_eq. unfold failed.
  destruct (find_second_pk_x cfg pk0 rest) as [second|];
    [|intros H; inversion H].
  destruct (secp256k1_musig_compute_pk_hash cfg (pk0 :: rest)) as [hash|] eqn:Eh;
    [|intros H; inversion H].
  cbn zeta. pose proof (agg_point_on_curve hash second (pk0 :: rest) F) as Hon.
  set (Q := agg_point cfg hash second (pk0 :: rest)) in *.
  destruct (infinity Q) eqn:Hfin; [intros H; inversion H|].
  intros H. apply (f_equal fst) in H. cbn [fst] in H. subst m1.
  destruct (m_cache m0) as [c0|]; [|congruence]. cbn [stored].
  assert (Lh : length hash = 32%nat).
  { rewrite compute_pk_hash_eq in Eh.
    destruct (serialized_keys cfg (pk0 :: rest)); [|discriminate Eh].
    apply Some_inj in Eh. rewrite <- Eh. apply tagged_hash_length. }
  destruct (cache_load_bytes (agg_cache Q second hash))
    as (L & Lpt & ci & El & Epk & Epar & Etw); cbn [agg_cache pk pk_hash
      internal_key_parity tweak]; auto; try lia.
  { pose proof (cg_n cfg CG). lia. }
  cbn [agg_cache pk pk_hash internal_key_parity tweak] in *.
  assert (Ecp : cached_point
                  {| m_pubkey := stored (m_pubkey m0)
                                   (point_bytes cfg (even_y_point cfg Q));
                     m_cache := Some (cache_bytes cfg (agg_cache Q second hash)) |}
                = Q).
  { unfold cached_point. cbn [m_cache].
    rewrite <- (cache_load_pk cfg _ ci El). exact Epk. }
  rewrite Ecp. split; [exact Hon|]. split; [|split].
  - exists (cache_bytes cfg (agg_cache Q second hash)), ci.
    rewrite Epk, Epar, Etw. repeat split; try assumption.
    unfold signed. cbn. symmetry. now apply add_inf_r.
  - cbn [m_pubkey]. destruct (m_pubkey m0); cbn; congruence.
  - exists (cache_bytes cfg (agg_cache Q second hash)), ci.
    repeat split; assumption.
Qed.

Lemma tweak_all_pubkey (ts : list bytes) (m mk : mem) :
  tweak_all ts m = Some mk -> m_pubkey m <> None -> m_pubkey mk <> None.
Proof.
  revert m; induction ts as [|tw l IH]; intros m H Hp.
  - cbn in H. apply Some_inj in H. now subst.
  - cbn [tweak_all] in H.
    destruct (secp256k1_musig_pubkey_tweak_add cfg (Some tw) m) as [m' r] eqn:E.
    destruct r as [[|[| |]|]|]; try discriminate H.
    apply (IH m' H).
    destruct (tweak_add_success tw m m' E) as (? & ? & _ & _ & _ & Hrest).
    cbn zeta in Hrest. destruct Hrest as (_ & ->). cbn [m_pubkey].
    destruct (m_pubkey m); cbn; congruence.
Qed.

(** Reading a cache that holds a point of the curve. *)
Lemma pubkey_get_holds (m : mem) (cache : bytes)
    (ci : secp256k1_keyagg_cache_internal) :
  m_cache m = Some cache -> m_pubkey m <> None ->
  secp256k1_keyagg_cache_load cfg cache = Some ci -> on_curve cfg (pk ci) ->
  exists out,
    secp256k1_musig_pubkey_get cfg m =
      ({| m_pubkey := Some out; m_cache := Some cache |}, Ok 1) /\
    secp256k1_point_load cfg out = pk ci.
Proof.
  intros Hc Hp El Hon. rewrite pubkey_get_eq, Hc, El.
  destruct (m_pubkey m); [|congruence].
  exists (point_bytes cfg (pk ci)). split; [reflexivity|].
  pose proof (cache_load_finite cfg cache ci El) as Hfin.
  rewrite (point_load_bytes cfg (cg_p cfg CG) _ Hfin).
  apply ge_normalize_canonical. now apply on_curve_canonical.
Qed.

End Group.

(** C2, amended. After an aggregation into a cache and any sequence of
    successful tweaks t_1 .. t_k, [secp256k1_musig_pubkey_get] reads the
    cached point, and that point is (+/-)Q + tweak*G, where Q is the
    aggregate point that the aggregation saved, the sign is the recorded
    [internal_key_parity] and tweak is the recorded accumulated tweak (every
    call that finds an odd y negates both before it adds its own tweak).
    When none of the points cached after t_1 .. t_(k-1) has an odd y, the
    point is even_y(Q) + (t_1 + ... + t_k)*G. Assumes that the curve points
    form a group and that the keys hold curve points. *)
Theorem tweaked_aggregate_key (cfg : config) (pk0 : bytes) (rest ts : list bytes)
    (m0 m1 mk : mem) :
  curve_group cfg ->
  Forall (valid_key cfg) (pk0 :: rest) ->
  m_cache m0 <> None -> m_pubkey m0 <> None ->
  secp256k1_musig_pubkey_agg cfg (Some (pk0 :: rest)) m0 = (m1, Ok 1) ->
  tweak_all cfg ts m1 = Some mk ->
  let Q := cached_point cfg m1 in
  exists cache ci out,
    m_cache mk = Some cache /\
    secp256k1_keyagg_cache_load cfg cache = Some ci /\
    secp256k1_musig_pubkey_get cfg mk =
      ({| m_pubkey := Some out; m_cache := Some cache |}, Ok 1) /\
    secp256k1_point_load cfg out = pk ci /\
    pk ci = secp256k1_ge_add cfg
              (signed cfg (internal_key_parity ci) Q)
              (ge_mul cfg (tweak ci) (generator cfg)) /\
    (ts <> [] ->
     Forall (even_y_cached cfg) (removelast (tweak_trace cfg ts m1)) ->
     pk ci = secp256k1_ge_add cfg
               (even_y_point cfg Q)
               (ge_mul cfg (tweak_sum ts mod order_n cfg) (generator cfg))).
Proof.
  intros CG F Hc Hp Hagg Hts. cbn zeta.
  destruct (agg_success cfg CG pk0 rest m0 m1 F Hc Hagg)
    as (HQ & Hh & Hp1 & cache1 & ci1 & Hc1 & L1 & El1 & Epk1 & Epar1 & Etw1).
  set (Q := cached_point cfg m1) in *.
  pose proof (holds_all cfg CG Q ts m1 mk HQ Hh Hts)
    as (cache & ci & Hck & Lk & Elk & Honk & Hpk).
  pose proof (tweak_all_pubkey cfg ts m1 mk Hts (Hp1 Hp)) as Hpk'.
  destruct (pubkey_get_holds cfg CG mk cache ci Hck Hpk' Elk Honk)
    as (out & Hget & Hout).
  exists cache, ci, out. repeat split; try assumption.
  intros Hne Hev. destruct ts as [|tw l]; [congruence|].
  cbn [tweak_all] in Hts. cbn [tweak_trace] in Hev.
  destruct (secp256k1_musig_pubkey_tweak_add cfg (Some tw) m1) as [m2 r] eqn:E.
  destruct r as [[|[| |]|]|]; try discriminate Hts.
  cbn [fst] in Hev.
  assert (H2 : holds_sum cfg Q (be_decode (firstn 32 tw)) m2).
  { assert (Hon1 : on_curve cfg (pk ci1)) by (rewrite Epk1; exact HQ).
    destruct (tweak_add_saved cfg CG tw m1 m2 cache1 ci1 Hc1 L1 El1 Hon1 E)
      as (Ht & _ & cache' & ci'' & Hc' & L' & El' & Hon' & Epk & _ & _).
    exists cache', ci''. repeat split; try assumption; try lia.
    rewrite Epk. unfold tweak_apply. cbn [pk]. rewrite ecmult_one, Epk1.
    reflexivity. }
  pose proof (holds_sum_all cfg CG Q l _ m2 mk HQ H2 Hts Hev)
    as (cache' & ci' & Hc' & _ & El' & _ & HS & Hpk2).
  rewrite Hck in Hc'. apply Some_inj in Hc'. subst cache'.
  rewrite Elk in El'. apply Some_inj in El'. subst ci'.
  rewrite Hpk2. f_equal. cbn [tweak_sum fold_right]. fold (tweak_sum l).
  symmetry. apply (ge_mul_mod cfg CG). exact HS.
Qed.

(** ** A curve small enough to check the group laws by enumeration *)

(** The curve y^2 = x^3 + 7 over the field of 13 elements: seven points,
    generated by (7, 5); the library built with the big-endian point codec. *)
Definition tiny : config :=
  {| field_p := 13;
     curve_b := 7;
     order_n := 7;
     generator := {| x := 7; y := 5; infinity := false |};
     ge_storage_64 := false |}.

Definition ge_eqb (a b : secp256k1_ge) : bool :=
  (x a =? x b) && (y a =? y b) && Bool.eqb (infinity a) (infinity b).

Definition tiny_points : list secp256k1_ge :=
  Eval vm_compute in
    secp256k1_ge_set_infinity ::
    filter (on_curveb tiny)
      (flat_map (fun i => map (fun j => {| x := Z.of_nat i; y := Z.of_nat j;
                                           infinity := false |})
                              (seq 0 13))
                (seq 0 13)).

Lemma ge_eqb_eq (a b : secp256k1_ge) : ge_eqb a b = true <-> a = b.
Proof.
  unfold ge_eqb. destruct a as [ax ay ai], b as [bx b_y bi]. cbn [x y infinity].
  rewrite !andb_true_iff, !Z.eqb_eq, Bool.eqb_true_iff.
  split; [intros [[-> ->] ->]; reflexivity|intros H; inversion H; auto].
Qed.

Lemma forallb_seq (f : nat -> bool) (k : nat) :
  forallb f (seq 0 k) = true -> forall z, 0 <= z < Z.of_nat k -> f (Z.to_nat z) = true.
Proof.
  intros H z Hz. rewrite forallb_forall in H. apply H, in_seq. lia.
Qed.

Lemma tiny_points_complete (a : secp256k1_ge) :
  on_curve tiny a -> In a tiny_points.
Proof.
  intros H. destruct (infinity a) eqn:Hi.
  - left. symmetry. unfold on_curve, on_curveb in H. rewrite Hi in H.
    apply andb_true_iff in H. destruct H as [Hx Hy].
    apply Z.eqb_eq in Hx, Hy. destruct a as [ax ay ai]. cbn in *. now subst.
  - assert (C : forallb (fun i => forallb (fun j =>
                  let c := {| x := Z.of_nat i; y := Z.of_nat j; infinity := false |} in
                  implb (on_curveb tiny c) (existsb (ge_eqb c) tiny_points))
                  (seq 0 13)) (seq 0 13) = true) by (vm_compute; reflexivity).
    pose proof H as H'. unfold on_curve, on_curveb in H'. rewrite Hi in H'.
    repeat (apply andb_true_iff in H'; destruct H' as [H' ?]).
    assert (Hx : 0 <= x a < Z.of_nat 13) by (cbn in *; lia).
    assert (Hy : 0 <= y a < Z.of_nat 13) by (cbn in *; lia).
    pose proof (forallb_seq _ 13 C (x a) Hx) as C1. cbn beta in C1.
    pose proof (forallb_seq _ 13 C1 (y a) Hy) as C2. cbn beta zeta in C2.
    rewrite !Z2Nat.id in C2 by lia.
    rewrite <- Hi, <- ge_eta in C2. unfold on_curve in H. rewrite H in C2.
    cbn [implb] in C2. apply existsb_exists in C2.
    destruct C2 as (c & Hin & Heq). apply ge_eqb_eq in Heq. now subst.
Qed.

Lemma tiny_forall1 (f : secp256k1_ge -> bool) :
  forallb f tiny_points = true ->
  forall a, on_curve tiny a -> f a = true.
Proof.
  intros H a Ha. rewrite forallb_forall in H. now apply H, tiny_points_complete.
Qed.

Lemma tiny_curve_group : curve_group tiny.
Proof.
  constructor.
  - cbn. lia.
  - cbn. lia.
  - reflexivity.
  - vm_compute. reflexivity.
  - intros a b Ha Hb.
    assert (C : forallb (fun a => forallb (fun b =>
                  on_curveb tiny (secp256k1_ge_add tiny a b)) tiny_points)
                  tiny_points = true) by (vm_compute; reflexivity).
    exact (tiny_forall1 _ (tiny_forall1 _ C a Ha) b Hb).
  - intros a Ha.
    assert (C : forallb (fun a => on_curveb tiny (secp256k1_ge_neg tiny a))
                  tiny_points = true) by (vm_compute; reflexivity).
    exact (tiny_forall1 _ C a Ha).
  - intros a b Ha Hb.
    assert (C : forallb (fun a => forallb (fun b =>
                  ge_eqb (secp256k1_ge_add tiny a b) (secp256k1_ge_add tiny b a))
                  tiny_points) tiny_points = true) by (vm_compute; reflexivity).
    apply ge_eqb_eq. exact (tiny_forall1 _ (tiny_forall1 _ C a Ha) b Hb).
  - intros a b c Ha Hb Hc.
    assert (C : forallb (fun a => forallb (fun b => forallb (fun c =>
                  ge_eqb (secp256k1_ge_add tiny (secp256k1_ge_add tiny a b) c)
                         (secp256k1_ge_add tiny a (secp256k1_ge_add tiny b c)))
                  tiny_points) tiny_points) tiny_points = true)
      by (vm_compute; reflexivity).
    apply ge_eqb_eq.
    exact (tiny_forall1 _ (tiny_forall1 _ (tiny_forall1 _ C a Ha) b Hb) c Hc).
  - intros a Ha.
    assert (C : forallb (fun a =>
                  ge_eqb (secp256k1_ge_add tiny a (secp256k1_ge_neg tiny a))
                         secp256k1_ge_set_infinity) tiny_points = true)
      by (vm_compute; reflexivity).
    apply ge_eqb_eq. exact (tiny_forall1 _ C a Ha).
Qed.

(** Three keys, a cache, an output object and three tweaks on the small
    curve. The aggregate is (7, 8); the tweaks 2, 3, 1 lead through the
    cached points (7, 5) and (8, 5), both of odd y, to (7, 8). *)
Definition tiny_key (kx ky : Z) : bytes :=
  point_bytes tiny {| x := kx; y := ky; infinity := false |}.

Definition tiny_m0 : mem :=
  {| m_pubkey := Some (zero_bytes 64); m_cache := Some (zero_bytes 165) |}.

Definition tiny_m1 : mem :=
  fst (secp256k1_musig_pubkey_agg tiny
         (Some [tiny_key 11 8; tiny_key 8 8; tiny_key 7 8]) tiny_m0).

Definition tiny_tweaks : list bytes :=
  [be_encode 32 2; be_encode 32 3; be_encode 32 1].

Definition tiny_mk : mem :=
  fst (secp256k1_musig_pubkey_tweak_add tiny (Some (be_encode 32 1))
    (fst (secp256k1_musig_pubkey_tweak_add tiny (Some (be_encode 32 3))
      (fst (secp256k1_musig_pubkey_tweak_add tiny (Some (be_encode 32 2))
         tiny_m1))))).

Lemma tiny_key_valid (kx ky : Z) :
  on_curveb tiny {| x := kx; y := ky; infinity := false |} = true ->
  valid_key tiny (tiny_key kx ky).
Proof.
  intros H. exists {| x := kx; y := ky; infinity := false |}. split; [|exact H].
  pose proof (tiny_points_complete _ H) as Hin.
  unfold tiny_points in Hin. cbn [In] in Hin.
  repeat (destruct Hin as [Hin|Hin];
          [inversion Hin; subst; try (vm_compute; reflexivity)|]);
    contradiction.
Qed.

Lemma tweaked_aggregate_key_witness :
  curve_group tiny /\
  Forall (valid_key tiny) [tiny_key 11 8; tiny_key 8 8; tiny_key 7 8] /\
  m_cache tiny_m0 <> None /\ m_pubkey tiny_m0 <> None /\
  secp256k1_musig_pubkey_agg tiny
    (Some [tiny_key 11 8; tiny_key 8 8; tiny_key 7 8]) tiny_m0 = (tiny_m1, Ok 1) /\
  tweak_all tiny tiny_tweaks tiny_m1 = Some tiny_mk /\
  (let Q := cached_point tiny tiny_m1 in
   exists cache ci out,
     m_cache tiny_mk = Some cache /\
     secp256k1_keyagg_cache_load tiny cache = Some ci /\
     secp256k1_musig_pubkey_get tiny tiny_mk =
       ({| m_pubkey := Some out; m_cache := Some cache |}, Ok 1) /\
     secp256k1_point_load tiny out = pk ci /\
     pk ci = secp256k1_ge_add tiny
               (signed tiny (internal_key_parity ci) Q)
               (ge_mul tiny (tweak ci) (generator tiny)) /\
     (tiny_tweaks <> [] ->
      Forall (even_y_cached tiny) (removelast (tweak_trace tiny tiny_tweaks tiny_m1)) ->
      pk ci = secp256k1_ge_add tiny
                (even_y_point tiny Q)
                (ge_mul tiny (tweak_sum tiny_tweaks mod order_n tiny)
                   (generator tiny)))).
Proof.
  assert (F : Forall (valid_key tiny) [tiny_key 11 8; tiny_key 8 8; tiny_key 7 8]).
  { repeat constructor; apply tiny_key_valid; reflexivity. }
  assert (C : m_cache tiny_m0 <> None) by discriminate.
  assert (P : m_pubkey tiny_m0 <> None) by discriminate.
  assert (A : secp256k1_musig_pubkey_agg tiny
                (Some [tiny_key 11 8; tiny_key 8 8; tiny_key 7 8]) tiny_m0 =
              (tiny_m1, Ok 1)) by (vm_compute; reflexivity).
  assert (T : tweak_all tiny tiny_tweaks tiny_m1 = Some tiny_mk)
    by (vm_compute; reflexivity).
  split; [exact tiny_curve_group|]. split; [exact F|]. split; [exact C|].
  split; [exact P|]. split; [exact A|]. split; [exact T|].
  exact (tweaked_aggregate_key tiny (tiny_key 11 8) [tiny_key 8 8; tiny_key 7 8]
           tiny_tweaks tiny_m0 tiny_m1 tiny_mk tiny_curve_group F C P A T).
Defined.

(** *** Equal keys on the small curve *)




(** ** An aggregation on secp256k1 *)

(** The keys G and 2*G (both of even y), aggregated into a cache. The
    coefficient of G is the tagged hash, that of 2*G is 1, and the aggregate
    [example_Q] has an odd y. *)
Definition example_keys : list bytes :=
  [point_bytes secp256k1 (generator secp256k1);
   point_bytes secp256k1 (ge_mul secp256k1 2 (generator secp256k1))].

Definition example_m0 : mem :=
  {| m_pubkey := Some (zero_bytes 64); m_cache := Some (zero_bytes 165) |}.

Definition example_Q : secp256k1_ge :=
  {| x := 0xe3584a8207ab0220d0c397b3c3d2c5c4ffa36e3183052fa4a4d37d9b8dfdd655;
     y := 0x14e6bc0976fba2e483973ae518866028bf87c1d1fe0132404d4b859669f69e2f;
     infinity := false |}.

Definition example_m1 : mem :=
  {| m_pubkey := Some (point_bytes secp256k1 (even_y_point secp256k1 example_Q));
     m_cache :=
       Some (cache_bytes secp256k1
               (agg_cache example_Q
                  0xc6047f9441ed7d6d3045406e95c07cd85c778e4b8cef3ca7abac09b95c709ee5
                  (be_encode 32
                     0xd58afd024e3400bc9acd100e4d3f3c4cc9299a95135bc13f0076a30344e43733))) |}.

(** ** Scalar multiplications on secp256k1, evaluated on machine words

    [ge_mul] inverts a field element at every addition. The same additions
    are run here on [bigZ] numbers, with each inverse produced by an
    unverified Euclidean algorithm and then checked by one multiplication;
    [mul_check_ok] transfers a successful run to [ge_mul]. *)

Module Fast.

Definition bP : bigZ := BigZ.of_Z (field_p secp256k1).

(** A point with [bigZ] coordinates. *)
Record bge : Type := mk_bge { bx : bigZ; b_y : bigZ; binf : bool }.

Definition to_ge (a : bge) : secp256k1_ge :=
  {| x := BigZ.to_Z (bx a); y := BigZ.to_Z (b_y a); infinity := binf a |}.

Definition of_ge (a : secp256k1_ge) : bge :=
  {| bx := BigZ.of_Z (x a); b_y := BigZ.of_Z (y a); binf := infinity a |}.

(** A candidate for the inverse of [d] modulo the field prime, by the
    extended Euclidean algorithm. It is only a candidate: [badd] checks it. *)
Fixpoint begcd (fuel : nat) (r0 r1 t0 t1 : bigZ) : bigZ :=
  match fuel with
  | O => t0
  | S f =>
      if BigZ.eqb r1 BigZ.zero then t0
      else
        let q := BigZ.div r0 r1 in
        begcd f r1 (BigZ.sub r0 (BigZ.mul q r1)) t1 (BigZ.sub t0 (BigZ.mul q t1))
  end.

Definition binv (d : bigZ) : bigZ :=
  BigZ.modulo (begcd 600 bP (BigZ.modulo d bP) BigZ.zero BigZ.one) bP.

Definition is_inverse (u d : bigZ) : bool :=
  BigZ.eqb (BigZ.modulo (BigZ.mul u d) bP) BigZ.one &&
  BigZ.leb BigZ.zero u && BigZ.ltb u bP.

Definition b2 : bigZ := BigZ.of_Z 2.
Definition b3 : bigZ := BigZ.of_Z 3.

(** [secp256k1_ge_add] on [bigZ] numbers, with the checked inverse. *)
Definition badd (a b : bge) : option bge :=
  if binf a then Some b
  else if binf b then Some a
  else if BigZ.eqb (BigZ.modulo (bx a) bP) (BigZ.modulo (bx b) bP) then
    if BigZ.eqb (BigZ.modulo (BigZ.add (b_y a) (b_y b)) bP) BigZ.zero then
      Some {| bx := BigZ.zero; b_y := BigZ.zero; binf := true |}
    else
      let d := BigZ.mul b2 (b_y a) in
      let u := binv d in
      if is_inverse u d then
        let l := BigZ.modulo (BigZ.mul (BigZ.mul (BigZ.mul b3 (bx a)) (bx a)) u) bP in
        let rx := BigZ.modulo (BigZ.sub (BigZ.mul l l) (BigZ.mul b2 (bx a))) bP in
        Some {| bx := rx;
                b_y := BigZ.modulo
                         (BigZ.sub (BigZ.mul l (BigZ.sub (bx a) rx)) (b_y a)) bP;
                binf := false |}
      else None
  else
    let d := BigZ.sub (bx b) (bx a) in
    let u := binv d in
    if is_inverse u d then
      let l := BigZ.modulo (BigZ.mul (BigZ.sub (b_y b) (b_y a)) u) bP in
      let rx := BigZ.modulo (BigZ.sub (BigZ.sub (BigZ.mul l l) (bx a)) (bx b)) bP in
      Some {| bx := rx;
              b_y := BigZ.modulo
                       (BigZ.sub (BigZ.mul l (BigZ.sub (bx a) rx)) (b_y a)) bP;
              binf := false |}
    else None.

Fixpoint bmul (k : positive) (a : bge) : option bge :=
  match k with
  | xH => Some a
  | xO k' =>
      match bmul k' a with
      | Some r => badd r r
      | None => None
      end
  | xI k' =>
      match bmul k' a with
      | Some r =>
          match badd r r with
          | Some r2 => badd r2 a
          | None => None
          end
      | None => None
      end
  end.

(** Does the fast computation of k*a give [r]? *)
Definition mul_check (k : positive) (a r : secp256k1_ge) : bool :=
  match bmul k (of_ge a) with
  | Some r' => ge_eqb (to_ge r') r
  | None => false
  end.

Lemma spec_bP : BigZ.to_Z bP = field_p secp256k1.
Proof. apply BigZ.spec_of_Z. Qed.

Lemma spec_b2 : BigZ.to_Z b2 = 2.
Proof. reflexivity. Qed.

Lemma spec_b3 : BigZ.to_Z b3 = 3.
Proof. reflexivity. Qed.

Ltac big_spec :=
  first [ rewrite BigZ.spec_modulo | rewrite BigZ.spec_sub
        | rewrite BigZ.spec_mul | rewrite BigZ.spec_add
        | rewrite spec_bP | rewrite spec_b2 | rewrite spec_b3 ].

Lemma p_ge_2 : 2 <= field_p secp256k1.
Proof. vm_compute. discriminate. Qed.

Lemma invmod_unique (d u m : Z) :
  2 <= m -> (u * d) mod m = 1 -> 0 <= u < m -> Z.invmod d m = u.
Proof.
  intros Hm Hu Hr.
  assert (C : Z.coprime d m).
  { apply Z.Bezout_coprime_iff. exists u, (- (u * d / m)).
    pose proof (Z.div_mod (u * d) m ltac:(lia)) as E. rewrite Hu in E. lia. }
  pose proof (Z.invmod_coprime d m Hm C) as Hi.
  pose proof (Z.mod_invmod m d) as Hmi.
  set (i := Z.invmod d m) in *.
  rewrite <- Hmi, <- (Z.mod_small u m) by exact Hr.
  rewrite <- (Z.mul_1_r i), <- Hu, Z.mul_mod_idemp_r by lia.
  rewrite <- (Z.mul_1_r u) at 2. rewrite <- Hi, Z.mul_mod_idemp_r by lia.
  f_equal. ring.
Qed.

Lemma is_inverse_ok (u d : bigZ) :
  is_inverse u d = true ->
  secp256k1_fe_inv secp256k1 (BigZ.to_Z d) = BigZ.to_Z u.
Proof.
  unfold is_inverse. rewrite !andb_true_iff.
  rewrite BigZ.spec_eqb, BigZ.spec_leb, BigZ.spec_ltb.
  rewrite BigZ.spec_modulo, BigZ.spec_mul, spec_bP.
  rewrite Z.eqb_eq, Z.leb_le, Z.ltb_lt.
  change (BigZ.to_Z BigZ.one) with 1. change (BigZ.to_Z BigZ.zero) with 0.
  intros [[H1 H2] H3]. unfold secp256k1_fe_inv.
  apply invmod_unique; [exact p_ge_2|exact H1|lia].
Qed.

Lemma badd_ok (a b r : bge) :
  badd a b = Some r ->
  secp256k1_ge_add secp256k1 (to_ge a) (to_ge b) = to_ge r.
Proof.
  unfold badd, secp256k1_ge_add. cbn [to_ge x y infinity].
  destruct (binf a); [intros H; apply Some_inj in H; now subst r|].
  destruct (binf b); [intros H; apply Some_inj in H; now subst r|].
  rewrite !BigZ.spec_eqb, !BigZ.spec_modulo, BigZ.spec_add, spec_bP.
  change (BigZ.to_Z BigZ.zero) with 0.
  destruct (_ =? _).
  - destruct (_ =? 0); [intros H; apply Some_inj in H; now subst r|].
    destruct (is_inverse _ _) eqn:E; [|discriminate].
    apply is_inverse_ok in E. rewrite BigZ.spec_mul, spec_b2 in E.
    intros H. apply Some_inj in H. subst r. unfold to_ge. cbn [bx b_y binf].
    repeat big_spec. rewrite E. reflexivity.
  - destruct (is_inverse _ _) eqn:E; [|discriminate].
    apply is_inverse_ok in E. rewrite BigZ.spec_sub in E.
    intros H. apply Some_inj in H. subst r. unfold to_ge. cbn [bx b_y binf].
    repeat big_spec. rewrite E. reflexivity.
Qed.

Lemma bmul_ok (k : positive) (a r : bge) :
  bmul k a = Some r -> ge_mul_pos secp256k1 k (to_ge a) = to_ge r.
Proof.
  revert r; induction k as [k IH|k IH|]; intros r; cbn [bmul ge_mul_pos].
  - destruct (bmul k a) as [r1|]; [|discriminate].
    destruct (badd r1 r1) as [r2|] eqn:E2; [|discriminate].
    intros E3. rewrite (IH r1 eq_refl), (badd_ok _ _ _ E2). now apply badd_ok.
  - destruct (bmul k a) as [r1|]; [|discriminate].
    intros E2. rewrite (IH r1 eq_refl). now apply badd_ok.
  - intros H. apply Some_inj in H. now subst r.
Qed.

Lemma mul_check_ok (k : positive) (a r : secp256k1_ge) :
  mul_check k a r = true -> ge_mul secp256k1 (Zpos k) a = r.
Proof.
  unfold mul_check. destruct (bmul k (of_ge a)) as [r'|] eqn:E; [|discriminate].
  intros H. apply ge_eqb_eq in H. subst r.
  apply bmul_ok in E. cbn [ge_mul]. rewrite <- E. f_equal.
  unfold to_ge, of_ge. cbn [bx b_y binf]. rewrite !BigZ.spec_of_Z.
  now destruct a.
Qed.

End Fast.

Definition example_second : Z :=
  0xc6047f9441ed7d6d3045406e95c07cd85c778e4b8cef3ca7abac09b95c709ee5.

Definition example_hash : bytes :=
  be_encode 32 0xd58afd024e3400bc9acd100e4d3f3c4cc9299a95135bc13f0076a30344e43733.

(** The coefficient of the key G in [example_keys]. *)
Definition example_coef : Z :=
  Eval vm_compute in
    secp256k1_musig_keyaggcoef_internal secp256k1 example_hash
      (x (generator secp256k1)) example_second.

Definition example_coef_G : secp256k1_ge :=
  Eval vm_compute in
    match example_coef with
    | Zpos k =>
        match Fast.bmul k (Fast.of_ge (generator secp256k1)) with
        | Some r => Fast.to_ge r
        | None => secp256k1_ge_set_infinity
        end
    | _ => secp256k1_ge_set_infinity
    end.

Lemma example_coef_mul :
  ge_mul secp256k1 example_coef (generator secp256k1) = example_coef_G.
Proof. apply Fast.mul_check_ok. vm_compute. reflexivity. Qed.

Lemma agg_point_two (cfg : config) (hash : bytes) (second : Z) (k1 k2 : bytes)
    (p1 p2 r1 : secp256k1_ge) (c1 : Z) :
  secp256k1_xonly_pubkey_load cfg k1 = Some p1 ->
  secp256k1_xonly_pubkey_load cfg k2 = Some p2 ->
  secp256k1_musig_keyaggcoef_internal cfg hash (x p1) second = c1 ->
  ge_mul cfg c1 p1 = r1 ->
  agg_point cfg hash second [k1; k2] =
  let q := secp256k1_ge_add cfg
             (secp256k1_ge_add cfg secp256k1_ge_set_infinity
                (secp256k1_ge_add cfg r1 (ge_mul cfg 0 (generator cfg))))
             (secp256k1_ecmult cfg p2
                (secp256k1_musig_keyaggcoef_internal cfg hash (x p2) second) 0) in
  {| x := x q; y := secp256k1_fe_normalize_var cfg (y q); infinity := infinity q |}.
Proof.
  intros E1 E2 Ec Er. unfold agg_point, agg_sum. cbn [fold_left].
  rewrite (key_term_loaded cfg hash second k1 p1 E1).
  rewrite (key_term_loaded cfg hash second k2 p2 E2).
  subst r1 c1. reflexivity.
Qed.

Lemma example_agg_point :
  agg_point secp256k1 example_hash example_second
    [point_bytes secp256k1 (generator secp256k1);
     point_bytes secp256k1 (ge_mul secp256k1 2 (generator secp256k1))] = example_Q.
Proof.
  refine (eq_trans
            (agg_point_two secp256k1 example_hash example_second
               (point_bytes secp256k1 (generator secp256k1))
               (point_bytes secp256k1 (ge_mul secp256k1 2 (generator secp256k1)))
               (generator secp256k1) (ge_mul secp256k1 2 (generator secp256k1))
               example_coef_G example_coef _ _ _ example_coef_mul) _).
  all: vm_compute; reflexivity.
Qed.

Lemma agg_example :
  secp256k1_musig_pubkey_agg secp256k1 (Some example_keys) example_m0 =
  (example_m1, Ok 1).
Proof.
  rewrite pubkey_agg_eq. unfold example_keys.
  assert (E2 : find_second_pk_x secp256k1
                 (point_bytes secp256k1 (generator secp256k1))
                 [point_bytes secp256k1 (ge_mul secp256k1 2 (generator secp256k1))] =
               Some example_second) by (vm_compute; reflexivity).
  assert (Eh : secp256k1_musig_compute_pk_hash secp256k1
                 [point_bytes secp256k1 (generator secp256k1);
                  point_bytes secp256k1 (ge_mul secp256k1 2 (generator secp256k1))] =
               Some example_hash) by (vm_compute; reflexivity).
  rewrite E2, Eh. cbn zeta.
  rewrite example_agg_point. vm_compute. reflexivity.
Qed.

Lemma pubkey_agg_second_pk_x_witness :
  m_cache example_m0 = Some (zero_bytes 165) /\
  secp256k1_musig_pubkey_agg secp256k1 (Some example_keys) example_m0 =
    (example_m1, Ok 1) /\
  ((exists data,
      m_cache example_m1 = Some data /\ length data = 165%nat /\
      sub 68 32 data =
        secp256k1_fe_get_b32
          (second_pk_x_spec secp256k1
             (point_bytes secp256k1 (generator secp256k1))
             [point_bytes secp256k1 (ge_mul secp256k1 2 (generator secp256k1))])) /\
   (find (differs_from (point_bytes secp256k1 (generator secp256k1)))
      [point_bytes secp256k1 (ge_mul secp256k1 2 (generator secp256k1))] = None ->
    second_pk_x_spec secp256k1
      (point_bytes secp256k1 (generator secp256k1))
      [point_bytes secp256k1 (ge_mul secp256k1 2 (generator secp256k1))] = 0) /\
   (forall k pt, secp256k1_xonly_pubkey_load secp256k1 k = Some pt -> x pt <> 0)).
Proof.
  split; [reflexivity|]. split; [exact agg_example|].
  exact (pubkey_agg_second_pk_x secp256k1
           (point_bytes secp256k1 (generator secp256k1))
           [point_bytes secp256k1 (ge_mul secp256k1 2 (generator secp256k1))]
           example_m0 example_m1 (zero_bytes 165) eq_refl agg_example).
Defined.

(** Two tweaks, 2 and then 1, applied to the aggregated cache, and the key
    read back. *)
Definition example_tweaks : list bytes := [be_encode 32 2; be_encode 32 1].

Definition example_m2 : mem :=
  fst (secp256k1_musig_pubkey_tweak_add secp256k1 (Some (be_encode 32 1))
    (fst (secp256k1_musig_pubkey_tweak_add secp256k1 (Some (be_encode 32 2))
       example_m1))).

(** The statement of C2 as the claim words it: the key read after the
    tweaks is the internal aggregate key, with either sign, plus
    (t_1 + ... + t_k)*G. *)
Definition tweak_sum_as_claimed (cfg : config) (keys ts : list bytes) (m0 : mem)
    : Prop :=
  forall m1 mk mk' out,
    secp256k1_musig_pubkey_agg cfg (Some keys) m0 = (m1, Ok 1) ->
    tweak_all cfg ts m1 = Some mk ->
    secp256k1_musig_pubkey_get cfg mk = (mk', Ok 1) ->
    m_pubkey mk' = Some out ->
    let Q := cached_point cfg m1 in
    let T := ge_mul cfg (tweak_sum ts mod order_n cfg) (generator cfg) in
    secp256k1_point_load cfg out = secp256k1_ge_add cfg Q T \/
    secp256k1_point_load cfg out =
      secp256k1_ge_add cfg (secp256k1_ge_neg cfg Q) T.

(** C2, counterexample. The aggregate Q of the keys G and 2*G has an odd y.
    The tweak 2 gives -Q + 2*G, whose y is odd again, so the tweak 1 negates
    once more and gives Q - 2*G + G = Q - G, which is neither Q + 3*G nor
    -Q + 3*G. *)
Lemma tweak_sum_counterexample :
  ~ tweak_sum_as_claimed secp256k1 example_keys example_tweaks example_m0.
Proof.
  intros H.
  specialize (H example_m1 example_m2
                (fst (secp256k1_musig_pubkey_get secp256k1 example_m2))
                (point_bytes secp256k1
                   (secp256k1_ge_add secp256k1 example_Q
                      (secp256k1_ge_neg secp256k1 (generator secp256k1))))
                agg_example).
  specialize (H ltac:(vm_compute; reflexivity)).
  specialize (H ltac:(vm_compute; reflexivity)).
  specialize (H ltac:(vm_compute; reflexivity)).
  cbn zeta in H. destruct H as [H|H]; vm_compute in H; discriminate H.
Qed.

(** * Further properties of keyagg_impl.h *)

(** ** The cache codec, lines 62-91 *)

(** An internal cache as [secp256k1_keyagg_cache_save] requires it (line 61)
    and as the API keeps it: a finite point with normalised coordinates, a
    normalised [second_pk_x], a parity bit and a reduced tweak. *)
Definition cache_canonical (cfg : config) (ci : secp256k1_keyagg_cache_internal)
    : Prop :=
  ge_canonical cfg (pk ci) /\
  0 <= second_pk_x ci < field_p cfg /\
  length (pk_hash ci) = 32%nat /\
  (internal_key_parity ci = 0 \/ internal_key_parity ci = 1) /\
  0 <= tweak ci < order_n cfg.

Lemma length_magic : length secp256k1_musig_keyagg_cache_magic = 4%nat.
Proof. reflexivity. Qed.

(** The fields of the 165 bytes, whatever the internal cache. *)
Lemma cache_bytes_fields (cfg : config) (ci : secp256k1_keyagg_cache_internal) :
  sub 0 4 (cache_bytes cfg ci) = secp256k1_musig_keyagg_cache_magic /\
  sub 4 64 (cache_bytes cfg ci) = point_bytes cfg (pk ci) /\
  sub 68 32 (cache_bytes cfg ci) = secp256k1_fe_get_b32 (second_pk_x ci).
Proof.
  unfold cache_bytes. split; [|split].
  - now rewrite sub_app_l.
  - rewrite sub_app_r by (rewrite length_magic; lia).
    rewrite length_magic. cbn [Nat.sub].
    rewrite sub_app_l; [reflexivity|apply point_bytes_length].
  - rewrite sub_app_r by (rewrite length_magic; lia).
    rewrite length_magic. cbn [Nat.sub].
    rewrite sub_app_r by (rewrite point_bytes_length; lia).
    rewrite point_bytes_length. cbn [Nat.sub].
    rewrite sub_app_l; [reflexivity|apply length_be_encode].
Qed.

Lemma cache_bytes_layout (cfg : config) (ci : secp256k1_keyagg_cache_internal) :
  length (pk_hash ci) = 32%nat ->
  length (cache_bytes cfg ci) = 165%nat /\
  sub 100 32 (cache_bytes cfg ci) = pk_hash ci /\
  nth 132 (cache_bytes cfg ci) x00 = byte_of_Z (internal_key_parity ci) /\
  sub 133 32 (cache_bytes cfg ci) = secp256k1_scalar_get_b32 (tweak ci).
Proof.
  intros Hh. unfold cache_bytes.
  destruct (cache_layout (point_bytes cfg (pk ci))
              (secp256k1_fe_get_b32 (second_pk_x ci))
              (firstn 32 (pk_hash ci)) (secp256k1_scalar_get_b32 (tweak ci))
              (byte_of_Z (internal_key_parity ci)))
    as (L & _ & _ & _ & Lh & Lpb & Ltw).
  - apply point_bytes_length.
  - apply length_be_encode.
  - rewrite length_firstn. lia.
  - apply length_be_encode.
  - rewrite firstn_all2 in * by lia. now repeat split.
Qed.

Lemma scalar_b32_roundtrip (cfg : config) (t : Z) :
  order_n cfg <= 2 ^ 256 -> 0 <= t < order_n cfg ->
  secp256k1_scalar_set_b32 cfg (secp256k1_scalar_get_b32 t) = (t, false).
Proof.
  intros Hn Ht. unfold secp256k1_scalar_set_b32, secp256k1_scalar_get_b32.
  rewrite firstn_all2 by (rewrite length_be_encode; lia).
  rewrite be_decode_encode, pow_256_32.
  rewrite (Z.mod_small t (2 ^ 256)) by lia.
  rewrite (Z.mod_small t) by lia. f_equal. apply Z.leb_gt. lia.
Qed.

(** X1. Saving a well-formed internal cache and loading the 165 bytes gives
    the internal cache back. *)
Theorem cache_save_load_roundtrip (cfg : config)
    (ci : secp256k1_keyagg_cache_internal) :
  0 < field_p cfg <= 2 ^ 256 -> 0 < order_n cfg <= 2 ^ 256 ->
  cache_canonical cfg ci ->
  exists data ci',
    secp256k1_keyagg_cache_save cfg ci = Ok (data, ci') /\
    length data = 165%nat /\
    secp256k1_keyagg_cache_load cfg data = Some ci.
Proof.
  intros Hp Hn (Hpk & Hsx & Hh & Hpar & Ht).
  destruct (cache_save_finite cfg ci (proj1 Hpk)) as (ci' & Es & _).
  destruct (cache_bytes_fields cfg ci) as (Lm & Lpt & Lsx).
  destruct (cache_bytes_layout cfg ci Hh) as (L & Lh & Lpb & Ltw).
  exists (cache_bytes cfg ci), ci'. split; [exact Es|]. split; [exact L|].
  unfold secp256k1_keyagg_cache_load.
  rewrite Lm, bytes_eqb_refl, Lpt, Lsx, Lh, Lpb, Ltw. cbn [negb].
  rewrite (point_load_bytes cfg Hp _ (proj1 Hpk)), (ge_normalize_canonical cfg _ Hpk).
  rewrite fe_b32_roundtrip by lia.
  rewrite (parity_byte _ Hpar).
  rewrite (scalar_b32_roundtrip cfg (tweak ci)) by lia.
  now destruct ci.
Qed.

(** A cache whose point is 6*G (odd y), with a second key, a parity bit and
    a tweak. *)
Definition sample_cache_i : secp256k1_keyagg_cache_internal :=
  {| pk := six_G;
     second_pk_x := x (generator secp256k1);
     pk_hash := sha256 (bytes_of_string "keys"%string);
     internal_key_parity := 1;
     tweak := 5 |}.

Lemma secp256k1_p_range : 0 < field_p secp256k1 <= 2 ^ 256.
Proof. vm_compute. split; [reflexivity|discriminate]. Qed.

Lemma secp256k1_n_range : 0 < order_n secp256k1 <= 2 ^ 256.
Proof. vm_compute. split; [reflexivity|discriminate]. Qed.

Lemma sample_cache_i_canonical : cache_canonical secp256k1 sample_cache_i.
Proof.
  unfold cache_canonical, ge_canonical. vm_compute.
  repeat split; try reflexivity; try discriminate. now right.
Qed.

Lemma cache_save_load_roundtrip_witness :
  0 < field_p secp256k1 <= 2 ^ 256 /\ 0 < order_n secp256k1 <= 2 ^ 256 /\
  cache_canonical secp256k1 sample_cache_i /\
  exists data ci',
    secp256k1_keyagg_cache_save secp256k1 sample_cache_i = Ok (data, ci') /\
    length data = 165%nat /\
    secp256k1_keyagg_cache_load secp256k1 data = Some sample_cache_i.
Proof.
  split; [exact secp256k1_p_range|]. split; [exact secp256k1_n_range|].
  split; [exact sample_cache_i_canonical|].
  exact (cache_save_load_roundtrip secp256k1 sample_cache_i secp256k1_p_range
           secp256k1_n_range sample_cache_i_canonical).
Defined.

Lemma skipn_sub (off len : nat) (c : bytes) :
  skipn off c = sub off len c ++ skipn (off + len) c.
Proof.
  unfold sub. rewrite <- (firstn_skipn len (skipn off c)) at 1.
  now rewrite skipn_skipn, Nat.add_comm.
Qed.

Lemma skipn_nth (off : nat) (c : bytes) :
  (off < length c)%nat -> skipn off c = nth off c x00 :: skipn (S off) c.
Proof.
  revert c; induction off as [|off IH]; intros [|b c] L; cbn [length] in L;
    try lia; [reflexivity|].
  cbn [skipn nth]. rewrite (IH c) by lia. reflexivity.
Qed.

Lemma cache_split (c : bytes) :
  length c = 165%nat ->
  c = sub 0 4 c ++ sub 4 64 c ++ sub 68 32 c ++ sub 100 32 c ++
      [nth 132 c x00] ++ sub 133 32 c.
Proof.
  intros L. rewrite <- (skipn_0 c) at 1.
  rewrite (skipn_sub 0 4). f_equal. cbn [Nat.add].
  rewrite (skipn_sub 4 64). f_equal. cbn [Nat.add].
  rewrite (skipn_sub 68 32). f_equal. cbn [Nat.add].
  rewrite (skipn_sub 100 32). f_equal. cbn [Nat.add].
  rewrite (skipn_nth 132) by lia. cbn [app]. f_equal.
  unfold sub. symmetry. apply firstn_all2. rewrite length_skipn. lia.
Qed.

(** The bytes that a save of a loaded cache writes are the bytes that were
    loaded, when these are in canonical form. *)
Lemma cache_bytes_loaded (cfg : config) (cache : bytes)
    (ci : secp256k1_keyagg_cache_internal) :
  0 < order_n cfg ->
  length cache = 165%nat ->
  secp256k1_keyagg_cache_load cfg cache = Some ci ->
  ge_canonical cfg (pk ci) ->
  byte_to_Z (nth 132 cache x00) <= 1 ->
  be_decode (sub 133 32 cache) < order_n cfg ->
  cache_bytes cfg ci = cache.
Proof.
  intros Hn L El Hpk Hpar Ht.
  assert (Hm : sub 0 4 cache = secp256k1_musig_keyagg_cache_magic)
    by (apply (proj1 (cache_load_magic cfg cache)); congruence).
  unfold secp256k1_keyagg_cache_load in El. rewrite Hm, bytes_eqb_refl in El.
  cbn [negb] in El. apply Some_inj in El. subst ci. cbn [pk] in Hpk.
  unfold cache_bytes. cbn [pk second_pk_x pk_hash internal_key_parity tweak].
  etransitivity; [|symmetry; apply (cache_split cache L)]. rewrite Hm. f_equal.
  assert (L32 : forall off, (off + 32 <= 165)%nat -> length (sub off 32 cache) = 32%nat)
    by (intros off Ho; apply length_sub; lia).
  f_equal; [|f_equal; [|f_equal; [|f_equal]]].
  - apply point_bytes_load; [apply length_sub; lia|exact Hpk].
  - unfold secp256k1_fe_get_b32, secp256k1_fe_set_b32.
    rewrite firstn_sub. apply be_encode_decode_32, L32. lia.
  - apply firstn_sub.
  - f_equal. pose proof (byte_to_Z_range (nth 132 cache x00)) as R.
    assert (E : Z.land (byte_to_Z (nth 132 cache x00)) 1 =
                byte_to_Z (nth 132 cache x00)).
    { assert (C : byte_to_Z (nth 132 cache x00) = 0 \/
                  byte_to_Z (nth 132 cache x00) = 1) by lia.
      destruct C as [-> | ->]; reflexivity. }
    rewrite E. apply byte_of_to_Z.
  - unfold secp256k1_scalar_get_b32, secp256k1_scalar_set_b32. cbn [fst].
    rewrite firstn_sub. pose proof (be_decode_range (sub 133 32 cache)) as R.
    rewrite Z.mod_small by lia. apply be_encode_decode_32, L32. lia.
Qed.

(** X2. Loading 165 bytes that hold normalised coordinates, a parity byte of
    0 or 1 and a tweak below the group order, and saving what was loaded,
    writes the same 165 bytes. *)
Theorem cache_load_save_roundtrip (cfg : config) (cache : bytes)
    (ci : secp256k1_keyagg_cache_internal) :
  0 < order_n cfg ->
  length cache = 165%nat ->
  secp256k1_keyagg_cache_load cfg cache = Some ci ->
  ge_canonical cfg (pk ci) ->
  byte_to_Z (nth 132 cache x00) <= 1 ->
  be_decode (sub 133 32 cache) < order_n cfg ->
  exists ci', secp256k1_keyagg_cache_save cfg ci = Ok (cache, ci').
Proof.
  intros Hn L El Hpk Hpar Ht.
  destruct (cache_save_finite cfg ci (proj1 Hpk)) as (ci' & Es & _).
  exists ci'. rewrite Es.
  now rewrite (cache_bytes_loaded cfg cache ci Hn L El Hpk Hpar Ht).
Qed.

Lemma cache_load_save_roundtrip_witness :
  0 < order_n secp256k1 /\ length cache_six_G = 165%nat /\
  secp256k1_keyagg_cache_load secp256k1 cache_six_G =
    Some {| pk := six_G; second_pk_x := 0; pk_hash := zero_bytes 32;
            internal_key_parity := 0; tweak := 0 |} /\
  ge_canonical secp256k1 six_G /\
  byte_to_Z (nth 132 cache_six_G x00) <= 1 /\
  be_decode (sub 133 32 cache_six_G) < order_n secp256k1 /\
  exists ci',
    secp256k1_keyagg_cache_save secp256k1
      {| pk := six_G; second_pk_x := 0; pk_hash := zero_bytes 32;
         internal_key_parity := 0; tweak := 0 |} = Ok (cache_six_G, ci').
Proof.
  assert (Hn : 0 < order_n secp256k1) by reflexivity.
  assert (L : length cache_six_G = 165%nat) by (vm_compute; reflexivity).
  assert (El : secp256k1_keyagg_cache_load secp256k1 cache_six_G =
               Some {| pk := six_G; second_pk_x := 0; pk_hash := zero_bytes 32;
                       internal_key_parity := 0; tweak := 0 |})
    by (vm_compute; reflexivity).
  assert (Hpk : ge_canonical secp256k1 six_G).
  { unfold ge_canonical. vm_compute.
    repeat split; try reflexivity; discriminate. }
  assert (Hpar : byte_to_Z (nth 132 cache_six_G x00) <= 1)
    by (vm_compute; discriminate).
  assert (Ht : be_decode (sub 133 32 cache_six_G) < order_n secp256k1)
    by (vm_compute; reflexivity).
  split; [exact Hn|]. split; [exact L|]. split; [exact El|].
  split; [exact Hpk|]. split; [exact Hpar|]. split; [exact Ht|].
  exact (cache_load_save_roundtrip secp256k1 cache_six_G _ Hn L El Hpk Hpar Ht).
Defined.

(** ** Aggregation, lines 110-124 and 177-245 *)

(** The points that the keys of a list load to. *)
Definition keys_load (cfg : config) (pks : list bytes) (pts : list secp256k1_ge)
    : Prop :=
  Forall2 (fun k pt => secp256k1_xonly_pubkey_load cfg k = Some pt) pks pts.

Lemma serialized_keys_points (cfg : config) (pks sers : list bytes) :
  serialized_keys cfg pks = Some sers ->
  exists pts, keys_load cfg pks pts /\
              sers = map (fun pt => secp256k1_fe_get_b32 (x pt)) pts.
Proof.
  revert sers; induction pks as [|k l IH]; intros sers; cbn [serialized_keys].
  - intros E. apply Some_inj in E. subst sers. exists []. split; [constructor|reflexivity].
  - unfold secp256k1_xonly_pubkey_serialize.
    destruct (secp256k1_xonly_pubkey_load cfg k) as [pt|] eqn:Ek; [|discriminate].
    destruct (serialized_keys cfg l) as [sers'|]; [|discriminate].
    intros E. apply Some_inj in E. subst sers.
    destruct (IH sers' eq_refl) as (pts & F & Es).
    exists (pt :: pts). split; [now constructor|]. cbn [map]. now rewrite Es.
Qed.

Lemma compute_pk_hash_points (cfg : config) (pks : list bytes) (hash : bytes) :
  secp256k1_musig_compute_pk_hash cfg pks = Some hash ->
  length hash = 32%nat /\
  exists pts, keys_load cfg pks pts /\
    hash = tagged_hash_spec "KeyAgg list"%string
             (concat (map (fun pt => secp256k1_fe_get_b32 (x pt)) pts)).
Proof.
  rewrite compute_pk_hash_eq.
  destruct (serialized_keys cfg pks) as [sers|] eqn:Es; [|discriminate].
  intros E. apply Some_inj in E. subst hash.
  split; [apply tagged_hash_length|].
  destruct (serialized_keys_points cfg pks sers Es) as (pts & F & ->).
  now exists pts.
Qed.

(** A successful aggregation, by cases on the functional form. *)
Lemma pubkey_agg_success (cfg : config) (pks : list bytes) (m m' : mem) :
  secp256k1_musig_pubkey_agg cfg (Some pks) m = (m', Ok 1) ->
  exists pk0 rest second hash,
    pks = pk0 :: rest /\
    find_second_pk_x cfg pk0 rest = Some second /\
    secp256k1_musig_compute_pk_hash cfg pks = Some hash /\
    let pkp := agg_point cfg hash second pks in
    infinity pkp = false /\
    m' = {| m_pubkey := stored (m_pubkey m) (point_bytes cfg (even_y_point cfg pkp));
            m_cache := stored (m_cache m)
                         (cache_bytes cfg (agg_cache pkp second hash)) |}.
Proof.
  rewrite pubkey_agg_eq. unfold failed.
  destruct pks as [|pk0 rest]; [discriminate|].
  destruct (find_second_pk_x cfg pk0 rest) as [second|] eqn:E2; [|discriminate].
  destruct (secp256k1_musig_compute_pk_hash cfg (pk0 :: rest)) as [hash|] eqn:Eh;
    [|discriminate].
  cbn zeta.
  destruct (infinity (agg_point cfg hash second (pk0 :: rest))) eqn:Einf;
    [discriminate|].
  intros E. exists pk0, rest, second, hash.
  split; [reflexivity|]. split; [exact E2|]. split; [reflexivity|].
  split; [exact Einf|]. congruence.
Qed.

(** X3. After a successful aggregation the 32 bytes at offset 100 of the
    cache are the hash of the key list: the "KeyAgg list" tagged hash of the
    32-byte x-coordinates of the keys, in the order of the list. *)
Theorem pubkey_agg_pk_hash (cfg : config) (pks : list bytes) (m m' : mem)
    (cache : bytes) :
  m_cache m = Some cache ->
  secp256k1_musig_pubkey_agg cfg (Some pks) m = (m', Ok 1) ->
  exists pts data,
    keys_load cfg pks pts /\
    m_cache m' = Some data /\
    secp256k1_musig_compute_pk_hash cfg pks = Some (sub 100 32 data) /\
    sub 100 32 data =
      tagged_hash_spec "KeyAgg list"%string
        (concat (map (fun pt => be_encode 32 (x pt)) pts)).
Proof.
  intros Hc A.
  destruct (pubkey_agg_success cfg pks m m' A)
    as (pk0 & rest & second & hash & -> & _ & Eh & _ & ->).
  destruct (compute_pk_hash_points cfg _ hash Eh) as (Lh & pts & F & Ehash).
  rewrite Hc. cbn [m_cache stored].
  destruct (cache_bytes_layout cfg
              (agg_cache (agg_point cfg hash second (pk0 :: rest)) second hash) Lh)
    as (_ & Lhash & _).
  cbn [pk_hash agg_cache] in Lhash.
  exists pts, (cache_bytes cfg
                 (agg_cache (agg_point cfg hash second (pk0 :: rest)) second hash)).
  rewrite Lhash. now repeat split.
Qed.

Lemma pubkey_agg_pk_hash_witness :
  m_cache example_m0 = Some (zero_bytes 165) /\
  secp256k1_musig_pubkey_agg secp256k1 (Some example_keys) example_m0 =
    (example_m1, Ok 1) /\
  exists pts data,
    keys_load secp256k1 example_keys pts /\
    m_cache example_m1 = Some data /\
    secp256k1_musig_compute_pk_hash secp256k1 example_keys =
      Some (sub 100 32 data) /\
    sub 100 32 data =
      tagged_hash_spec "KeyAgg list"%string
        (concat (map (fun pt => be_encode 32 (x pt)) pts)).
Proof.
  split; [reflexivity|]. split; [exact agg_example|].
  exact (pubkey_agg_pk_hash secp256k1 example_keys example_m0 example_m1
           (zero_bytes 165) eq_refl agg_example).
Defined.

(** A group element is in normal form when the only infinite one is the one
    [secp256k1_ge_set_infinity] makes. *)
Definition ge_wf (a : secp256k1_ge) : Prop :=
  infinity a = true -> a = secp256k1_ge_set_infinity.

Lemma ge_wf_finite (a : secp256k1_ge) : infinity a = false -> ge_wf a.
Proof. unfold ge_wf. congruence. Qed.

Lemma ge_add_wf (cfg : config) (a b : secp256k1_ge) :
  ge_wf a -> ge_wf b -> ge_wf (secp256k1_ge_add cfg a b).
Proof.
  intros Ha Hb. unfold secp256k1_ge_add.
  destruct (infinity a) eqn:Ia; [exact Hb|].
  destruct (infinity b) eqn:Ib; [now apply ge_wf_finite|].
  destruct (_ =? _); [destruct (_ =? 0)|]; cbv zeta;
    try (apply ge_wf_finite; reflexivity).
  intros _. reflexivity.
Qed.

Lemma ge_mul_wf (cfg : config) (k : Z) (a : secp256k1_ge) :
  ge_wf a -> ge_wf (ge_mul cfg k a).
Proof.
  intros Ha. destruct k as [|k|k]; cbn [ge_mul]; try (intros _; reflexivity).
  induction k as [k IH|k IH|]; cbn [ge_mul_pos]; cbv zeta.
  - now repeat apply ge_add_wf.
  - now apply ge_add_wf.
  - exact Ha.
Qed.

Lemma ge_add_infinity_r (cfg : config) (a : secp256k1_ge) :
  ge_wf a -> secp256k1_ge_add cfg a secp256k1_ge_set_infinity = a.
Proof.
  intros Ha. unfold secp256k1_ge_add.
  destruct (infinity a) eqn:Ia; [now rewrite (Ha Ia)|reflexivity].
Qed.

(** [secp256k1_ecmult] with a zero generator scalar is the multiple of the
    point. *)
Lemma ecmult_no_generator (cfg : config) (a : secp256k1_ge) (na : Z) :
  ge_wf a -> secp256k1_ecmult cfg a na 0 = ge_mul cfg na a.
Proof.
  intros Ha. unfold secp256k1_ecmult. cbn [ge_mul].
  now apply ge_add_infinity_r, ge_mul_wf.
Qed.

Lemma xonly_load_finite (cfg : config) (k : bytes) (pt : secp256k1_ge) :
  secp256k1_xonly_pubkey_load cfg k = Some pt -> infinity pt = false.
Proof.
  unfold secp256k1_xonly_pubkey_load, secp256k1_pubkey_load.
  destruct (secp256k1_fe_is_zero _); [discriminate|].
  intros E. apply Some_inj in E. subst pt. now destruct (ge_storage_64 cfg).
Qed.

(** The sum a_1*P_1 + ... + a_k*P_k of the points with their coefficients,
    accumulated from the left as [secp256k1_ecmult_multi_var] does. *)
Definition keyagg_sum (cfg : config) (hash : bytes) (second : Z)
    (pts : list secp256k1_ge) : secp256k1_ge :=
  fold_left
    (fun r pt =>
       secp256k1_ge_add cfg r
         (ge_mul cfg (secp256k1_musig_keyaggcoef_internal cfg hash (x pt) second) pt))
    pts secp256k1_ge_set_infinity.

Lemma agg_sum_points (cfg : config) (hash : bytes) (second : Z)
    (pks : list bytes) (pts : list secp256k1_ge) (r : secp256k1_ge) :
  keys_load cfg pks pts ->
  agg_sum cfg hash second pks r =
  fold_left
    (fun r pt =>
       secp256k1_ge_add cfg r
         (ge_mul cfg (secp256k1_musig_keyaggcoef_internal cfg hash (x pt) second) pt))
    pts r.
Proof.
  intros F. revert r. induction F as [|k pt l pts Ek F IH]; intros r;
    [reflexivity|].
  rewrite agg_sum_cons, (key_term_loaded cfg _ _ _ _ Ek). cbn [fold_left].
  rewrite ecmult_no_generator
    by (apply ge_wf_finite; exact (xonly_load_finite cfg k pt Ek)).
  apply IH.
Qed.

Lemma point_bytes_normalize (cfg : config) (a : secp256k1_ge) :
  point_bytes cfg (ge_normalize cfg a) = point_bytes cfg a.
Proof.
  unfold point_bytes, ge_normalize, secp256k1_fe_normalize_var. cbn [x y].
  now rewrite !Zmod_mod.
Qed.

Lemma even_y_normalize (cfg : config) (a : secp256k1_ge) :
  ge_normalize cfg
    (even_y_point cfg
       {| x := x a; y := secp256k1_fe_normalize_var cfg (y a);
          infinity := infinity a |}) =
  even_y_point cfg (ge_normalize cfg a).
Proof.
  unfold even_y_point, ge_normalize, secp256k1_ge_neg, secp256k1_fe_negate,
    secp256k1_fe_normalize_var. cbn [x y infinity].
  destruct (secp256k1_fe_is_odd (y a mod field_p cfg)); cbn [x y infinity];
    now rewrite !Zmod_mod.
Qed.

(** X4. A successful aggregation stores the point
    Q = a_1*P_1 + ... + a_k*P_k, where P_i is the point of key i and a_i its
    coefficient for the stored hash and second key: the cache holds Q with
    parity byte 0 and an all-zero tweak, and [agg_pk] holds Q with its y made
    even. *)
Theorem pubkey_agg_key (cfg : config) (pks : list bytes) (m m' : mem)
    (cache out : bytes) :
  0 < field_p cfg <= 2 ^ 256 ->
  m_cache m = Some cache -> m_pubkey m = Some out ->
  secp256k1_musig_pubkey_agg cfg (Some pks) m = (m', Ok 1) ->
  exists pts hash second data agg_pk,
    keys_load cfg pks pts /\
    secp256k1_musig_compute_pk_hash cfg pks = Some hash /\
    find_second_pk_x cfg (hd [] pks) (tl pks) = Some second /\
    m_cache m' = Some data /\ m_pubkey m' = Some agg_pk /\
    let Q := keyagg_sum cfg hash second pts in
    infinity Q = false /\
    secp256k1_point_load cfg (sub 4 64 data) = ge_normalize cfg Q /\
    nth 132 data x00 = x00 /\
    sub 133 32 data = zero_bytes 32 /\
    secp256k1_point_load cfg agg_pk = even_y_point cfg (ge_normalize cfg Q).
Proof.
  intros Hp Hc Ho A.
  destruct (pubkey_agg_success cfg pks m m' A)
    as (pk0 & rest & second & hash & -> & E2 & Eh & Einf & ->).
  destruct (compute_pk_hash_points cfg _ hash Eh) as (Lh & pts & F & _).
  rewrite Hc, Ho. cbn [m_cache m_pubkey stored hd tl].
  set (pkp := agg_point cfg hash second (pk0 :: rest)) in *.
  destruct (cache_bytes_fields cfg (agg_cache pkp second hash)) as (_ & Lpt & _).
  destruct (cache_bytes_layout cfg (agg_cache pkp second hash) Lh)
    as (_ & _ & Lpb & Ltw).
  cbn [agg_cache pk internal_key_parity tweak] in Lpt, Lpb, Ltw.
  assert (Eq : pkp =
               {| x := x (keyagg_sum cfg hash second pts);
                  y := secp256k1_fe_normalize_var cfg
                         (y (keyagg_sum cfg hash second pts));
                  infinity := infinity (keyagg_sum cfg hash second pts) |}).
  { unfold pkp, agg_point, keyagg_sum. now rewrite (agg_sum_points cfg _ _ _ pts). }
  exists pts, hash, second, (cache_bytes cfg (agg_cache pkp second hash)),
    (point_bytes cfg (even_y_point cfg pkp)).
  repeat (split; [assumption || reflexivity|]).
  cbv zeta. rewrite Lpt, Lpb, Ltw.
  assert (Ei : infinity (keyagg_sum cfg hash second pts) = false)
    by (rewrite Eq in Einf; exact Einf).
  split; [exact Ei|]. split; [|split; [reflexivity|split; [reflexivity|]]].
  - rewrite (point_load_bytes cfg Hp _ Einf), Eq.
    unfold ge_normalize, secp256k1_fe_normalize_var. cbn [x y infinity].
    now rewrite Zmod_mod.
  - rewrite point_load_bytes; [rewrite Eq; apply even_y_normalize|exact Hp|].
    unfold even_y_point, secp256k1_ge_neg.
    destruct (secp256k1_fe_is_odd (y pkp)); [cbn [infinity]|]; exact Einf.
Qed.

Lemma pubkey_agg_key_witness :
  0 < field_p secp256k1 <= 2 ^ 256 /\
  m_cache example_m0 = Some (zero_bytes 165) /\
  m_pubkey example_m0 = Some (zero_bytes 64) /\
  secp256k1_musig_pubkey_agg secp256k1 (Some example_keys) example_m0 =
    (example_m1, Ok 1) /\
  exists pts hash second data agg_pk,
    keys_load secp256k1 example_keys pts /\
    secp256k1_musig_compute_pk_hash secp256k1 example_keys = Some hash /\
    find_second_pk_x secp256k1 (hd [] example_keys) (tl example_keys) =
      Some second /\
    m_cache example_m1 = Some data /\ m_pubkey example_m1 = Some agg_pk /\
    let Q := keyagg_sum secp256k1 hash second pts in
    infinity Q = false /\
    secp256k1_point_load secp256k1 (sub 4 64 data) = ge_normalize secp256k1 Q /\
    nth 132 data x00 = x00 /\
    sub 133 32 data = zero_bytes 32 /\
    secp256k1_point_load secp256k1 agg_pk =
      even_y_point secp256k1 (ge_normalize secp256k1 Q).
Proof.
  split; [exact secp256k1_p_range|]. split; [reflexivity|].
  split; [reflexivity|]. split; [exact agg_example|].
  exact (pubkey_agg_key secp256k1 example_keys example_m0 example_m1
           (zero_bytes 165) (zero_bytes 64) secp256k1_p_range eq_refl eq_refl
           agg_example).
Defined.

(** X6. An aggregation that does not return 1 leaves the cache as it was. *)
Theorem pubkey_agg_failure_keeps_cache (cfg : config)
    (pubkeys : option (list bytes)) (m m' : mem) (r : res Z) :
  secp256k1_musig_pubkey_agg cfg pubkeys m = (m', r) ->
  r <> Ok 1 ->
  m_cache m' = m_cache m.
Proof.
  rewrite pubkey_agg_eq. unfold failed. intros E Hr.
  destruct pubkeys as [[|pk0 rest]|];
    [apply (f_equal fst) in E; cbn [fst] in E; now subst m'| |
     apply (f_equal fst) in E; cbn [fst] in E; now subst m'].
  destruct (find_second_pk_x cfg pk0 rest) as [second|];
    [|apply (f_equal fst) in E; cbn [fst] in E; now subst m'].
  destruct (secp256k1_musig_compute_pk_hash cfg (pk0 :: rest)) as [hash|];
    [|apply (f_equal fst) in E; cbn [fst] in E; now subst m'].
  cbv zeta in E.
  destruct (infinity (agg_point cfg hash second (pk0 :: rest))).
  - apply (f_equal fst) in E; cbn [fst] in E; now subst m'.
  - apply (f_equal snd) in E. cbn [snd] in E. congruence.
Qed.

Lemma pubkey_agg_failure_keeps_cache_witness :
  secp256k1_musig_pubkey_agg secp256k1 (Some keys_with_zero_key) mem_six_G =
    ({| m_pubkey := Some (zero_bytes 64); m_cache := Some cache_six_G |}, Ok 0) /\
  Ok 0 <> Ok 1 :> res Z /\
  m_cache {| m_pubkey := Some (zero_bytes 64); m_cache := Some cache_six_G |} =
    m_cache mem_six_G.
Proof.
  assert (A : secp256k1_musig_pubkey_agg secp256k1 (Some keys_with_zero_key) mem_six_G =
              ({| m_pubkey := Some (zero_bytes 64);
                  m_cache := Some cache_six_G |}, Ok 0))
    by (vm_compute; reflexivity).
  assert (N : Ok 0 <> Ok 1 :> res Z) by discriminate.
  split; [exact A|]. split; [exact N|].
  exact (pubkey_agg_failure_keeps_cache secp256k1 (Some keys_with_zero_key) mem_six_G _ _ A N).
Defined.

Lemma loaded_x_range (cfg : config) (k : bytes) (pt : secp256k1_ge) :
  secp256k1_xonly_pubkey_load cfg k = Some pt -> 0 <= x pt < 2 ^ 256.
Proof.
  unfold secp256k1_xonly_pubkey_load, secp256k1_pubkey_load.
  destruct (secp256k1_fe_is_zero _); [discriminate|].
  intros E. apply Some_inj in E. subst pt.
  assert (R : forall bs : bytes, 0 <= le_decode (firstn 32 bs) < 2 ^ 256).
  { intros bs. pose proof (le_decode_range (firstn 32 bs)) as R.
    assert (256 ^ Z.of_nat (length (firstn 32 bs)) <= 256 ^ Z.of_nat 32).
    { apply Z.pow_le_mono_r; [lia|]. rewrite length_firstn. lia. }
    rewrite pow_256_32 in *. lia. }
  destruct (ge_storage_64 cfg); cbn [x secp256k1_ge_from_storage secp256k1_ge_set_xy].
  - apply R.
  - unfold secp256k1_fe_set_b32.
    pose proof (be_decode_range (firstn 32 (sub 0 32 k))) as R'.
    assert (256 ^ Z.of_nat (length (firstn 32 (sub 0 32 k))) <= 256 ^ Z.of_nat 32).
    { apply Z.pow_le_mono_r; [lia|]. rewrite length_firstn. lia. }
    rewrite pow_256_32 in *. lia.
Qed.

Lemma find_second_pk_x_range (cfg : config) (pk0 : bytes) (rest : list bytes)
    (second : Z) :
  find_second_pk_x cfg pk0 rest = Some second -> 0 <= second < 2 ^ 256.
Proof.
  rewrite find_second_pk_x_eq.
  destruct (find (differs_from pk0) rest) as [k|].
  - destruct (secp256k1_xonly_pubkey_load cfg k) as [pt|] eqn:Ek; [|discriminate].
    cbn [option_map]. intros E. apply Some_inj in E. subst second.
    exact (loaded_x_range cfg k pt Ek).
  - intros E. apply Some_inj in E. subst second. lia.
Qed.

(** X7. The cache that a successful aggregation writes gives back, through
    [secp256k1_keyagg_cache_load] and [secp256k1_musig_keyaggcoef], the
    coefficients that the aggregation used; the x-coordinate recorded as
    [second_pk_x] has the coefficient 1. *)
Theorem cache_gives_coefficients (cfg : config) (pk0 : bytes) (rest : list bytes)
    (m m' : mem) (cache : bytes) :
  m_cache m = Some cache ->
  secp256k1_musig_pubkey_agg cfg (Some (pk0 :: rest)) m = (m', Ok 1) ->
  exists data ci hash second,
    m_cache m' = Some data /\
    secp256k1_keyagg_cache_load cfg data = Some ci /\
    secp256k1_musig_compute_pk_hash cfg (pk0 :: rest) = Some hash /\
    find_second_pk_x cfg pk0 rest = Some second /\
    (forall fx,
       secp256k1_musig_keyaggcoef cfg ci fx =
       secp256k1_musig_keyaggcoef_internal cfg hash fx second) /\
    secp256k1_musig_keyaggcoef cfg ci second = 1.
Proof.
  intros Hc A.
  destruct (pubkey_agg_success cfg _ m m' A)
    as (pk0' & rest' & second & hash & Epk & E2 & Eh & Einf & ->).
  apply eq_sym in Epk. injection Epk as -> ->.
  destruct (compute_pk_hash_points cfg _ hash Eh) as (Lh & _).
  rewrite Hc. cbn [m_cache stored].
  set (ci0 := agg_cache (agg_point cfg hash second (pk0 :: rest)) second hash).
  destruct (cache_bytes_fields cfg ci0) as (Lm & _ & Lsx).
  destruct (cache_bytes_layout cfg ci0 Lh) as (_ & Lhash & _).
  assert (El : secp256k1_keyagg_cache_load cfg (cache_bytes cfg ci0) <> None)
    by (apply cache_load_magic; exact Lm).
  destruct (secp256k1_keyagg_cache_load cfg (cache_bytes cfg ci0)) as [ci|] eqn:E;
    [clear El|congruence].
  assert (Hs : second_pk_x ci = second /\ pk_hash ci = hash).
  { unfold secp256k1_keyagg_cache_load in E. rewrite Lm, bytes_eqb_refl in E.
    cbn [negb] in E. apply Some_inj in E. subst ci. cbn [second_pk_x pk_hash].
    rewrite Lsx, Lhash. cbn [ci0 agg_cache second_pk_x pk_hash].
    split; [|reflexivity].
    apply fe_b32_roundtrip. exact (find_second_pk_x_range cfg pk0 rest second E2). }
  destruct Hs as (Hs & Hh).
  exists (cache_bytes cfg ci0), ci, hash, second.
  repeat (split; [assumption || reflexivity|]).
  unfold secp256k1_musig_keyaggcoef. rewrite Hs, Hh.
  split; [reflexivity|].
  rewrite keyaggcoef_internal_eq. now rewrite Z.eqb_refl.
Qed.

Lemma cache_gives_coefficients_witness :
  m_cache example_m0 = Some (zero_bytes 165) /\
  secp256k1_musig_pubkey_agg secp256k1
    (Some [point_bytes secp256k1 (generator secp256k1);
           point_bytes secp256k1 (ge_mul secp256k1 2 (generator secp256k1))])
    example_m0 = (example_m1, Ok 1) /\
  exists data ci hash second,
    m_cache example_m1 = Some data /\
    secp256k1_keyagg_cache_load secp256k1 data = Some ci /\
    secp256k1_musig_compute_pk_hash secp256k1
      [point_bytes secp256k1 (generator secp256k1);
       point_bytes secp256k1 (ge_mul secp256k1 2 (generator secp256k1))] =
      Some hash /\
    find_second_pk_x secp256k1 (point_bytes secp256k1 (generator secp256k1))
      [point_bytes secp256k1 (ge_mul secp256k1 2 (generator secp256k1))] =
      Some second /\
    (forall fx,
       secp256k1_musig_keyaggcoef secp256k1 ci fx =
       secp256k1_musig_keyaggcoef_internal secp256k1 hash fx second) /\
    secp256k1_musig_keyaggcoef secp256k1 ci second = 1.
Proof.
  split; [reflexivity|]. split; [exact agg_example|].
  exact (cache_gives_coefficients secp256k1 _ _ example_m0 example_m1
           (zero_bytes 165) eq_refl agg_example).
Defined.

(** ** Tweaking, lines 261-295 *)

(** A successful tweak, by cases on the functional form. *)
Lemma tweak_add_ok (cfg : config) (tw : bytes) (m m' : mem) :
  secp256k1_musig_pubkey_tweak_add cfg (Some tw) m = (m', Ok 1) ->
  exists cache ci,
    m_cache m = Some cache /\
    secp256k1_keyagg_cache_load cfg cache = Some ci /\
    be_decode (firstn 32 tw) < order_n cfg /\
    let ci' := tweak_apply cfg ci (be_decode (firstn 32 tw) mod order_n cfg) in
    infinity (pk ci') = false /\
    m' = {| m_pubkey := stored (m_pubkey m) (point_bytes cfg (pk ci'));
            m_cache := Some (cache_bytes cfg ci') |}.
Proof.
  rewrite tweak_add_eq. unfold failed.
  destruct (m_cache m) as [cache|]; [|discriminate].
  destruct (secp256k1_keyagg_cache_load cfg cache) as [ci|] eqn:El;
    [|discriminate].
  unfold secp256k1_scalar_set_b32. cbv zeta.
  destruct (order_n cfg <=? be_decode (firstn 32 tw)) eqn:Eo;
    cbn [orb]; [discriminate|].
  destruct (infinity (pk (tweak_apply cfg ci _))) eqn:Einf; [discriminate|].
  intros E. exists cache, ci. apply Z.leb_gt in Eo.
  repeat (split; [assumption || reflexivity|]). congruence.
Qed.

Lemma cache_load_fields (cfg : config) (cache : bytes)
    (ci : secp256k1_keyagg_cache_internal) :
  secp256k1_keyagg_cache_load cfg cache = Some ci ->
  sub 0 4 cache = secp256k1_musig_keyagg_cache_magic /\
  ci = {| pk := secp256k1_point_load cfg (sub 4 64 cache);
          second_pk_x := secp256k1_fe_set_b32 (sub 68 32 cache);
          pk_hash := sub 100 32 cache;
          internal_key_parity := Z.land (byte_to_Z (nth 132 cache x00)) 1;
          tweak := fst (secp256k1_scalar_set_b32 cfg (sub 133 32 cache)) |}.
Proof.
  intros E.
  assert (Hm : sub 0 4 cache = secp256k1_musig_keyagg_cache_magic)
    by (apply (proj1 (cache_load_magic cfg cache)); congruence).
  split; [exact Hm|].
  unfold secp256k1_keyagg_cache_load in E. rewrite Hm, bytes_eqb_refl in E.
  cbn [negb] in E. now apply Some_inj in E.
Qed.

Lemma cache_load_of_magic (cfg : config) (cache : bytes) :
  sub 0 4 cache = secp256k1_musig_keyagg_cache_magic ->
  secp256k1_keyagg_cache_load cfg cache =
  Some {| pk := secp256k1_point_load cfg (sub 4 64 cache);
          second_pk_x := secp256k1_fe_set_b32 (sub 68 32 cache);
          pk_hash := sub 100 32 cache;
          internal_key_parity := Z.land (byte_to_Z (nth 132 cache x00)) 1;
          tweak := fst (secp256k1_scalar_set_b32 cfg (sub 133 32 cache)) |}.
Proof.
  intros Hm. unfold secp256k1_keyagg_cache_load.
  now rewrite Hm, bytes_eqb_refl.
Qed.

Lemma fe_set_b32_range (bs : bytes) : 0 <= secp256k1_fe_set_b32 bs < 2 ^ 256.
Proof.
  unfold secp256k1_fe_set_b32.
  pose proof (be_decode_range (firstn 32 bs)) as R.
  assert (256 ^ Z.of_nat (length (firstn 32 bs)) <= 256 ^ Z.of_nat 32).
  { apply Z.pow_le_mono_r; [lia|]. rewrite length_firstn. lia. }
  rewrite pow_256_32 in *. lia.
Qed.

(** X8. A successful tweak changes neither the magic bytes nor the second
    key nor the key-list hash of a 165-byte cache, so the cache gives the
    same key-aggregation coefficients before and after. *)
Theorem tweak_add_keeps_coefficients (cfg : config) (tw : bytes) (m m' : mem)
    (cache : bytes) :
  m_cache m = Some cache -> length cache = 165%nat ->
  secp256k1_musig_pubkey_tweak_add cfg (Some tw) m = (m', Ok 1) ->
  exists cache' ci ci',
    m_cache m' = Some cache' /\ length cache' = 165%nat /\
    sub 0 4 cache' = sub 0 4 cache /\
    sub 68 32 cache' = sub 68 32 cache /\
    sub 100 32 cache' = sub 100 32 cache /\
    secp256k1_keyagg_cache_load cfg cache = Some ci /\
    secp256k1_keyagg_cache_load cfg cache' = Some ci' /\
    forall fx,
      secp256k1_musig_keyaggcoef cfg ci' fx = secp256k1_musig_keyaggcoef cfg ci fx.
Proof.
  intros Hc L T.
  destruct (tweak_add_ok cfg tw m m' T) as (cache0 & ci & Hc0 & El & _ & _ & ->).
  rewrite Hc in Hc0. apply Some_inj in Hc0. subst cache0.
  set (ci1 := tweak_apply cfg ci (be_decode (firstn 32 tw) mod order_n cfg)).
  destruct (cache_load_fields cfg cache ci El) as (Hm & Eci).
  assert (Hh : length (pk_hash ci1) = 32%nat).
  { unfold ci1, tweak_apply. cbn [pk_hash]. rewrite Eci. cbn [pk_hash].
    apply length_sub. lia. }
  destruct (cache_bytes_fields cfg ci1) as (Lm & _ & Lsx).
  destruct (cache_bytes_layout cfg ci1 Hh) as (L1 & Lh & _).
  assert (Es : sub 68 32 (cache_bytes cfg ci1) = sub 68 32 cache).
  { rewrite Lsx. unfold ci1, tweak_apply. cbn [second_pk_x]. rewrite Eci.
    cbn [second_pk_x]. unfold secp256k1_fe_get_b32, secp256k1_fe_set_b32.
    rewrite firstn_sub. apply be_encode_decode_32, length_sub. lia. }
  assert (Eh : sub 100 32 (cache_bytes cfg ci1) = sub 100 32 cache).
  { rewrite Lh. unfold ci1, tweak_apply. cbn [pk_hash]. now rewrite Eci. }
  eexists (cache_bytes cfg ci1), ci, _.
  split; [reflexivity|]. split; [exact L1|]. split; [congruence|].
  split; [exact Es|]. split; [exact Eh|]. split; [exact El|].
  split; [exact (cache_load_of_magic cfg _ Lm)|].
  intros fx. unfold secp256k1_musig_keyaggcoef. cbn [pk_hash second_pk_x].
  rewrite Es, Eh, Eci. reflexivity.
Qed.

(** The tweak 1 applied to the cache that holds 6*G. *)
Definition tweak_one : bytes := be_encode 32 1.

Definition mem_six_G_tweaked : mem :=
  Eval vm_compute in
    fst (secp256k1_musig_pubkey_tweak_add secp256k1 (Some tweak_one) mem_six_G).

Lemma tweak_six_G_one :
  secp256k1_musig_pubkey_tweak_add secp256k1 (Some tweak_one) mem_six_G =
  (mem_six_G_tweaked, Ok 1).
Proof. vm_compute. reflexivity. Qed.

Lemma tweak_add_keeps_coefficients_witness :
  m_cache mem_six_G = Some cache_six_G /\ length cache_six_G = 165%nat /\
  secp256k1_musig_pubkey_tweak_add secp256k1 (Some tweak_one) mem_six_G =
    (mem_six_G_tweaked, Ok 1) /\
  exists cache' ci ci',
    m_cache mem_six_G_tweaked = Some cache' /\ length cache' = 165%nat /\
    sub 0 4 cache' = sub 0 4 cache_six_G /\
    sub 68 32 cache' = sub 68 32 cache_six_G /\
    sub 100 32 cache' = sub 100 32 cache_six_G /\
    secp256k1_keyagg_cache_load secp256k1 cache_six_G = Some ci /\
    secp256k1_keyagg_cache_load secp256k1 cache' = Some ci' /\
    forall fx,
      secp256k1_musig_keyaggcoef secp256k1 ci' fx =
      secp256k1_musig_keyaggcoef secp256k1 ci fx.
Proof.
  assert (L : length cache_six_G = 165%nat) by (vm_compute; reflexivity).
  split; [reflexivity|]. split; [exact L|]. split; [exact tweak_six_G_one|].
  exact (tweak_add_keeps_coefficients secp256k1 tweak_one mem_six_G
           mem_six_G_tweaked cache_six_G eq_refl L tweak_six_G_one).
Defined.

Lemma cached_bytes_load (cfg : config) (ci : secp256k1_keyagg_cache_internal) :
  0 < field_p cfg <= 2 ^ 256 -> infinity (pk ci) = false ->
  exists ci',
    secp256k1_keyagg_cache_load cfg (cache_bytes cfg ci) = Some ci' /\
    pk ci' = ge_normalize cfg (pk ci).
Proof.
  intros Hp Hfin. destruct (cache_bytes_fields cfg ci) as (Lm & Lpt & _).
  eexists. split; [exact (cache_load_of_magic cfg _ Lm)|].
  cbn [pk]. rewrite Lpt. now apply point_load_bytes.
Qed.

(** X9. The key that a successful [secp256k1_musig_pubkey_tweak_add] writes
    to [output_pubkey] is the key that [secp256k1_musig_pubkey_get] reads
    from the tweaked cache: the read succeeds and leaves the memory as it
    is. *)
Theorem tweak_add_then_get (cfg : config) (tw : bytes) (m m' : mem) (out : bytes) :
  0 < field_p cfg <= 2 ^ 256 ->
  m_pubkey m = Some out ->
  secp256k1_musig_pubkey_tweak_add cfg (Some tw) m = (m', Ok 1) ->
  secp256k1_musig_pubkey_get cfg m' = (m', Ok 1).
Proof.
  intros Hp Ho T.
  destruct (tweak_add_ok cfg tw m m' T) as (cache & ci & _ & _ & _ & Hfin & ->).
  rewrite Ho. cbn [stored]. rewrite pubkey_get_eq. cbn [m_pubkey m_cache].
  destruct (cached_bytes_load cfg _ Hp Hfin) as (ci' & El & Epk).
  rewrite El, Epk, point_bytes_normalize. reflexivity.
Qed.

Lemma tweak_add_then_get_witness :
  0 < field_p secp256k1 <= 2 ^ 256 /\
  m_pubkey mem_six_G = Some (repeat xff 64) /\
  secp256k1_musig_pubkey_tweak_add secp256k1 (Some tweak_one) mem_six_G =
    (mem_six_G_tweaked, Ok 1) /\
  secp256k1_musig_pubkey_get secp256k1 mem_six_G_tweaked =
    (mem_six_G_tweaked, Ok 1).
Proof.
  split; [exact secp256k1_p_range|]. split; [reflexivity|].
  split; [exact tweak_six_G_one|].
  exact (tweak_add_then_get secp256k1 tweak_one mem_six_G mem_six_G_tweaked
           (repeat xff 64) secp256k1_p_range eq_refl tweak_six_G_one).
Defined.

(** X10. The key that a successful aggregation writes to [agg_pk] is the
    even-y form of the key that [secp256k1_musig_pubkey_get] then reads from
    the cache; the read succeeds and does not change the cache. *)
Theorem pubkey_agg_then_get (cfg : config) (pks : list bytes) (m m' : mem)
    (cache out : bytes) :
  0 < field_p cfg <= 2 ^ 256 ->
  m_cache m = Some cache -> m_pubkey m = Some out ->
  secp256k1_musig_pubkey_agg cfg (Some pks) m = (m', Ok 1) ->
  exists agg_pk full data,
    m_pubkey m' = Some agg_pk /\ m_cache m' = Some data /\
    secp256k1_musig_pubkey_get cfg m' =
      ({| m_pubkey := Some full; m_cache := Some data |}, Ok 1) /\
    secp256k1_point_load cfg agg_pk =
      even_y_point cfg (secp256k1_point_load cfg full).
Proof.
  intros Hp Hc Ho A.
  destruct (pubkey_agg_success cfg pks m m' A)
    as (pk0 & rest & second & hash & -> & _ & _ & Einf & ->).
  rewrite Hc, Ho. cbn [stored m_pubkey m_cache].
  set (pkp := agg_point cfg hash second (pk0 :: rest)) in *.
  destruct (cached_bytes_load cfg (agg_cache pkp second hash) Hp Einf)
    as (ci' & El & Epk).
  cbn [agg_cache pk] in Epk.
  eexists _, _, _. split; [reflexivity|]. split; [reflexivity|].
  rewrite pubkey_get_eq. cbn [m_pubkey m_cache]. rewrite El, Epk.
  split; [reflexivity|].
  rewrite point_bytes_normalize, (point_load_bytes cfg Hp _ Einf).
  rewrite point_load_bytes; [|exact Hp|].
  - unfold pkp, agg_point. cbv zeta.
    set (q := agg_sum cfg hash second (pk0 :: rest) secp256k1_ge_set_infinity).
    rewrite (even_y_normalize cfg q).
    unfold ge_normalize, secp256k1_fe_normalize_var. cbn [x y infinity].
    now rewrite !Zmod_mod.
  - unfold even_y_point, secp256k1_ge_neg.
    destruct (secp256k1_fe_is_odd (y pkp)); [cbn [infinity]|]; exact Einf.
Qed.

Lemma pubkey_agg_then_get_witness :
  0 < field_p secp256k1 <= 2 ^ 256 /\
  m_cache example_m0 = Some (zero_bytes 165) /\
  m_pubkey example_m0 = Some (zero_bytes 64) /\
  secp256k1_musig_pubkey_agg secp256k1 (Some example_keys) example_m0 =
    (example_m1, Ok 1) /\
  exists agg_pk full data,
    m_pubkey example_m1 = Some agg_pk /\ m_cache example_m1 = Some data /\
    secp256k1_musig_pubkey_get secp256k1 example_m1 =
      ({| m_pubkey := Some full; m_cache := Some data |}, Ok 1) /\
    secp256k1_point_load secp256k1 agg_pk =
      even_y_point secp256k1 (secp256k1_point_load secp256k1 full).
Proof.
  split; [exact secp256k1_p_range|]. split; [reflexivity|].
  split; [reflexivity|]. split; [exact agg_example|].
  exact (pubkey_agg_then_get secp256k1 example_keys example_m0 example_m1
           (zero_bytes 165) (zero_bytes 64) secp256k1_p_range eq_refl eq_refl
           agg_example).
Defined.

Lemma be_decode_zero_bytes : be_decode (firstn 32 (zero_bytes 32)) = 0.
Proof. reflexivity. Qed.

Lemma even_y_point_infinity (cfg : config) (a : secp256k1_ge) :
  infinity (even_y_point cfg a) = infinity a.
Proof.
  unfold even_y_point, secp256k1_ge_neg.
  now destruct (secp256k1_fe_is_odd (y a)).
Qed.

Lemma cached_point_bytes (cfg : config) (out : option bytes)
    (ci : secp256k1_keyagg_cache_internal) :
  0 < field_p cfg <= 2 ^ 256 -> infinity (pk ci) = false ->
  cached_point cfg {| m_pubkey := out; m_cache := Some (cache_bytes cfg ci) |} =
  ge_normalize cfg (pk ci).
Proof.
  intros Hp Hfin. unfold cached_point. cbn [m_cache].
  destruct (cache_bytes_fields cfg ci) as (_ & -> & _).
  now apply point_load_bytes.
Qed.

(** X11. The all-zero tweak is accepted for every cache with the magic
    bytes, and it is not a no-operation: the cached point becomes the even-y
    form of the point that was cached. *)
Theorem tweak_add_zero (cfg : config) (m : mem) (cache : bytes) :
  0 < field_p cfg <= 2 ^ 256 -> 0 < order_n cfg ->
  m_cache m = Some cache ->
  sub 0 4 cache = secp256k1_musig_keyagg_cache_magic ->
  exists m',
    secp256k1_musig_pubkey_tweak_add cfg (Some (zero_bytes 32)) m = (m', Ok 1) /\
    cached_point cfg m' = ge_normalize cfg (even_y_point cfg (cached_point cfg m)).
Proof.
  intros Hp Hn Hc Hm. rewrite tweak_add_eq, Hc.
  rewrite (cache_load_of_magic cfg cache Hm).
  set (ci := {| pk := secp256k1_point_load cfg (sub 4 64 cache) |}).
  unfold secp256k1_scalar_set_b32. rewrite be_decode_zero_bytes.
  rewrite Z.mod_0_l by lia.
  replace (order_n cfg <=? 0) with false by (symmetry; apply Z.leb_gt; lia).
  cbv zeta. cbn [orb].
  assert (Hfin : infinity (pk ci) = false) by apply point_load_finite.
  assert (Epk : pk (tweak_apply cfg ci 0) = even_y_point cfg (pk ci)).
  { unfold tweak_apply. cbn [pk].
    rewrite ecmult_no_generator.
    - cbn [ge_mul ge_mul_pos]. reflexivity.
    - apply ge_wf_finite.
      destruct (secp256k1_fe_is_odd (y (pk ci))); [cbn [secp256k1_ge_neg infinity]|];
        exact Hfin. }
  assert (Hfin' : infinity (pk (tweak_apply cfg ci 0)) = false)
    by (now rewrite Epk, even_y_point_infinity).
  rewrite Hfin'. eexists. split; [reflexivity|].
  rewrite (cached_point_bytes cfg _ _ Hp Hfin'), Epk.
  unfold cached_point. now rewrite Hc.
Qed.

Lemma tweak_add_zero_witness :
  0 < field_p secp256k1 <= 2 ^ 256 /\ 0 < order_n secp256k1 /\
  m_cache mem_six_G = Some cache_six_G /\
  sub 0 4 cache_six_G = secp256k1_musig_keyagg_cache_magic /\
  exists m',
    secp256k1_musig_pubkey_tweak_add secp256k1 (Some (zero_bytes 32)) mem_six_G =
      (m', Ok 1) /\
    cached_point secp256k1 m' =
      ge_normalize secp256k1 (even_y_point secp256k1 (cached_point secp256k1 mem_six_G)).
Proof.
  assert (Hn : 0 < order_n secp256k1) by reflexivity.
  assert (Hm : sub 0 4 cache_six_G = secp256k1_musig_keyagg_cache_magic)
    by (vm_compute; reflexivity).
  split; [exact secp256k1_p_range|]. split; [exact Hn|].
  split; [reflexivity|]. split; [exact Hm|].
  exact (tweak_add_zero secp256k1 mem_six_G cache_six_G secp256k1_p_range Hn
           eq_refl Hm).
Defined.

(** X12. A successful tweak of a 165-byte cache writes a cache in canonical
    form: 165 bytes that load to a finite point with normalised coordinates,
    a parity of 0 or 1 and a tweak below the group order, and that
    [secp256k1_keyagg_cache_save] reproduces from what was loaded. *)
Theorem tweak_add_writes_canonical_cache (cfg : config) (tw : bytes) (m m' : mem)
    (cache : bytes) :
  0 < field_p cfg <= 2 ^ 256 -> 0 < order_n cfg <= 2 ^ 256 ->
  m_cache m = Some cache -> length cache = 165%nat ->
  secp256k1_musig_pubkey_tweak_add cfg (Some tw) m = (m', Ok 1) ->
  exists data ci' ci'',
    m_cache m' = Some data /\ length data = 165%nat /\
    secp256k1_keyagg_cache_load cfg data = Some ci' /\
    ge_canonical cfg (pk ci') /\
    (internal_key_parity ci' = 0 \/ internal_key_parity ci' = 1) /\
    0 <= tweak ci' < order_n cfg /\
    secp256k1_keyagg_cache_save cfg ci' = Ok (data, ci'').
Proof.
  intros Hp Hn Hc L T.
  destruct (tweak_add_ok cfg tw m m' T) as (cache0 & ci & Hc0 & El & _ & Hfin & ->).
  rewrite Hc in Hc0. apply Some_inj in Hc0. subst cache0.
  set (ci1 := tweak_apply cfg ci (be_decode (firstn 32 tw) mod order_n cfg)) in *.
  cbv zeta in Hfin.
  destruct (cache_load_fields cfg cache ci El) as (Hm & Eci).
  assert (Hh : length (pk_hash ci1) = 32%nat).
  { unfold ci1, tweak_apply. cbn [pk_hash]. rewrite Eci. cbn [pk_hash].
    apply length_sub. lia. }
  assert (Hpar : internal_key_parity ci1 = 0 \/ internal_key_parity ci1 = 1).
  { assert (P0 : internal_key_parity ci = 0 \/ internal_key_parity ci = 1).
    { rewrite Eci. cbn [internal_key_parity].
      assert (La : forall v, Z.land v 1 = v mod 2)
        by (intros v; exact (Z.land_ones v 1 ltac:(lia))).
      rewrite La.
      pose proof (Z.mod_pos_bound (byte_to_Z (nth 132 cache x00)) 2). lia. }
    unfold ci1, tweak_apply. cbn [internal_key_parity].
    destruct (secp256k1_fe_is_odd (y (pk ci))); [|exact P0].
    destruct P0 as [-> | ->]; [now right|now left]. }
  assert (Ht : 0 <= tweak ci1 < order_n cfg).
  { unfold ci1, tweak_apply, secp256k1_scalar_add. cbn [tweak].
    apply Z.mod_pos_bound. lia. }
  destruct (cache_bytes_fields cfg ci1) as (Lm & Lpt & _).
  destruct (cache_bytes_layout cfg ci1 Hh) as (L1 & _ & Lpb & Ltw).
  pose proof (cache_load_of_magic cfg _ Lm) as El1.
  rewrite Lpt, Lpb, Ltw in El1.
  rewrite (point_load_bytes cfg Hp _ Hfin), (parity_byte _ Hpar) in El1.
  rewrite (scalar_b32_roundtrip cfg (tweak ci1)) in El1 by lia. cbn [fst] in El1.
  assert (Hcan : ge_canonical cfg (ge_normalize cfg (pk ci1))).
  { unfold ge_canonical, ge_normalize, secp256k1_fe_normalize_var.
    cbn [x y infinity]. split; [exact Hfin|].
    split; apply Z.mod_pos_bound; lia. }
  assert (Eb : cache_bytes cfg
                 {| pk := ge_normalize cfg (pk ci1);
                    second_pk_x :=
                      secp256k1_fe_set_b32 (sub 68 32 (cache_bytes cfg ci1));
                    pk_hash := sub 100 32 (cache_bytes cfg ci1);
                    internal_key_parity := internal_key_parity ci1;
                    tweak := tweak ci1 |} = cache_bytes cfg ci1).
  { apply cache_bytes_loaded; [lia|exact L1|exact El1|exact Hcan| |].
    - rewrite Lpb. destruct Hpar as [-> | ->]; vm_compute; discriminate.
    - rewrite Ltw. unfold secp256k1_scalar_get_b32.
      rewrite be_decode_encode, pow_256_32, Z.mod_small by lia. lia. }
  destruct (cache_save_finite cfg
              {| pk := ge_normalize cfg (pk ci1);
                 second_pk_x :=
                   secp256k1_fe_set_b32 (sub 68 32 (cache_bytes cfg ci1));
                 pk_hash := sub 100 32 (cache_bytes cfg ci1);
                 internal_key_parity := internal_key_parity ci1;
                 tweak := tweak ci1 |} Hfin) as (ci'' & Es & _).
  rewrite Eb in Es.
  eexists _, _, ci''. split; [reflexivity|]. split; [exact L1|].
  split; [exact El1|]. cbn [pk internal_key_parity tweak].
  split; [exact Hcan|]. split; [exact Hpar|]. split; [exact Ht|]. exact Es.
Qed.

Lemma tweak_add_writes_canonical_cache_witness :
  0 < field_p secp256k1 <= 2 ^ 256 /\ 0 < order_n secp256k1 <= 2 ^ 256 /\
  m_cache mem_six_G = Some cache_six_G /\ length cache_six_G = 165%nat /\
  secp256k1_musig_pubkey_tweak_add secp256k1 (Some tweak_one) mem_six_G =
    (mem_six_G_tweaked, Ok 1) /\
  exists data ci' ci'',
    m_cache mem_six_G_tweaked = Some data /\ length data = 165%nat /\
    secp256k1_keyagg_cache_load secp256k1 data = Some ci' /\
    ge_canonical secp256k1 (pk ci') /\
    (internal_key_parity ci' = 0 \/ internal_key_parity ci' = 1) /\
    0 <= tweak ci' < order_n secp256k1 /\
    secp256k1_keyagg_cache_save secp256k1 ci' = Ok (data, ci'').
Proof.
  assert (L : length cache_six_G = 165%nat) by (vm_compute; reflexivity).
  split; [exact secp256k1_p_range|]. split; [exact secp256k1_n_range|].
  split; [reflexivity|]. split; [exact L|]. split; [exact tweak_six_G_one|].
  exact (tweak_add_writes_canonical_cache secp256k1 tweak_one mem_six_G
           mem_six_G_tweaked cache_six_G secp256k1_p_range secp256k1_n_range
           eq_refl L tweak_six_G_one).
Defined.

(** X13. One successful tweak by t: the cached point P is replaced by
    even_y(P) + t*G; the parity byte is flipped exactly when the y of P was
    odd, and the stored tweak is the old one, negated in that case, plus t,
    modulo the group order. *)
Theorem tweak_add_step (cfg : config) (tw : bytes) (m m' : mem) (cache : bytes) :
  0 < field_p cfg <= 2 ^ 256 ->
  m_cache m = Some cache -> length cache = 165%nat ->
  secp256k1_musig_pubkey_tweak_add cfg (Some tw) m = (m', Ok 1) ->
  let t := be_decode (firstn 32 tw) in
  let P := cached_point cfg m in
  let odd := secp256k1_fe_is_odd (y P) in
  let parity := Z.land (byte_to_Z (nth 132 cache x00)) 1 in
  let tweak0 := be_decode (sub 133 32 cache) mod order_n cfg in
  0 <= t < order_n cfg /\
  cached_point cfg m' =
    ge_normalize cfg
      (secp256k1_ge_add cfg (even_y_point cfg P) (ge_mul cfg t (generator cfg))) /\
  exists data,
    m_cache m' = Some data /\
    nth 132 data x00 = byte_of_Z (if odd then Z.lxor parity 1 else parity) /\
    sub 133 32 data =
      be_encode 32
        (((if odd then (order_n cfg - tweak0) mod order_n cfg else tweak0) + t)
         mod order_n cfg).
Proof.
  intros Hp Hc L T. cbv zeta.
  destruct (tweak_add_ok cfg tw m m' T) as (cache0 & ci & Hc0 & El & Ht & Hfin & ->).
  rewrite Hc in Hc0. apply Some_inj in Hc0. subst cache0.
  pose proof (be_decode_range (firstn 32 tw)) as Rt.
  rewrite Z.mod_small in * by lia.
  set (t := be_decode (firstn 32 tw)) in *.
  destruct (cache_load_fields cfg cache ci El) as (Hm & Eci).
  assert (EP : cached_point cfg m = pk ci).
  { unfold cached_point. rewrite Hc, Eci. reflexivity. }
  assert (Hh : length (pk_hash (tweak_apply cfg ci t)) = 32%nat).
  { unfold tweak_apply. cbn [pk_hash]. rewrite Eci. cbn [pk_hash].
    apply length_sub. lia. }
  destruct (cache_bytes_layout cfg _ Hh) as (_ & _ & Lpb & Ltw).
  split; [lia|]. split.
  - rewrite (cached_point_bytes cfg _ _ Hp Hfin), EP.
    unfold tweak_apply. cbn [pk]. now rewrite ecmult_one.
  - eexists. split; [reflexivity|]. rewrite Lpb, Ltw, EP.
    unfold tweak_apply, secp256k1_scalar_get_b32, secp256k1_scalar_add,
      secp256k1_scalar_negate.
    cbn [internal_key_parity tweak]. rewrite Eci.
    cbn [internal_key_parity tweak pk secp256k1_scalar_set_b32 fst].
    rewrite firstn_sub. split; reflexivity.
Qed.

Lemma tweak_add_step_witness :
  0 < field_p secp256k1 <= 2 ^ 256 /\
  m_cache mem_six_G = Some cache_six_G /\ length cache_six_G = 165%nat /\
  secp256k1_musig_pubkey_tweak_add secp256k1 (Some tweak_one) mem_six_G =
    (mem_six_G_tweaked, Ok 1) /\
  (let t := be_decode (firstn 32 tweak_one) in
   let P := cached_point secp256k1 mem_six_G in
   let odd := secp256k1_fe_is_odd (y P) in
   let parity := Z.land (byte_to_Z (nth 132 cache_six_G x00)) 1 in
   let tweak0 := be_decode (sub 133 32 cache_six_G) mod order_n secp256k1 in
   0 <= t < order_n secp256k1 /\
   cached_point secp256k1 mem_six_G_tweaked =
     ge_normalize secp256k1
       (secp256k1_ge_add secp256k1 (even_y_point secp256k1 P)
          (ge_mul secp256k1 t (generator secp256k1))) /\
   exists data,
     m_cache mem_six_G_tweaked = Some data /\
     nth 132 data x00 = byte_of_Z (if odd then Z.lxor parity 1 else parity) /\
     sub 133 32 data =
       be_encode 32
         (((if odd then (order_n secp256k1 - tweak0) mod order_n secp256k1
            else tweak0) + t)
          mod order_n secp256k1)).
Proof.
  assert (L : length cache_six_G = 165%nat) by (vm_compute; reflexivity).
  split; [exact secp256k1_p_range|]. split; [reflexivity|]. split; [exact L|].
  split; [exact tweak_six_G_one|].
  exact (tweak_add_step secp256k1 tweak_one mem_six_G mem_six_G_tweaked
           cache_six_G secp256k1_p_range eq_refl L tweak_six_G_one).
Defined.

(** X14. A tweak that cancels the key is refused: when the even-y form of
    the cached point is k*G, the tweak n - k makes the call return 0, and the
    cache keeps its bytes. *)
Theorem tweak_add_cancelling_tweak (cfg : config) (m : mem) (cache : bytes)
    (k : Z) :
  curve_group cfg ->
  m_cache m = Some cache ->
  sub 0 4 cache = secp256k1_musig_keyagg_cache_magic ->
  0 < k < order_n cfg ->
  even_y_point cfg (cached_point cfg m) = ge_mul cfg k (generator cfg) ->
  secp256k1_musig_pubkey_tweak_add cfg (Some (be_encode 32 (order_n cfg - k))) m =
  ({| m_pubkey := stored (m_pubkey m) (zero_bytes 64); m_cache := Some cache |},
   Ok 0).
Proof.
  intros CG Hc Hm Hk HP.
  pose proof (cg_n cfg CG) as Hn.
  rewrite tweak_add_eq, Hc, (cache_load_of_magic cfg cache Hm).
  change (be_encode 32 (order_n cfg - k))
    with (secp256k1_scalar_get_b32 (order_n cfg - k)).
  rewrite (scalar_b32_roundtrip cfg (order_n cfg - k)) by lia.
  cbv zeta. cbn [orb].
  set (ci := {| pk := secp256k1_point_load cfg (sub 4 64 cache) |}).
  assert (Einf : pk (tweak_apply cfg ci (order_n cfg - k)) =
                 secp256k1_ge_set_infinity).
  { unfold tweak_apply. cbn [pk]. rewrite ecmult_one.
    fold (even_y_point cfg (pk ci)).
    replace (pk ci) with (cached_point cfg m)
      by (unfold cached_point; now rewrite Hc).
    rewrite HP, <- (ge_mul_add cfg CG) by (try apply (cg_generator cfg CG); lia).
    replace (k + (order_n cfg - k)) with (order_n cfg) by ring.
    apply (cg_order cfg CG). }
  rewrite Einf. cbn [infinity secp256k1_ge_set_infinity].
  unfold failed. now rewrite Hc.
Qed.

(** The cache of [tiny_m1]; its point (7, 8) is 6*G on the small curve. *)
Definition cache_of (m : mem) : bytes :=
  match m_cache m with
  | Some c => c
  | None => []
  end.

Definition tiny_cache1 : bytes := cache_of tiny_m1.

Lemma tweak_add_cancelling_tweak_witness :
  curve_group tiny /\
  m_cache tiny_m1 = Some tiny_cache1 /\
  sub 0 4 tiny_cache1 = secp256k1_musig_keyagg_cache_magic /\
  0 < 6 < order_n tiny /\
  even_y_point tiny (cached_point tiny tiny_m1) = ge_mul tiny 6 (generator tiny) /\
  secp256k1_musig_pubkey_tweak_add tiny (Some (be_encode 32 (order_n tiny - 6)))
    tiny_m1 =
  ({| m_pubkey := stored (m_pubkey tiny_m1) (zero_bytes 64);
      m_cache := Some tiny_cache1 |}, Ok 0).
Proof.
  assert (Hc : m_cache tiny_m1 = Some tiny_cache1) by (vm_compute; reflexivity).
  assert (Hm : sub 0 4 tiny_cache1 = secp256k1_musig_keyagg_cache_magic)
    by (vm_compute; reflexivity).
  assert (Hk : 0 < 6 < order_n tiny) by (vm_compute; split; reflexivity).
  assert (HP : even_y_point tiny (cached_point tiny tiny_m1) =
               ge_mul tiny 6 (generator tiny)) by (vm_compute; reflexivity).
  split; [exact tiny_curve_group|]. split; [exact Hc|]. split; [exact Hm|].
  split; [exact Hk|]. split; [exact HP|].
  exact (tweak_add_cancelling_tweak tiny tiny_m1 tiny_cache1 6 tiny_curve_group
           Hc Hm Hk HP).
Defined.

(** ** The point codec on coordinates that are not normalised, lines 20-48 *)

(** X15. [secp256k1_point_save] stores the normalised coordinates of any
    finite point, so loading gives the normalised point; the big-endian
    branch also normalises its argument in place, the storage branch leaves
    it as it was. *)
Theorem point_save_normalises (cfg : config) (a : secp256k1_ge) :
  0 < field_p cfg <= 2 ^ 256 ->
  infinity a = false ->
  exists data a',
    secp256k1_point_save cfg a = Ok (data, a') /\
    length data = 64%nat /\
    secp256k1_point_load cfg data = ge_normalize cfg a /\
    a' = if ge_storage_64 cfg then a else ge_normalize cfg a.
Proof.
  intros Hp Hfin.
  pose proof (point_load_bytes cfg Hp a Hfin) as Hl.
  pose proof (point_bytes_length cfg a) as Hlen.
  unfold secp256k1_point_save, secp256k1_ge_to_storage, VERIFY_CHECK, rbind,
    secp256k1_ge_is_infinity.
  unfold point_bytes in Hl, Hlen. rewrite Hfin. cbn [negb].
  destruct (ge_storage_64 cfg); cbn [x y infinity];
    eexists _, _; (split; [reflexivity|]); (split; [exact Hlen|]);
    (split; [exact Hl|]);
    first [reflexivity | unfold ge_normalize; now rewrite Hfin].
Qed.

(** G with p added to its x-coordinate: the same point, not normalised. *)
Definition G_unnormalised : secp256k1_ge :=
  {| x := x (generator secp256k1) + field_p secp256k1;
     y := y (generator secp256k1);
     infinity := false |}.

Lemma point_save_normalises_witness :
  0 < field_p secp256k1_be <= 2 ^ 256 /\
  infinity G_unnormalised = false /\
  exists data a',
    secp256k1_point_save secp256k1_be G_unnormalised = Ok (data, a') /\
    length data = 64%nat /\
    secp256k1_point_load secp256k1_be data =
      ge_normalize secp256k1_be G_unnormalised /\
    a' = if ge_storage_64 secp256k1_be then G_unnormalised
         else ge_normalize secp256k1_be G_unnormalised.
Proof.
  split; [exact secp256k1_p_range|]. split; [reflexivity|].
  exact (point_save_normalises secp256k1_be G_unnormalised secp256k1_p_range
           eq_refl).
Defined.

(** ** The two aggregations of example.c *)

(** X17. example.c aggregates the same keys twice: [main] asks for [agg_pk]
    only (NULL cache) and [sign] for the cache only (NULL [agg_pk]). When
    the first call succeeds so does the second, and the key that the first
    writes to [agg_pk] is the even-y form of the point that the second
    writes to the cache. *)
Theorem pubkey_agg_split_calls (cfg : config) (pks : list bytes)
    (out cache : bytes) (mA : mem) :
  0 < field_p cfg <= 2 ^ 256 ->
  secp256k1_musig_pubkey_agg cfg (Some pks)
    {| m_pubkey := Some out; m_cache := None |} = (mA, Ok 1) ->
  exists agg_pk data,
    mA = {| m_pubkey := Some agg_pk; m_cache := None |} /\
    secp256k1_musig_pubkey_agg cfg (Some pks)
      {| m_pubkey := None; m_cache := Some cache |} =
      ({| m_pubkey := None; m_cache := Some data |}, Ok 1) /\
    length data = 165%nat /\
    secp256k1_point_load cfg agg_pk =
      even_y_point cfg (secp256k1_point_load cfg (sub 4 64 data)).
Proof.
  intros Hp A.
  destruct (pubkey_agg_success cfg pks _ mA A)
    as (pk0 & rest & second & hash & -> & E2 & Eh & Einf & ->).
  cbn [m_pubkey m_cache stored].
  set (pkp := agg_point cfg hash second (pk0 :: rest)) in *.
  destruct (compute_pk_hash_points cfg _ hash Eh) as (Lh & _).
  destruct (cache_bytes_fields cfg (agg_cache pkp second hash)) as (_ & Lpt & _).
  destruct (cache_bytes_layout cfg (agg_cache pkp second hash) Lh) as (L & _).
  cbn [agg_cache pk] in Lpt.
  eexists _, (cache_bytes cfg (agg_cache pkp second hash)).
  split; [reflexivity|]. split.
  - rewrite pubkey_agg_eq, E2, Eh. cbv zeta. fold pkp. rewrite Einf.
    reflexivity.
  - split; [exact L|]. rewrite Lpt.
    rewrite (point_load_bytes cfg Hp _ Einf).
    rewrite point_load_bytes; [|exact Hp|].
    + unfold pkp, agg_point. cbv zeta.
      set (q := agg_sum cfg hash second (pk0 :: rest) secp256k1_ge_set_infinity).
      rewrite (even_y_normalize cfg q).
      unfold ge_normalize, secp256k1_fe_normalize_var. cbn [x y infinity].
      now rewrite !Zmod_mod.
    + now rewrite even_y_point_infinity.
Qed.

(** The three keys of the small curve, aggregated for [agg_pk] only. *)
Definition tiny_keys : list bytes := [tiny_key 11 8; tiny_key 8 8; tiny_key 7 8].

Definition tiny_mA : mem :=
  {| m_pubkey := Some (point_bytes tiny {| x := 7; y := 8; infinity := false |});
     m_cache := None |}.

Lemma pubkey_agg_split_calls_witness :
  0 < field_p tiny <= 2 ^ 256 /\
  secp256k1_musig_pubkey_agg tiny (Some tiny_keys)
    {| m_pubkey := Some (zero_bytes 64); m_cache := None |} = (tiny_mA, Ok 1) /\
  exists agg_pk data,
    tiny_mA = {| m_pubkey := Some agg_pk; m_cache := None |} /\
    secp256k1_musig_pubkey_agg tiny (Some tiny_keys)
      {| m_pubkey := None; m_cache := Some (zero_bytes 165) |} =
      ({| m_pubkey := None; m_cache := Some data |}, Ok 1) /\
    length data = 165%nat /\
    secp256k1_point_load tiny agg_pk =
      even_y_point tiny (secp256k1_point_load tiny (sub 4 64 data)).
Proof.
  assert (Hp : 0 < field_p tiny <= 2 ^ 256)
    by (vm_compute; split; [reflexivity|discriminate]).
  assert (A : secp256k1_musig_pubkey_agg tiny (Some tiny_keys)
                {| m_pubkey := Some (zero_bytes 64); m_cache := None |} =
              (tiny_mA, Ok 1)) by (vm_compute; reflexivity).
  split; [exact Hp|]. split; [exact A|].
  exact (pubkey_agg_split_calls tiny tiny_keys (zero_bytes 64) (zero_bytes 165)
           tiny_mA Hp A).
Defined.
